(** * Workflow engine: graph validation, planning, input resolution and the
      run orchestrator, embedded from the TypeScript sources

    - [src/types/workflow.ts]            the data model
    - schema helpers ([validateWorkflowDAG], [detectCycle],
      [buildAdjacencyList], [topologicalSort])
    - [src/lib/workflows/executor.ts]    ([checkForCycles], [findCycle],
      [buildExecutionPlan], [resolveNodeInputs])
    - the runner ([WorkflowRunner.run], [executeNode], [generateExecutionId])

    JavaScript [Map]s that are only read by key are [gmap]s, [Set]s are
    [gset]s, the [results] map (whose insertion order is observable) is an
    association list, and plain objects used as records of unknown values
    are [gmap string JsValue]. *)

From stdpp Require Import gmap strings list fin_maps pretty.
From Stdlib Require Import ZArith Ascii.

Local Open Scope string_scope.
Local Open Scope nat_scope.
Local Open Scope list_scope.
Local Open Scope stdpp_scope.

#[local] Set Warnings "-clear-no-such-hyp,-level-tolerance".

(* ===================================================================== *)
(** ** Data model ([src/types/workflow.ts]) *)
(* ===================================================================== *)

(** Values of type [unknown] stored in node data and executor outputs. *)
#[warnings="-register-all"]
Inductive JsValue :=
  | JUndefined
  | JNull
  | JBool (b : bool)
  | JNum (n : Z)
  | JStr (s : string)
  | JObject (fields : list (string * JsValue)).

(** [BaseNode]: [position] is UI metadata and is never read by the engine;
    [data.label] is present in every node variant, the other fields of
    [data] are kept as a record of unknown values. *)
Record NodeData := {
  label : string;
  fields : gmap string JsValue
}.

Record WorkflowNode := {
  n_id : string;
  n_type : string;
  n_data : NodeData
}.

Inductive PortType := input | output.

Record PortDefinition := {
  p_id : string;
  p_nodeId : string;
  p_type : PortType;
  p_label : string;
  dataType : string;
  required : option bool
}.

Record WorkflowEdge := {
  e_id : string;
  source : string;
  target : string;
  sourcePort : option string;
  targetPort : option string;
  e_label : option string
}.

Record WorkflowMetadata := {
  m_id : string;
  m_name : string;
  m_version : string;
  createdAt : string;
  updatedAt : string
}.

Record Workflow := {
  metadata : WorkflowMetadata;
  nodes : list WorkflowNode;
  edges : list WorkflowEdge;
  ports : list PortDefinition
}.

(** [Array.prototype.join]. *)
Fixpoint join (sep : string) (l : list string) : string :=
  match l with
  | [] => ""
  | [x] => x
  | x :: rest => x +:+ sep +:+ join sep rest
  end.

(** [Array.prototype.indexOf], [None] standing for [-1]. *)
Fixpoint indexOf (x : string) (l : list string) : option nat :=
  match l with
  | [] => None
  | y :: rest => if bool_decide (y = x) then Some 0 else S <$> indexOf x rest
  end.

(* ===================================================================== *)
(** ** Schema helpers: adjacency, cycle detection, topological sort *)
(* ===================================================================== *)

Definition buildAdjacencyList (nodes : list WorkflowNode) (edges : list WorkflowEdge)
  : gmap string (list string) :=
  let adjacency := foldl (λ adj node, <[n_id node := []]> adj) ∅ nodes in
  foldl (λ adj edge,
           let neighbors := default [] (adj !! source edge) in
           <[source edge := neighbors ++ [target edge]]> adj)
        adjacency edges.

(** The two sets threaded through [hasCycleUtil]. *)
Record DfsState := {
  visited : gset string;
  recursionStack : gset string
}.

(** [for (const x of xs) { if (visit(x)) return true; }], the loop shape
    used both over the neighbours and over the node array.  [None] is the
    embedding running out of recursion fuel, never a JavaScript result. *)
Fixpoint anyCycle (visit : string → DfsState → option (bool * DfsState))
    (xs : list string) (st : DfsState) : option (bool * DfsState) :=
  match xs with
  | [] => Some (false, st)
  | x :: rest =>
      match visit x st with
      | None => None
      | Some (true, st') => Some (true, st')
      | Some (false, st') => anyCycle visit rest st'
      end
  end.

(** [hasCycleUtil]; [fuel] bounds the recursion depth. *)
Fixpoint hasCycleUtil (fuel : nat) (adjacency : gmap string (list string))
    (nodeId : string) (st : DfsState) : option (bool * DfsState) :=
  match fuel with
  | O => None
  | S fuel' =>
      if bool_decide (nodeId ∈ recursionStack st) then Some (true, st)
      else if bool_decide (nodeId ∈ visited st) then Some (false, st)
      else
        let st1 := {| visited := {[nodeId]} ∪ visited st;
                      recursionStack := {[nodeId]} ∪ recursionStack st |} in
        let neighbors := default [] (adjacency !! nodeId) in
        match anyCycle (hasCycleUtil fuel' adjacency) neighbors st1 with
        | None => None
        | Some (true, st2) => Some (true, st2)
        | Some (false, st2) =>
            Some (false, {| visited := visited st2;
                            recursionStack := recursionStack st2 ∖ {[nodeId]} |})
        end
  end.

(** Recursion budget handed to the depth-first searches: one more than the
    number of ids that can ever be on the recursion stack. *)
Definition dfsFuel (nodes : list WorkflowNode) (edges : list WorkflowEdge) : nat :=
  S (length nodes + length edges).

Definition detectCycle (nodes : list WorkflowNode) (edges : list WorkflowEdge)
  : option bool :=
  let adjacency := buildAdjacencyList nodes edges in
  fst <$> anyCycle (hasCycleUtil (dfsFuel nodes edges) adjacency)
                   (map n_id nodes)
                   {| visited := ∅; recursionStack := ∅ |}.

(** One pass of [neighbors.forEach] in [topologicalSort]. *)
Definition relax (st : gmap string Z * list string) (neighbor : string)
  : gmap string Z * list string :=
  let degree := (default 0 (st.1 !! neighbor) - 1)%Z in
  (<[neighbor := degree]> st.1,
   if bool_decide (degree = 0%Z) then st.2 ++ [neighbor] else st.2).

(** [while (queue.length > 0) { ... }]; [fuel] bounds the iterations. *)
Fixpoint kahnLoop (fuel : nat) (adjacency : gmap string (list string))
    (nodeMap : gmap string WorkflowNode) (inDegree : gmap string Z)
    (queue : list string) (result : list WorkflowNode)
  : option (list WorkflowNode) :=
  match queue with
  | [] => Some result
  | nodeId :: queue' =>
      match fuel with
      | O => None
      | S fuel' =>
          let result' := match nodeMap !! nodeId with
                         | Some node => result ++ [node]
                         | None => result
                         end in
          let neighbors := default [] (adjacency !! nodeId) in
          let st := foldl relax (inDegree, queue') neighbors in
          kahnLoop fuel' adjacency nodeMap st.1 st.2 result'
      end
  end.

Definition initialInDegree (nodes : list WorkflowNode) (edges : list WorkflowEdge)
  : gmap string Z :=
  let inDegree := foldl (λ d node, <[n_id node := 0%Z]> d) ∅ nodes in
  foldl (λ d edge, <[target edge := (default 0 (d !! target edge) + 1)%Z]> d)
        inDegree edges.

Definition initialQueue (nodes : list WorkflowNode) (inDegree : gmap string Z)
  : list string :=
  map n_id (filter (λ node, inDegree !! n_id node = Some 0%Z) nodes).

Definition buildNodeMap (nodes : list WorkflowNode) : gmap string WorkflowNode :=
  foldl (λ m node, <[n_id node := node]> m) ∅ nodes.

Definition kahnFuel (nodes : list WorkflowNode) (edges : list WorkflowEdge) : nat :=
  length nodes + length edges.

(** [topologicalSort]: the outer option is the iteration budget of the
    embedding, the inner one is the JavaScript [null]. *)
Definition topologicalSort (nodes : list WorkflowNode) (edges : list WorkflowEdge)
  : option (option (list WorkflowNode)) :=
  let adjacency := buildAdjacencyList nodes edges in
  let inDegree := initialInDegree nodes edges in
  let queue := initialQueue nodes inDegree in
  let nodeMap := buildNodeMap nodes in
  result ← kahnLoop (kahnFuel nodes edges) adjacency nodeMap inDegree queue [];
  Some (if bool_decide (length result = length nodes) then Some result else None).


(* ===================================================================== *)
(** ** DAG validation ([validateWorkflowDAG]) *)
(* ===================================================================== *)

Record ValidationResult := {
  v_valid : bool;
  v_errors : list string;
  v_warnings : list string
}.

(** [Map.prototype.set] on a map whose iteration order is observed: an
    existing key keeps its position, a new key goes to the end. *)
Fixpoint mapSet {V} (k : string) (v : V) (m : list (string * V)) : list (string * V) :=
  match m with
  | [] => [(k, v)]
  | (k', v') :: rest =>
      if bool_decide (k' = k) then (k, v) :: rest else (k', v') :: mapSet k v rest
  end.

Fixpoint mapGet {V} (k : string) (m : list (string * V)) : option V :=
  match m with
  | [] => None
  | (k', v') :: rest => if bool_decide (k' = k) then Some v' else mapGet k rest
  end.

Definition orphanErrors (nodeIds : gset string) (edge : WorkflowEdge) : list string :=
  (if bool_decide (source edge ∈ nodeIds) then []
   else ["Edge " +:+ e_id edge +:+ " references non-existent source node: "
           +:+ source edge])
  ++
  (if bool_decide (target edge ∈ nodeIds) then []
   else ["Edge " +:+ e_id edge +:+ " references non-existent target node: "
           +:+ target edge]).

Definition isolatedWarning (node : WorkflowNode) : string :=
  "Node " +:+ n_id node +:+ " (" +:+ label (n_data node)
    +:+ ") is not connected to any other nodes".

Definition edgeKey (edge : WorkflowEdge) : string :=
  source edge +:+ "->" +:+ target edge.

Definition duplicateWarning (key : string) : string :=
  "Multiple edges exist between the same nodes: " +:+ key.

Definition cycleError : string :=
  "Workflow contains a cycle - workflows must be acyclic (DAG)".

Definition validateWorkflowDAG (nodes : list WorkflowNode) (edges : list WorkflowEdge)
  : option ValidationResult :=
  hasCycle ← detectCycle nodes edges;
  let errors := if hasCycle : bool then [cycleError] else [] in
  (* orphaned edges *)
  let nodeIds : gset string := list_to_set (map n_id nodes) in
  let errors := errors ++ concat (map (orphanErrors nodeIds) edges) in
  (* isolated nodes *)
  let connectedNodes : gset string :=
    foldl (λ s edge, {[target edge]} ∪ ({[source edge]} ∪ s)) ∅ edges in
  let warnings :=
    map isolatedWarning
        (filter (λ node, (n_id node ∉ connectedNodes) ∧ (1 < length nodes)) nodes) in
  (* multiple edges between the same nodes *)
  let edgeMap : list (string * Z) :=
    foldl (λ m edge,
             let key := edgeKey edge in
             mapSet key (default 0 (mapGet key m) + 1)%Z m)
          [] edges in
  let warnings :=
    warnings ++ map (λ kv, duplicateWarning kv.1)
                    (filter (λ kv : string * Z, (1 < kv.2)%Z) edgeMap) in
  Some {| v_valid := bool_decide (length errors = 0);
          v_errors := errors;
          v_warnings := warnings |}.

(* ===================================================================== *)
(** ** Executor ([src/lib/workflows/executor.ts]) *)
(* ===================================================================== *)

Record ExecutionContext := {
  nodeId : string;
  node : WorkflowNode;
  inputs : gmap string JsValue;
  dependencies : list string
}.

Record ExecutionPlan := {
  plan_nodes : list ExecutionContext;
  valid : bool;
  errors : list string
}.

(** State of the search in [findCycle]: the two sets and the current path. *)
Record FindState := {
  f_visited : gset string;
  f_recursionStack : gset string;
  f_path : list string
}.

(** [for (const x of xs) { const cycle = dfs(x); if (cycle) return cycle; }];
    the inner option is [null] against a found cycle (an array is truthy
    even when empty). *)
Fixpoint firstCycle (visit : string → FindState → option (option (list string) * FindState))
    (xs : list string) (st : FindState) : option (option (list string) * FindState) :=
  match xs with
  | [] => Some (None, st)
  | x :: rest =>
      match visit x st with
      | None => None
      | Some (Some cycle, st') => Some (Some cycle, st')
      | Some (None, st') => firstCycle visit rest st'
      end
  end.

(** The local function [dfs] of [findCycle]. *)
Fixpoint dfs (fuel : nat) (adjacency : gmap string (list string))
    (nodeId : string) (st : FindState) : option (option (list string) * FindState) :=
  match fuel with
  | O => None
  | S fuel' =>
      if bool_decide (nodeId ∈ f_recursionStack st) then
        match indexOf nodeId (f_path st) with
        | Some cycleStart => Some (Some (drop cycleStart (f_path st) ++ [nodeId]), st)
        | None => Some (Some [nodeId], st)
        end
      else if bool_decide (nodeId ∈ f_visited st) then Some (None, st)
      else
        let st1 := {| f_visited := {[nodeId]} ∪ f_visited st;
                      f_recursionStack := {[nodeId]} ∪ f_recursionStack st;
                      f_path := f_path st ++ [nodeId] |} in
        let neighbors := default [] (adjacency !! nodeId) in
        match firstCycle (dfs fuel' adjacency) neighbors st1 with
        | None => None
        | Some (Some cycle, st2) => Some (Some cycle, st2)
        | Some (None, st2) =>
            Some (None, {| f_visited := f_visited st2;
                           f_recursionStack := f_recursionStack st2 ∖ {[nodeId]};
                           f_path := take (length (f_path st2) - 1) (f_path st2) |})
        end
  end.

Definition findCycle (nodes : list WorkflowNode) (edges : list WorkflowEdge)
  : option (list string) :=
  let adjacency := buildAdjacencyList nodes edges in
  r ← firstCycle (dfs (dfsFuel nodes edges) adjacency) (map n_id nodes)
        {| f_visited := ∅; f_recursionStack := ∅; f_path := [] |};
  Some (default [] r.1).

(** [checkForCycles]: [{hasCycle, cycle?}] as a pair. *)
Definition checkForCycles (nodes : list WorkflowNode) (edges : list WorkflowEdge)
  : option (bool * option (list string)) :=
  hasCycle ← detectCycle nodes edges;
  if hasCycle : bool then
    cycle ← findCycle nodes edges;
    Some (true, Some cycle)
  else Some (false, None).

Definition buildDependencyMap (edges : list WorkflowEdge) : gmap string (list string) :=
  foldl (λ dependencyMap edge,
           let deps := default [] (dependencyMap !! target edge) in
           let deps := if bool_decide (source edge ∈ deps) then deps
                       else deps ++ [source edge] in
           <[target edge := deps]> dependencyMap)
        ∅ edges.

Definition sortFailure : string :=
  "Failed to topologically sort nodes (possible cycle)".

(** The message pushed when a cycle is found:
    [`Workflow contains a cycle: ${cycle?.join(' -> ') || 'unknown'}`]. *)
Definition cycleMessage (cycle : option (list string)) : string :=
  let joined := from_option (join " -> ") "" cycle in
  "Workflow contains a cycle: "
    +:+ (if bool_decide (joined = "") then "unknown" else joined).

Definition buildExecutionPlan (workflow : Workflow) : option ExecutionPlan :=
  '(hasCycle, cycle) ← checkForCycles (nodes workflow) (edges workflow);
  if hasCycle : bool then
    Some {| plan_nodes := []; valid := false; errors := [cycleMessage cycle] |}
  else
    sortedNodes ← topologicalSort (nodes workflow) (edges workflow);
    match sortedNodes with
    | None => Some {| plan_nodes := []; valid := false; errors := [sortFailure] |}
    | Some sortedNodes =>
        let dependencyMap := buildDependencyMap (edges workflow) in
        let contexts :=
          map (λ node, {| nodeId := n_id node;
                          node := node;
                          inputs := ∅;
                          dependencies := default [] (dependencyMap !! n_id node) |})
              sortedNodes in
        Some {| plan_nodes := contexts; valid := true; errors := [] |}
    end.

Record NodeOutput := {
  o_nodeId : string;
  o_output : gmap string JsValue
}.

(** JavaScript truthiness of an optional string: [undefined] and the empty
    string are falsy. *)
Definition truthy (s : option string) : option string :=
  match s with
  | Some "" => None
  | other => other
  end.

(** The nullish coalescing [v ?? null] of a property read. *)
Definition orNull (v : option JsValue) : JsValue :=
  match v with
  | None | Some JUndefined | Some JNull => JNull
  | Some v => v
  end.

(** Body of the loop over the incoming edges in [resolveNodeInputs].  An
    output, and the mapping under construction, is given by its own
    properties.  The code reads [output[label]] along the prototype chain
    and writes by assignment, so this is the loop as long as no port label
    is a name that objects inherit from [Object.prototype] and no recorded
    output has an own property [__proto__] (see [plainRecords]); the
    embedding does not cover such names. *)
Definition resolveEdge (completedNodes : list NodeOutput) (ports : list PortDefinition)
    (inputs : gmap string JsValue) (edge : WorkflowEdge) : gmap string JsValue :=
  match List.find (λ n, bool_decide (o_nodeId n = source edge)) completedNodes with
  | Some sourceNode =>
      match truthy (targetPort edge) with
      | Some targetPortId =>
          match List.find (λ p, bool_decide (p_id p = targetPortId)) ports with
          | Some port =>
              match truthy (Some (p_label port)) with
              | Some label => <[label := orNull (o_output sourceNode !! label)]> inputs
              | None => inputs
              end
          | None => inputs
          end
      | None =>
          (* Object.assign(inputs, sourceNode.output) *)
          o_output sourceNode ∪ inputs
      end
  | None => inputs
  end.

Definition resolveNodeInputs (context : ExecutionContext)
    (completedNodes : list NodeOutput) (edges : list WorkflowEdge)
    (ports : list PortDefinition) : gmap string JsValue :=
  let incomingEdges := filter (λ edge, target edge = nodeId context) edges in
  foldl (resolveEdge completedNodes ports) ∅ incomingEdges.


(* ===================================================================== *)
(** ** Run results and events *)
(* ===================================================================== *)

Inductive RunStatus := pending | running | success | error | cancelled.

Record ErrorInfo := {
  message : string;
  code : option string;
  details : option string
}.

Record RunResult := {
  r_nodeId : string;
  r_status : RunStatus;
  r_startedAt : option string;
  r_completedAt : option string;
  r_duration : option Z;
  r_output : option (gmap string JsValue);
  r_error : option ErrorInfo
}.

Record WorkflowExecution := {
  workflowId : string;
  executionId : string;
  x_status : RunStatus;
  results : list RunResult;
  x_startedAt : string;
  x_completedAt : option string
}.

Inductive ExecutionEventType :=
  | EvQueued | EvRunning | EvSucceeded | EvFailed | EvCancelled.

Record ExecutionEvent := {
  ev_nodeId : string;
  ev_status : ExecutionEventType;
  ev_timestamp : string;
  ev_output : option (gmap string JsValue);
  ev_error : option ErrorInfo;
  ev_duration : option Z;
  ev_logs : option (list string)
}.

(** A thrown JavaScript value, as far as the [catch] blocks inspect it: an
    [Error] instance with its message, its [code] property ([None]: no such
    property, [Some None]: present but not a string) and its stack, or any
    other value. *)
Inductive Thrown :=
  | ThrownError (msg : string) (errCode : option (option string)) (stack : option string)
  | ThrownOther.

Record NodeExecutionConfig := {
  c_nodeId : string;
  nodeType : string;
  nodeData : NodeData
}.

(** How the race of [executeWithTimeout] settles. *)
Inductive Settled :=
  | Resolved (out : gmap string JsValue)
  | Rejected (e : Thrown)
  | TimedOut.

(** What a run does to its environment, in order: the calls of [emitEvent]
    (handed to the listener when one is configured) and the executor
    invocations. *)
Inductive Action :=
  | Emitted (ev : ExecutionEvent)
  | Invoked (config : NodeExecutionConfig) (inputs : gmap string JsValue).

(** [generateExecutionId]: [now] is the reading of [Date.now()] and
    [random36] the text of [Math.random().toString(36)]. *)
Definition generateExecutionId (now : N) (random36 : string) : string :=
  "exec-" +:+ pretty now +:+ "-" +:+ String.substring 2 7 random36.

Section Runner.

(** The host environment: whatever the executors and the listener close
    over, together with the clock. *)
Context {World : Type}.

Definition NodeExecutor : Type :=
  NodeExecutionConfig → gmap string JsValue → World → Settled * World.

Definition ExecutionEventListener : Type :=
  ExecutionEvent → World → option Thrown * World.

Record Host := {
  getNodeExecutor : World → string → option NodeExecutor;
  dateNow : World → Z;
  toISOString : Z → string;
  errorStack : string → option string
}.

Record RunnerConfig := {
  timeoutMs : option Z;
  onEvent : option ExecutionEventListener;
  concurrency : option Z
}.

(** The fields of a [WorkflowRunner] fixed by its constructor. *)
Record WorkflowRunner := {
  workflow : Workflow;
  config : RunnerConfig;
  runnerExecutionId : string
}.

(** [new WorkflowRunner(workflow, config)]. *)
Definition newRunner (workflow : Workflow) (config : RunnerConfig)
    (now : N) (random36 : string) : WorkflowRunner :=
  {| workflow := workflow;
     config := {| timeoutMs := match timeoutMs config with
                               | Some t => Some t
                               | None => Some 30000%Z
                               end;
                  onEvent := onEvent config;
                  concurrency := match concurrency config with
                                 | Some c => Some c
                                 | None => Some 1%Z
                                 end |};
     runnerExecutionId := generateExecutionId now random36 |}.

Definition getExecutionId (r : WorkflowRunner) : string := runnerExecutionId r.

(** The mutable fields of a runner, the host, and the log of actions. *)
Record RunnerState := {
  world : World;
  completedNodes : list NodeOutput;
  resultsMap : list (string * RunResult);
  logs : list (string * list string);
  trace : list Action
}.

Definition freshState (w : World) : RunnerState :=
  {| world := w; completedNodes := []; resultsMap := []; logs := []; trace := [] |}.

Inductive Completion (A : Type) :=
  | Normal (a : A)
  | Abrupt (e : Thrown).
Arguments Normal {A} a.
Arguments Abrupt {A} e.

(** Computations of the runner: state passing with exceptions. *)
Definition M (A : Type) : Type := RunnerState → Completion A * RunnerState.

Definition ret {A} (a : A) : M A := λ s, (Normal a, s).
Definition throw {A} (e : Thrown) : M A := λ s, (Abrupt e, s).
Definition bind {A B} (c : M A) (k : A → M B) : M B :=
  λ s, match c s with
       | (Normal a, s') => k a s'
       | (Abrupt e, s') => (Abrupt e, s')
       end.
Definition tryCatch {A} (body : M A) (handler : Thrown → M A) : M A :=
  λ s, match body s with
       | (Normal a, s') => (Normal a, s')
       | (Abrupt e, s') => handler e s'
       end.
Definition gets {A} (f : RunnerState → A) : M A := λ s, (Normal (f s), s).
Definition modify (f : RunnerState → RunnerState) : M unit := λ s, (Normal tt, f s).

Notation "x <- c1 ;; c2" := (bind c1 (λ x, c2))
  (at level 100, c1 at next level, right associativity).
Notation "c1 ;; c2" := (bind c1 (λ _, c2))
  (at level 100, right associativity).

Definition setWorld (w : World) (s : RunnerState) : RunnerState :=
  {| world := w; completedNodes := completedNodes s; resultsMap := resultsMap s;
     logs := logs s; trace := trace s |}.
Definition pushCompleted (o : NodeOutput) (s : RunnerState) : RunnerState :=
  {| world := world s; completedNodes := completedNodes s ++ [o];
     resultsMap := resultsMap s; logs := logs s; trace := trace s |}.
Definition setResult (k : string) (r : RunResult) (s : RunnerState) : RunnerState :=
  {| world := world s; completedNodes := completedNodes s;
     resultsMap := mapSet k r (resultsMap s); logs := logs s; trace := trace s |}.
Definition record (a : Action) (s : RunnerState) : RunnerState :=
  {| world := world s; completedNodes := completedNodes s; resultsMap := resultsMap s;
     logs := logs s; trace := trace s ++ [a] |}.

Variable host : Host.
Variable runner : WorkflowRunner.

(** [new Date().toISOString()] and [Date.now()]. *)
Definition nowISO : M string := gets (λ s, toISOString host (dateNow host (world s))).
Definition nowMs : M Z := gets (λ s, dateNow host (world s)).

(** [emitEvent]. *)
Definition emitEvent (event : ExecutionEvent) : M unit :=
  modify (record (Emitted event)) ;;
  match onEvent (config runner) with
  | Some listener =>
      λ s, let '(thrown, w) := listener event (world s) in
           (match thrown with Some e => Abrupt e | None => Normal tt end, setWorld w s)
  | None => ret tt
  end.

(** [addLog]. *)
Definition addLog (nodeId : string) (line : string) : M unit :=
  modify (λ s,
    let logs0 := match mapGet nodeId (logs s) with
                 | Some _ => logs s
                 | None => mapSet nodeId [] (logs s)
                 end in
    {| world := world s; completedNodes := completedNodes s; resultsMap := resultsMap s;
       logs := mapSet nodeId (default [] (mapGet nodeId logs0) ++ [line]) logs0;
       trace := trace s |}).

Definition timeoutMessage (ms : Z) : string :=
  "Execution timeout after " +:+ pretty ms +:+ "ms".

(** [new Error(message)] as the catch blocks see it. *)
Definition newError (msg : string) : Thrown :=
  ThrownError msg None (errorStack host msg).

(** [executeWithTimeout]: the executor is started and raced against the
    timer; the host decides which of the two settles first. *)
Definition executeWithTimeout (executor : NodeExecutor) (cfg : NodeExecutionConfig)
    (inputs : gmap string JsValue) : M (gmap string JsValue) :=
  let timeout := match timeoutMs (config runner) with
                 | Some 0%Z | None => 30000%Z
                 | Some t => t
                 end in
  modify (record (Invoked cfg inputs)) ;;
  λ s, let '(settled, w) := executor cfg inputs (world s) in
       (match settled with
        | Resolved out => Normal out
        | Rejected e => Abrupt e
        | TimedOut => Abrupt (newError (timeoutMessage timeout))
        end, setWorld w s).

Definition errorMessageOf (e : Thrown) : string :=
  match e with
  | ThrownError msg _ _ => msg
  | ThrownOther => "Unknown error"
  end.

Definition errorCodeOf (e : Thrown) : string :=
  match e with
  | ThrownError _ (Some (Some c)) _ => c
  | _ => "EXECUTION_ERROR"
  end.

Definition errorStackOf (e : Thrown) : option string :=
  match e with
  | ThrownError _ _ stack => stack
  | ThrownOther => None
  end.

Definition mkEvent (nodeId : string) (status : ExecutionEventType) (timestamp : string)
  : ExecutionEvent :=
  {| ev_nodeId := nodeId; ev_status := status; ev_timestamp := timestamp;
     ev_output := None; ev_error := None; ev_duration := None; ev_logs := None |}.

Definition pendingResult (nodeId : string) (startedAt : option string) : RunResult :=
  {| r_nodeId := nodeId; r_status := pending; r_startedAt := startedAt;
     r_completedAt := None; r_duration := None; r_output := None; r_error := None |}.

(** The [try] block of [executeNode]. *)
Definition executeNodeTry (nodeId : string) (context : ExecutionContext)
    (node : WorkflowNode) (startedAt : string) (startTime : Z) : M unit :=
  ts <- nowISO ;;
  emitEvent (mkEvent nodeId EvQueued ts) ;;
  currentResult <- gets (λ s,
    default (pendingResult nodeId None) (mapGet nodeId (resultsMap s))) ;;
  modify (setResult nodeId
    {| r_nodeId := r_nodeId currentResult; r_status := running;
       r_startedAt := Some startedAt;
       r_completedAt := r_completedAt currentResult;
       r_duration := r_duration currentResult;
       r_output := r_output currentResult;
       r_error := r_error currentResult |}) ;;
  ts <- nowISO ;;
  emitEvent (mkEvent nodeId EvRunning ts) ;;
  inputs <- gets (λ s,
    resolveNodeInputs context (completedNodes s)
      (edges (workflow runner)) (ports (workflow runner))) ;;
  found <- gets (λ s, getNodeExecutor host (world s) (n_type node)) ;;
  executor <- match found with
              | Some executor => ret executor
              | None => throw (newError
                  ("No executor registered for node type: " +:+ n_type node))
              end ;;
  out <- executeWithTimeout executor
           {| c_nodeId := nodeId; nodeType := n_type node;
              nodeData := n_data node |} inputs ;;
  completedAt <- nowISO ;;
  finish <- nowMs ;;
  let duration := (finish - startTime)%Z in
  modify (pushCompleted {| o_nodeId := nodeId; o_output := out |}) ;;
  modify (setResult nodeId
    {| r_nodeId := nodeId; r_status := success; r_startedAt := Some startedAt;
       r_completedAt := Some completedAt; r_duration := Some duration;
       r_output := Some out; r_error := None |}) ;;
  nodeLogs <- gets (λ s, default [] (mapGet nodeId (logs s))) ;;
  emitEvent {| ev_nodeId := nodeId; ev_status := EvSucceeded;
               ev_timestamp := completedAt; ev_output := Some out;
               ev_error := None; ev_duration := Some duration;
               ev_logs := Some nodeLogs |}.

(** The [catch] block of [executeNode]. *)
Definition executeNodeCatch (nodeId : string) (startedAt : string) (startTime : Z)
    (err : Thrown) : M unit :=
  completedAt <- nowISO ;;
  finish <- nowMs ;;
  let duration := (finish - startTime)%Z in
  let errorMessage := errorMessageOf err in
  let errorCode := errorCodeOf err in
  modify (setResult nodeId
    {| r_nodeId := nodeId; r_status := error; r_startedAt := Some startedAt;
       r_completedAt := Some completedAt; r_duration := Some duration;
       r_output := None;
       r_error := Some {| message := errorMessage; code := Some errorCode;
                          details := errorStackOf err |} |}) ;;
  nodeLogs <- gets (λ s, default [] (mapGet nodeId (logs s))) ;;
  emitEvent {| ev_nodeId := nodeId; ev_status := EvFailed;
               ev_timestamp := completedAt; ev_output := None;
               ev_error := Some {| message := errorMessage;
                                   code := Some errorCode; details := None |};
               ev_duration := Some duration; ev_logs := Some nodeLogs |} ;;
  addLog nodeId ("Error: " +:+ errorMessage).

(** [executeNode]. *)
Definition executeNode (nodeId : string) (context : ExecutionContext) : M unit :=
  match List.find (λ n, bool_decide (n_id n = nodeId)) (nodes (workflow runner)) with
  | None => ret tt
  | Some node =>
      startedAt <- nowISO ;;
      startTime <- nowMs ;;
      tryCatch (executeNodeTry nodeId context node startedAt startTime)
               (executeNodeCatch nodeId startedAt startTime)
  end.

(** [for (const x of xs) { await body(x); }]. *)
Fixpoint forEachM {A} (body : A → M unit) (xs : list A) : M unit :=
  match xs with
  | [] => ret tt
  | x :: rest => body x ;; forEachM body rest
  end.

(** The synthetic result built for the [index]-th planning error. *)
Definition planErrorResult (startedAt completedAt : string) (index : nat) (err : string)
  : RunResult :=
  {| r_nodeId := "error-" +:+ pretty index; r_status := error;
     r_startedAt := Some startedAt; r_completedAt := Some completedAt;
     r_duration := None; r_output := None;
     r_error := Some {| message := err; code := Some "PLAN_ERROR"; details := None |} |}.

Definition runnerErrorResult (startedAt completedAt : string) (err : Thrown) : RunResult :=
  {| r_nodeId := "runner"; r_status := error;
     r_startedAt := Some startedAt; r_completedAt := Some completedAt;
     r_duration := None; r_output := None;
     r_error := Some {| message := errorMessageOf err; code := Some "RUNNER_ERROR";
                        details := None |} |}.

Definition isError (r : RunResult) : bool :=
  match r_status r with error => true | _ => false end.

(** The [try] block of [run], after the plan has been computed. *)
Definition orchestrate (plan : ExecutionPlan) (startedAt : string) : M WorkflowExecution :=
  if valid plan then
    forEachM (λ context,
                modify (setResult (nodeId context)
                          (pendingResult (nodeId context) (Some startedAt))))
             (plan_nodes plan) ;;
    forEachM (λ context, executeNode (nodeId context) context) (plan_nodes plan) ;;
    values <- gets (λ s, map snd (resultsMap s)) ;;
    let hasErrors := existsb isError values in
    let status := if hasErrors then error else success in
    completedAt <- nowISO ;;
    ret {| workflowId := m_id (metadata (workflow runner));
           executionId := runnerExecutionId runner;
           x_status := status;
           results := values;
           x_startedAt := startedAt;
           x_completedAt := Some completedAt |}
  else
    completedAt <- nowISO ;;
    ret {| workflowId := m_id (metadata (workflow runner));
           executionId := runnerExecutionId runner;
           x_status := error;
           results := imap (planErrorResult startedAt completedAt) (errors plan);
           x_startedAt := startedAt;
           x_completedAt := Some completedAt |}.

(** The [catch] block of [run]. *)
Definition runnerFailure (startedAt : string) (err : Thrown) : M WorkflowExecution :=
  completedAt <- nowISO ;;
  ret {| workflowId := m_id (metadata (workflow runner));
         executionId := runnerExecutionId runner;
         x_status := error;
         results := [runnerErrorResult startedAt completedAt err];
         x_startedAt := startedAt;
         x_completedAt := Some completedAt |}.

(** [run]: [None] only if planning exhausts the budget of the embedding
    ([buildExecutionPlan_total] shows that it never does). *)
Definition run (s : RunnerState) : option (Completion WorkflowExecution * RunnerState) :=
  plan ← buildExecutionPlan (workflow runner);
  Some ((startedAt <- nowISO ;;
         tryCatch (orchestrate plan startedAt) (runnerFailure startedAt)) s).

End Runner.

Arguments Normal {A} a.
Arguments Abrupt {A} e.

(* ===================================================================== *)
(** ** Vocabulary of the specification, and examples *)
(* ===================================================================== *)

(** [edgeRel edges u v]: some edge of the array goes from [u] to [v]. *)
Definition edgeRel (edges : list WorkflowEdge) (u v : string) : Prop :=
  ∃ e, e ∈ edges ∧ source e = u ∧ target e = v.

(** A cycle is a non-empty path of edges from an id back to itself; a
    self-loop is the path of length one. *)
Definition onCycle (edges : list WorkflowEdge) (x : string) : Prop :=
  tc (edgeRel edges) x x.

Definition acyclic (edges : list WorkflowEdge) : Prop :=
  ∀ x, ¬ onCycle edges x.

(** Targets of the edges leaving [x], in edge-array order. *)
Definition successors (edges : list WorkflowEdge) (x : string) : list string :=
  map target (filter (λ e, source e = x) edges).

(** [u] occurs strictly before [v] in [order]. *)
Definition before (u v : string) (order : list string) : Prop :=
  ∃ i j, order !! i = Some u ∧ order !! j = Some v ∧ i < j.

(** The ids a search over [nodes] and [edges] can reach. *)
Definition reachableIds (nodes : list WorkflowNode) (edges : list WorkflowEdge)
  : gset string :=
  list_to_set (map n_id nodes ++ map target edges).

(** [inDegree.get(y) || 0]. *)
Definition degree (d : gmap string Z) (y : string) : Z := default 0%Z (d !! y).

(** Number of edges entering [y]. *)
Definition inDegreeOf (edges : list WorkflowEdge) (y : string) : nat :=
  length (filter (λ e, target e = y) edges).

(** Ids whose recorded in-degree is still positive. *)
Definition positive (d : gmap string Z) : gset string :=
  dom (filter (λ kv : string * Z, (1 ≤ kv.2)%Z) d).

(** Number of occurrences of [y] in a neighbour list. *)
Definition occurrences (ns : list string) (y : string) : nat :=
  length (filter (λ z, z = y) ns).

(** Number of edges from [x] to [y]. *)
Definition multiplicity (edges : list WorkflowEdge) (x y : string) : nat :=
  length (filter (λ e, source e = x ∧ target e = y) edges).

(** Number of edges entering [y] whose source is not among [processed]. *)
Definition remaining (edges : list WorkflowEdge) (processed : list string) (y : string)
  : nat :=
  length (filter (λ e, target e = y ∧ source e ∉ processed) edges).

(** [walk edges x l z]: a non-empty path from [x] to [z]; [l] lists every
    id on it but the last one. *)
Inductive walk (edges : list WorkflowEdge) : string → list string → string → Prop :=
  | walk_one x z : edgeRel edges x z → walk edges x [x] z
  | walk_cons x y l z :
      edgeRel edges x y → walk edges y l z → walk edges x (x :: l) z.

(** Ids with no incoming edge, in node-array order. *)
Definition rootIds (nodes : list WorkflowNode) (edges : list WorkflowEdge) : list string :=
  filter (λ y, y ∉ map target edges) (map n_id nodes).

(** [ready edges p y]: every edge into [y] starts at an id of [p]. *)
Definition ready (edges : list WorkflowEdge) (p : list string) (y : string) : Prop :=
  ∀ e, e ∈ edges → target e = y → source e ∈ p.

(** [lastBefore ns a b]: some occurrence of [b] in [ns] comes after every
    occurrence of [a]. *)
Definition lastBefore (ns : list string) (a b : string) : Prop :=
  ∃ i, ns !! i = Some b ∧ ∀ j, ns !! j = Some a → j < i.

(** [releasedBy edges order u a]: [u] is the dependency of [a] that
    [order] places last. *)
Definition releasedBy (edges : list WorkflowEdge) (order : list string) (u a : string)
  : Prop :=
  edgeRel edges u a ∧ ∀ s, edgeRel edges s a → s = u ∨ before s u order.

(** Node ids of a plan, in execution order. *)
Definition planOrder (plan : ExecutionPlan) : list string :=
  map nodeId (plan_nodes plan).

(** The events of a trace, as (node id, status) pairs. *)
Definition eventsOf (t : list Action) : list (string * ExecutionEventType) :=
  omap (λ a, match a with
             | Emitted ev => Some (ev_nodeId ev, ev_status ev)
             | Invoked _ _ => None
             end) t.

(** The ids of the nodes whose executor was invoked. *)
Definition invocationsOf (t : list Action) : list string :=
  omap (λ a, match a with
             | Invoked cfg _ => Some (c_nodeId cfg)
             | Emitted _ => None
             end) t.

(** The listener, if any, returns normally from every call. *)
Definition quietListener {World} (cfg : @RunnerConfig World) : Prop :=
  ∀ listener, onEvent cfg = Some listener → ∀ ev w, (listener ev w).1 = None.

(** The listener, if any, returns normally when handed a [failed] event. *)
Definition listenerAcceptsFailures {World} (cfg : @RunnerConfig World) : Prop :=
  ∀ listener, onEvent cfg = Some listener →
    ∀ ev w, ev_status ev = EvFailed → (listener ev w).1 = None.

(** The listener, if any, returns normally when handed a [queued] or a
    [succeeded] event. *)
Definition listenerAcceptsProgress {World} (cfg : @RunnerConfig World) : Prop :=
  ∀ listener, onEvent cfg = Some listener →
    ∀ ev w, ev_status ev = EvQueued ∨ ev_status ev = EvSucceeded →
            (listener ev w).1 = None.

Definition terminal (st : RunStatus) : Prop := st = success ∨ st = error.

(** The node ids for which [queued] was emitted, in order. *)
Definition attemptedIds (t : list Action) : list string :=
  omap (λ e : string * ExecutionEventType,
          match e.2 with EvQueued => Some e.1 | _ => None end) (eventsOf t).

(** The events of a node that is attempted and ends with [last]. *)
Definition nodeEvents (nodeId : string) (last : ExecutionEventType)
  : list (string * ExecutionEventType) :=
  [(nodeId, EvQueued); (nodeId, EvRunning); (nodeId, last)].

Definition notCancelled (e : string * ExecutionEventType) : Prop := e.2 ≠ EvCancelled.

(** Number of edges with a given key [source->target]. *)
Definition keyCount (edges : list WorkflowEdge) (key : string) : nat :=
  length (filter (λ e, edgeKey e = key) edges).

(** The recorded output of a node, if any: the first entry for its id. *)
Definition recordedOutput (completedNodes : list NodeOutput) (nodeId : string)
  : option NodeOutput :=
  List.find (λ n, bool_decide (o_nodeId n = nodeId)) completedNodes.

(** The port a target-port id names, if any. *)
Definition portOf (ports : list PortDefinition) (portId : string)
  : option PortDefinition :=
  List.find (λ p, bool_decide (p_id p = portId)) ports.

(** The property names a plain object inherits from [Object.prototype]. *)
Definition inheritedNames : list string :=
  ["constructor"; "__proto__"; "hasOwnProperty"; "isPrototypeOf";
   "propertyIsEnumerable"; "toLocaleString"; "toString"; "valueOf";
   "__defineGetter__"; "__defineSetter__"; "__lookupGetter__";
   "__lookupSetter__"].

(** Outputs and port labels for which reading and writing a property
    only ever touches own properties: no recorded output has an own
    property [__proto__], and no port label is an inherited name. *)
Definition plainRecords (completedNodes : list NodeOutput) (ports : list PortDefinition)
  : Prop :=
  Forall (λ o, o_output o !! "__proto__" = None) completedNodes ∧
  Forall (λ p, p_label p ∉ inheritedNames) ports.

(** The output records of the two-source example. *)
Definition firstOutput : NodeOutput :=
  {| o_nodeId := "A"; o_output := {["value1" := JStr "first"]} |}.

Definition secondOutput : NodeOutput :=
  {| o_nodeId := "B"; o_output := {["value2" := JStr "second"]} |}.

Definition joinContext (n : WorkflowNode) : ExecutionContext :=
  {| nodeId := n_id n; node := n; inputs := ∅; dependencies := ["A"; "B"] |}.

(** An edge scoped to the target port [portId]. *)
Definition scopedEdge (s t portId : string) : WorkflowEdge :=
  {| e_id := s +:+ "->" +:+ t; source := s; target := t;
     sourcePort := None; targetPort := Some portId; e_label := None |}.

Definition inputPort (portId nodeId label : string) : PortDefinition :=
  {| p_id := portId; p_nodeId := nodeId; p_type := input; p_label := label;
     dataType := "string"; required := None |}.

(** No character of the string is the dash that separates the parts of an
    execution id. *)
Fixpoint dashFree (s : string) : Prop :=
  match s with
  | EmptyString => True
  | String c rest => c ≠ "-"%char ∧ dashFree rest
  end.

(** A workflow without nodes and a configuration without options. *)
Definition emptyWorkflow : Workflow :=
  {| metadata := {| m_id := "test-workflow"; m_name := "Test Workflow";
                    m_version := "1.0.0"; createdAt := ""; updatedAt := "" |};
     nodes := []; edges := []; ports := [] |}.

Definition defaultConfig : @RunnerConfig unit :=
  {| timeoutMs := None; onEvent := None; concurrency := None |}.

Definition exampleNode (i type : string) : WorkflowNode :=
  {| n_id := i; n_type := type;
     n_data := {| label := "Node " +:+ i; fields := ∅ |} |}.

Definition exampleEdge (s t : string) : WorkflowEdge :=
  {| e_id := s +:+ "->" +:+ t; source := s; target := t;
     sourcePort := None; targetPort := None; e_label := None |}.

Definition exampleWorkflow (ns : list WorkflowNode) (es : list WorkflowEdge) : Workflow :=
  {| metadata := {| m_id := "test-workflow"; m_name := "Test Workflow";
                    m_version := "1.0.0"; createdAt := ""; updatedAt := "" |};
     nodes := ns; edges := es; ports := [] |}.

(** A diamond: A feeds B and C, which both feed D. *)
Definition diamondWorkflow : Workflow :=
  exampleWorkflow
    [exampleNode "A" "text"; exampleNode "B" "text";
     exampleNode "C" "text"; exampleNode "D" "text"]
    [exampleEdge "A" "B"; exampleEdge "A" "C"; exampleEdge "B" "D"; exampleEdge "C" "D"].

(** Two branches of one root, listed against the node order: the edge to
    C comes before the edge to B. *)
Definition branchWorkflow : Workflow :=
  exampleWorkflow
    [exampleNode "A" "text"; exampleNode "B" "text"; exampleNode "C" "text"]
    [exampleEdge "A" "C"; exampleEdge "A" "B"].

(** An edge chain through an id [X] that names no node. *)
Definition danglingChainWorkflow : Workflow :=
  exampleWorkflow
    [exampleNode "A" "text"; exampleNode "B" "text"]
    [exampleEdge "A" "X"; exampleEdge "X" "B"].

(** An edge from an id that names no node and is reached by no edge. *)
Definition danglingSourceWorkflow : Workflow :=
  exampleWorkflow
    [exampleNode "A" "text"; exampleNode "B" "text"]
    [exampleEdge "X" "B"].

(** An edge to an id that names no node. *)
Definition danglingTargetWorkflow : Workflow :=
  exampleWorkflow
    [exampleNode "A" "text"; exampleNode "B" "text"]
    [exampleEdge "A" "Y"].

Definition selfLoopWorkflow : Workflow :=
  exampleWorkflow [exampleNode "A" "text"] [exampleEdge "A" "A"].

(** The data-model invariants of a workflow graph: node ids are unique and
    every edge joins two existing nodes. *)
Definition wellFormed (workflow : Workflow) : Prop :=
  NoDup (map n_id (nodes workflow)) ∧
  ∀ e, e ∈ edges workflow →
       source e ∈ map n_id (nodes workflow) ∧ target e ∈ map n_id (nodes workflow).

(** The tie-break rule read literally: of two nodes with the same
    predecessors, the one that comes first in the node array is planned
    first. *)
Definition tiesByNodePosition (workflow : Workflow) (order : list string) : Prop :=
  ∀ a b,
    before a b (map n_id (nodes workflow)) →
    (∀ s, edgeRel (edges workflow) s a ↔ edgeRel (edges workflow) s b) →
    before a b order.

(** A host whose world is a clock tick counter: a [text] executor that
    passes its inputs through with the node's label, a [failing] executor
    that rejects, and a [slow] executor that loses the race against the
    timer; every call advances the clock. *)
Definition exampleExecutors (type : string) : option (@NodeExecutor nat) :=
  if bool_decide (type = "text") then
    Some (λ cfg inputs w,
            (Resolved (inputs ∪ {["label" := JStr (label (nodeData cfg))]}), S w))
  else if bool_decide (type = "failing") then
    Some (λ _ _ w, (Rejected (ThrownError "Deliberate test error" None None), S w))
  else if bool_decide (type = "slow") then
    Some (λ _ _ w, (TimedOut, S w))
  else None.

Definition exampleHost : @Host nat :=
  {| getNodeExecutor := λ _ type, exampleExecutors type;
     dateNow := Z.of_nat;
     toISOString := pretty;
     errorStack := λ _, None |}.

Definition sameEventType (a b : ExecutionEventType) : bool :=
  match a, b with
  | EvQueued, EvQueued | EvRunning, EvRunning | EvSucceeded, EvSucceeded
  | EvFailed, EvFailed | EvCancelled, EvCancelled => true
  | _, _ => false
  end.

(** A listener that raises when handed an event of the given status. *)
Definition throwingOn (status : ExecutionEventType) : @ExecutionEventListener nat :=
  λ ev w, (if sameEventType (ev_status ev) status
           then Some (ThrownError "listener failed" None None)
           else None, w).

Definition exampleRunner (workflow : Workflow)
    (listener : option (@ExecutionEventListener nat)) : @WorkflowRunner nat :=
  newRunner workflow
    {| timeoutMs := None; onEvent := listener; concurrency := None |}
    1730000000000%N "0.k3j9x2m1q".

(** A fails, B depends on A and succeeds. *)
Definition failingFirstWorkflow : Workflow :=
  exampleWorkflow [exampleNode "A" "failing"; exampleNode "B" "text"]
                  [exampleEdge "A" "B"].

Definition singleNodeWorkflow : Workflow :=
  exampleWorkflow [exampleNode "A" "text"] [].

(* ===================================================================== *)
(** ** Further helpers of the executor and of the schema module *)
(* ===================================================================== *)

(** [getNodeDependencies] and [getNodeDependents] of
    [src/lib/workflows/executor.ts]. *)
Definition getNodeDependencies (nodeId : string) (edges : list WorkflowEdge)
  : list string :=
  map source (filter (λ edge, target edge = nodeId) edges).

Definition getNodeDependents (nodeId : string) (edges : list WorkflowEdge)
  : list string :=
  map target (filter (λ edge, source edge = nodeId) edges).

(** [getNodeEdges]: [{incoming, outgoing}] as a pair. *)
Definition getNodeEdges (nodeId : string) (edges : list WorkflowEdge)
  : list WorkflowEdge * list WorkflowEdge :=
  (filter (λ edge, target edge = nodeId) edges,
   filter (λ edge, source edge = nodeId) edges).

#[global] Instance PortType_eq_dec : EqDecision PortType.
Proof. solve_decision. Defined.

(** [getNodePorts]: [{inputs, outputs}] as a pair. *)
Definition getNodePorts (nodeId : string) (ports : list PortDefinition)
  : list PortDefinition * list PortDefinition :=
  let nodePorts := filter (λ port, p_nodeId port = nodeId) ports in
  (filter (λ port, p_type port = input) nodePorts,
   filter (λ port, p_type port = output) nodePorts).

Definition getInboundPorts (nodeId : string) (ports : list PortDefinition)
  : list PortDefinition :=
  filter (λ port, p_nodeId port = nodeId ∧ p_type port = input) ports.

Definition getOutboundPorts (nodeId : string) (ports : list PortDefinition)
  : list PortDefinition :=
  filter (λ port, p_nodeId port = nodeId ∧ p_type port = output) ports.

(** [generateId] of the schema module: like [generateExecutionId], from
    the reading of [Date.now()] and the text of
    [Math.random().toString(36)]. *)
Definition generateId (now : N) (random36 : string) : string :=
  pretty now +:+ "-" +:+ String.substring 2 7 random36.

(** [createEdge]. *)
Definition createEdge (now : N) (random36 : string) (sourceId targetId : string)
    (sourcePort targetPort label : option string) : WorkflowEdge :=
  {| e_id := generateId now random36;
     source := sourceId;
     target := targetId;
     sourcePort := sourcePort;
     targetPort := targetPort;
     e_label := label |}.

(** [createPort]; the parameter [required] defaults to [false]. *)
Definition createPort (now : N) (random36 : string) (nodeId : string)
    (type : PortType) (label dataType : string) (required : option bool)
  : PortDefinition :=
  {| p_id := generateId now random36;
     p_nodeId := nodeId;
     p_type := type;
     p_label := label;
     dataType := dataType;
     required := Some (default false required) |}.

(* ===================================================================== *)
(** ** Node registry ([lib/nodes/registry]) *)
(* ===================================================================== *)

(** JavaScript truthiness of a value. *)
Definition jsTruthy (v : JsValue) : bool :=
  match v with
  | JUndefined | JNull => false
  | JBool b => b
  | JNum n => negb (n =? 0)%Z
  | JStr s => negb (s =? "")%string
  | JObject _ => true
  end.

(** [v || fallback] for a property read [v] ([None]: no such property). *)
Definition orElse (v : option JsValue) (fallback : JsValue) : JsValue :=
  match v with
  | Some v => if jsTruthy v then v else fallback
  | None => fallback
  end.

(** A property read that is stored as it is: [undefined] when absent. *)
Definition orUndefined (v : option JsValue) : JsValue := default JUndefined v.

(** [nodeData.label || fallback]. *)
Definition labelOr (nodeData : NodeData) (fallback : string) : JsValue :=
  JStr (if (label nodeData =? "")%string then fallback else label nodeData).

(** The bodies of the three built-in executors: an object literal with
    the fields of the node, over which the inputs are spread. *)
Definition textOutput (config : NodeExecutionConfig) (inputs : gmap string JsValue)
  : gmap string JsValue :=
  inputs ∪
  <["content" := orElse (fields (nodeData config) !! "content") (JStr "")]>
  (<["label" := labelOr (nodeData config) "Text Node"]> ∅).

Definition imageOutput (config : NodeExecutionConfig) (inputs : gmap string JsValue)
  : gmap string JsValue :=
  inputs ∪
  <["url" := orElse (fields (nodeData config) !! "url") (JStr "")]>
  (<["alt" := orElse (fields (nodeData config) !! "alt") (JStr "")]>
  (<["width" := orUndefined (fields (nodeData config) !! "width")]>
  (<["height" := orUndefined (fields (nodeData config) !! "height")]>
  (<["label" := labelOr (nodeData config) "Image Node"]> ∅)))).

Definition videoOutput (config : NodeExecutionConfig) (inputs : gmap string JsValue)
  : gmap string JsValue :=
  inputs ∪
  <["url" := orElse (fields (nodeData config) !! "url") (JStr "")]>
  (<["format" := orElse (fields (nodeData config) !! "format") (JStr "mp4")]>
  (<["duration" := orUndefined (fields (nodeData config) !! "duration")]>
  (<["label" := labelOr (nodeData config) "Video Node"]> ∅))).

Module Registry.
Section Registry.

Context {World : Type}.

Record RegisteredNode := {
  type : string;
  executor : @NodeExecutor World;
  description : option string
}.

(** The module-level [nodeRegistry], a [Map] in insertion order. *)
Definition NodeRegistry : Type := list (string * RegisteredNode).

Definition registerNode (nodeType : string) (executor : @NodeExecutor World)
    (description : option string) (nodeRegistry : NodeRegistry) : NodeRegistry :=
  mapSet nodeType
    {| type := nodeType; executor := executor; description := description |}
    nodeRegistry.

Definition getNodeExecutor (nodeType : string) (nodeRegistry : NodeRegistry)
  : option (@NodeExecutor World) :=
  executor <$> mapGet nodeType nodeRegistry.

Definition isNodeTypeRegistered (nodeType : string) (nodeRegistry : NodeRegistry)
  : bool :=
  bool_decide (is_Some (mapGet nodeType nodeRegistry)).

Definition getRegisteredNodeTypes (nodeRegistry : NodeRegistry) : list string :=
  map fst nodeRegistry.



End Registry.
End Registry.


(** [createRunner] and [runWorkflow]: a new runner, run once. *)
Definition createRunner {World} (workflow : Workflow) (config : option (@RunnerConfig World))
    (now : N) (random36 : string) : @WorkflowRunner World :=
  newRunner workflow
    (default {| timeoutMs := None; onEvent := None; concurrency := None |} config)
    now random36.

Definition runWorkflow {World} (host : @Host World) (workflow : Workflow)
    (config : option (@RunnerConfig World)) (now : N) (random36 : string) (w : World)
  : option (Completion WorkflowExecution * @RunnerState World) :=
  run host (createRunner workflow config now random36) (freshState w).

(* ===================================================================== *)
(** ** Rate limiting of the execution route ([checkRateLimit]) *)
(* ===================================================================== *)

Module RateLimit.

Record Entry := {
  count : Z;
  resetTime : Z
}.

Record Verdict := {
  allowed : bool;
  remaining : Z
}.

Definition RATE_LIMIT_WINDOW : Z := 60000.
Definition RATE_LIMIT_MAX_REQUESTS : Z := 100.

(** The property names every plain object inherits from
    [Object.prototype]; the store is a plain object, and a read of one of
    these names does not see an entry. *)
Definition inheritedKeys : list string :=
  ["constructor"; "__proto__"; "hasOwnProperty"; "isPrototypeOf";
   "propertyIsEnumerable"; "toLocaleString"; "toString"; "valueOf";
   "__defineGetter__"; "__defineSetter__"; "__lookupGetter__";
   "__lookupSetter__"].

(** [checkRateLimit], with [now] the reading of [Date.now()] and the
    module-level [rateLimitStore] passed through, for identifiers outside
    [inheritedKeys]. *)
Definition checkRateLimit (now : Z) (identifier : string) (store : gmap string Entry)
  : Verdict * gmap string Entry :=
  let restart :=
    ({| allowed := true; remaining := (RATE_LIMIT_MAX_REQUESTS - 1)%Z |},
     <[identifier := {| count := 1; resetTime := (now + RATE_LIMIT_WINDOW)%Z |}]> store) in
  match store !! identifier with
  | None => restart
  | Some limitData =>
      if bool_decide (resetTime limitData < now)%Z then restart
      else if bool_decide (RATE_LIMIT_MAX_REQUESTS ≤ count limitData)%Z then
        ({| allowed := false; remaining := 0 |}, store)
      else
        let limitData' := {| count := (count limitData + 1)%Z;
                             resetTime := resetTime limitData |} in
        ({| allowed := true;
            remaining := (RATE_LIMIT_MAX_REQUESTS - count limitData')%Z |},
         <[identifier := limitData']> store)
  end.

(** The verdicts of a series of requests of one client, each with the
    clock reading at which it arrives. *)
Fixpoint checkAll (times : list Z) (identifier : string) (store : gmap string Entry)
  : list Verdict * gmap string Entry :=
  match times with
  | [] => ([], store)
  | now :: rest =>
      let '(verdict, store') := checkRateLimit now identifier store in
      let '(verdicts, store'') := checkAll rest identifier store' in
      (verdict :: verdicts, store'')
  end.

End RateLimit.

(* ===================================================================== *)
(** ** Builder state ([src/hooks/useWorkflowBuilder.ts]) *)
(* ===================================================================== *)

Record WorkflowBuilderState := {
  b_workflow : option Workflow;
  b_nodes : list WorkflowNode;
  b_edges : list WorkflowEdge;
  b_ports : list PortDefinition;
  selectedNodeIds : gset string;
  selectedEdgeIds : gset string;
  isDirty : bool
}.

Definition initialState : WorkflowBuilderState :=
  {| b_workflow := None; b_nodes := []; b_edges := []; b_ports := [];
     selectedNodeIds := ∅; selectedEdgeIds := ∅; isDirty := false |}.

(** The state updates of the builder actions, each the function handed to
    [setState]. *)
Definition removeNode (nodeId : string) (prev : WorkflowBuilderState)
  : WorkflowBuilderState :=
  {| b_workflow := b_workflow prev;
     b_nodes := filter (λ n, n_id n ≠ nodeId) (b_nodes prev);
     b_edges := filter (λ e, source e ≠ nodeId ∧ target e ≠ nodeId) (b_edges prev);
     b_ports := filter (λ p, p_nodeId p ≠ nodeId) (b_ports prev);
     selectedNodeIds := selectedNodeIds prev ∖ {[nodeId]};
     selectedEdgeIds := selectedEdgeIds prev;
     isDirty := true |}.

Definition removeEdge (edgeId : string) (prev : WorkflowBuilderState)
  : WorkflowBuilderState :=
  {| b_workflow := b_workflow prev;
     b_nodes := b_nodes prev;
     b_edges := filter (λ e, e_id e ≠ edgeId) (b_edges prev);
     b_ports := b_ports prev;
     selectedNodeIds := selectedNodeIds prev;
     selectedEdgeIds := selectedEdgeIds prev ∖ {[edgeId]};
     isDirty := true |}.

Definition addPort (now : N) (random36 : string) (nodeId : string) (type : PortType)
    (label dataType : string) (prev : WorkflowBuilderState)
  : PortDefinition * WorkflowBuilderState :=
  let port := createPort now random36 nodeId type label dataType None in
  (port,
   {| b_workflow := b_workflow prev;
      b_nodes := b_nodes prev;
      b_edges := b_edges prev;
      b_ports := b_ports prev ++ [port];
      selectedNodeIds := selectedNodeIds prev;
      selectedEdgeIds := selectedEdgeIds prev;
      isDirty := true |}).

Definition removePort (portId : string) (prev : WorkflowBuilderState)
  : WorkflowBuilderState :=
  {| b_workflow := b_workflow prev;
     b_nodes := b_nodes prev;
     b_edges := filter (λ e, sourcePort e ≠ Some portId ∧ targetPort e ≠ Some portId)
                       (b_edges prev);
     b_ports := filter (λ p, p_id p ≠ portId) (b_ports prev);
     selectedNodeIds := selectedNodeIds prev;
     selectedEdgeIds := selectedEdgeIds prev;
     isDirty := true |}.

(** [addEdge]: the guard reads the state the action was created for, the
    update appends to the state it is applied to; the two are the same
    state here.  [createEdge] is called twice, once for the trial edge and
    once for the edge that is kept, each with its own clock reading and
    random draw.  The outer option is the recursion budget of
    [validateWorkflowDAG]. *)
Definition addEdge (now1 : N) (random1 : string) (now2 : N) (random2 : string)
    (sourceId targetId : string) (sourcePort targetPort : option string)
    (state : WorkflowBuilderState)
  : option (option WorkflowEdge * WorkflowBuilderState) :=
  let exists_ :=
    existsb (λ e, bool_decide (source e = sourceId ∧ target e = targetId))
            (b_edges state) in
  if exists_ then Some (None, state)
  else
    let tempEdges :=
      b_edges state
      ++ [createEdge now1 random1 sourceId targetId sourcePort targetPort None] in
    validation ← validateWorkflowDAG (b_nodes state) tempEdges;
    if v_valid validation then
      let edge := createEdge now2 random2 sourceId targetId sourcePort targetPort None in
      Some (Some edge,
            {| b_workflow := b_workflow state;
               b_nodes := b_nodes state;
               b_edges := b_edges state ++ [edge];
               b_ports := b_ports state;
               selectedNodeIds := selectedNodeIds state;
               selectedEdgeIds := selectedEdgeIds state;
               isDirty := true |})
    else Some (None, state).

(** [newSelection]: a copy of the previous selection when [multi], an
    empty set otherwise, in which the id is toggled. *)
Definition toggle (id : string) (selection : gset string) : gset string :=
  if bool_decide (id ∈ selection) then selection ∖ {[id]} else {[id]} ∪ selection.

Definition selectNode (nodeId : string) (multi : bool) (prev : WorkflowBuilderState)
  : WorkflowBuilderState :=
  {| b_workflow := b_workflow prev;
     b_nodes := b_nodes prev;
     b_edges := b_edges prev;
     b_ports := b_ports prev;
     selectedNodeIds := toggle nodeId (if multi then selectedNodeIds prev else ∅);
     selectedEdgeIds := if multi then selectedEdgeIds prev else ∅;
     isDirty := isDirty prev |}.

Definition selectEdge (edgeId : string) (multi : bool) (prev : WorkflowBuilderState)
  : WorkflowBuilderState :=
  {| b_workflow := b_workflow prev;
     b_nodes := b_nodes prev;
     b_edges := b_edges prev;
     b_ports := b_ports prev;
     selectedNodeIds := if multi then selectedNodeIds prev else ∅;
     selectedEdgeIds := toggle edgeId (if multi then selectedEdgeIds prev else ∅);
     isDirty := isDirty prev |}.

Definition clearSelection (prev : WorkflowBuilderState) : WorkflowBuilderState :=
  {| b_workflow := b_workflow prev;
     b_nodes := b_nodes prev;
     b_edges := b_edges prev;
     b_ports := b_ports prev;
     selectedNodeIds := ∅;
     selectedEdgeIds := ∅;
     isDirty := isDirty prev |}.

Definition deleteSelected (prev : WorkflowBuilderState) : WorkflowBuilderState :=
  let nodeIds := selectedNodeIds prev in
  let edgeIds := selectedEdgeIds prev in
  {| b_workflow := b_workflow prev;
     b_nodes := filter (λ n, n_id n ∉ nodeIds) (b_nodes prev);
     b_edges := filter (λ e, e_id e ∉ edgeIds ∧ source e ∉ nodeIds ∧ target e ∉ nodeIds)
                       (b_edges prev);
     b_ports := filter (λ p, p_nodeId p ∉ nodeIds) (b_ports prev);
     selectedNodeIds := ∅;
     selectedEdgeIds := ∅;
     isDirty := true |}.

(** [validate]: the validator on the current nodes and edges. *)
Definition validate (state : WorkflowBuilderState) : option ValidationResult :=
  validateWorkflowDAG (b_nodes state) (b_edges state).

(* ===================================================================== *)
(** ** Further vocabulary *)
(* ===================================================================== *)

(** Consecutive ids of the list are joined by edges. *)
Fixpoint chain (edges : list WorkflowEdge) (l : list string) : Prop :=
  match l with
  | x :: rest =>
      match rest with
      | y :: _ => edgeRel edges x y ∧ chain edges rest
      | [] => True
      end
  | [] => True
  end.

(** A cycle written as the code reports it: the ids along the edges, no
    id twice, closed by a repetition of the first id. *)
Definition closedWalk (edges : list WorkflowEdge) (cycle : list string) : Prop :=
  ∃ x mid, cycle = x :: mid ++ [x] ∧ NoDup (x :: mid) ∧ chain edges cycle.

(** The state of [findCycle]'s search without its path: the state of
    [detectCycle]'s search. *)
Definition forgetPath (st : FindState) : DfsState :=
  {| visited := f_visited st; recursionStack := f_recursionStack st |}.

(** The executor invocations of a trace, each with the configuration and
    the inputs it was given. *)
Definition invocationArgs (t : list Action)
  : list (NodeExecutionConfig * gmap string JsValue) :=
  omap (λ a, match a with
             | Invoked cfg inputs => Some (cfg, inputs)
             | Emitted _ => None
             end) t.


(** The error record of a node that failed with the exception [e]. *)
Definition failedWith (r : RunResult) (e : Thrown) : Prop :=
  r_status r = error ∧ r_output r = None ∧
  r_error r = Some {| message := errorMessageOf e;
                      code := Some (errorCodeOf e);
                      details := errorStackOf e |}.

(** The result record of a node that succeeded with the output [out]. *)
Definition succeededWith (r : RunResult) (out : gmap string JsValue) : Prop :=
  r_status r = success ∧ r_output r = Some out ∧ r_error r = None.

(** The timeout a runner applies: the configured one, 30000 ms when it
    is absent or zero. *)
Definition effectiveTimeout {World} (config : @RunnerConfig World) : Z :=
  match timeoutMs config with
  | Some 0%Z | None => 30000%Z
  | Some t => t
  end.

(** The output record that goes with the result filed under [k], if the
    result carries an output. *)
Definition recordedBy (m : list (string * RunResult)) (k : string) : option NodeOutput :=
  r ← mapGet k m;
  out ← r_output r;
  Some {| o_nodeId := k; o_output := out |}.





(* ===================================================================== *)
(** ** Further examples *)
(* ===================================================================== *)

(** A node of a type without an executor, and a node whose executor loses
    against the timer. *)
Definition unknownTypeWorkflow : Workflow :=
  exampleWorkflow [exampleNode "A" "unknown"] [].





(** The builder with the diamond loaded and its root selected. *)
Definition diamondBuilder : WorkflowBuilderState :=
  {| b_workflow := Some diamondWorkflow;
     b_nodes := nodes diamondWorkflow;
     b_edges := edges diamondWorkflow;
     b_ports := [];
     selectedNodeIds := {["A"]};
     selectedEdgeIds := ∅;
     isDirty := false |}.

(* ===================================================================== *)
(** ** Proofs *)
(* ===================================================================== *)

(* ===================================================================== *)
(** ** The graph of a workflow *)
(* ===================================================================== *)

Lemma elem_of_successors edges x z :
  z ∈ successors edges x ↔ edgeRel edges x z.
Proof.
  unfold successors, edgeRel. rewrite list_elem_of_fmap. split.
  - intros (e & -> & He). apply list_elem_of_filter in He as [Hs He]. eauto.
  - intros (e & He & Hs & Ht). exists e. split; [done|].
    apply list_elem_of_filter. done.
Qed.

Lemma adjacency_nodes_empty (nodes : list WorkflowNode) :
  ∀ adj : gmap string (list string),
    (∀ x, default [] (adj !! x) = []) →
    ∀ x, default [] (foldl (λ adj node, <[n_id node := []]> adj) adj nodes !! x) = [].
Proof.
  induction nodes as [|n nodes IH]; intros adj Hadj x; simpl; [apply Hadj|].
  apply IH. intros y. destruct (decide (n_id n = y)) as [->|Hne].
  - by rewrite lookup_insert_eq.
  - rewrite lookup_insert_ne; [apply Hadj | done].
Qed.

Lemma adjacency_edges (edges : list WorkflowEdge) :
  ∀ (adj : gmap string (list string)) x,
    default [] (foldl (λ adj edge,
                   let neighbors := default [] (adj !! source edge) in
                   <[source edge := neighbors ++ [target edge]]> adj) adj edges !! x)
    = default [] (adj !! x) ++ successors edges x.
Proof.
  induction edges as [|e edges IH]; intros adj x; simpl.
  - unfold successors. simpl. by rewrite app_nil_r.
  - rewrite IH. unfold successors. rewrite filter_cons.
    destruct (decide (source e = x)) as [->|Hne].
    + rewrite lookup_insert_eq. simpl. by rewrite <- app_assoc.
    + rewrite lookup_insert_ne by done. done.
Qed.

(** [adjacency.get(x) || []] is the list of successors of [x]. *)
Lemma buildAdjacencyList_lookup nodes edges x :
  default [] (buildAdjacencyList nodes edges !! x) = successors edges x.
Proof.
  unfold buildAdjacencyList. rewrite adjacency_edges.
  rewrite adjacency_nodes_empty; [done|]. intros y. by rewrite lookup_empty.
Qed.

Lemma size_list_to_set_le (l : list string) :
  size (list_to_set l : gset string) ≤ length l.
Proof.
  induction l as [|x l IH]; simpl.
  - done.
  - rewrite size_union_alt, size_singleton.
    assert (Hle : size ((list_to_set l : gset string) ∖ {[x]})
                  ≤ size (list_to_set l : gset string)).
    { apply subseteq_size. set_solver. }
    lia.
Qed.

(* ===================================================================== *)
(** ** Depth-first cycle detection *)
(* ===================================================================== *)

Section DepthFirst.

Variable edges : list WorkflowEdge.

Local Abbreviation R := (edgeRel edges).

(** Ids that are visited and no longer on the recursion stack: their
    successors are finished as well and they lie on no cycle. *)
Definition finishedOK (st : DfsState) : Prop :=
  ∀ y, y ∈ visited st → y ∉ recursionStack st →
    (∀ z, R y z → z ∈ visited st ∧ z ∉ recursionStack st) ∧ ¬ onCycle edges y.

(** Contract of one call [visit(x)] made with the recursion stack [S]. *)
Definition visitOK (visit : string → DfsState → option (bool * DfsState))
    (S : gset string) (x : string) : Prop :=
  ∀ st, recursionStack st = S → S ⊆ visited st → finishedOK st →
    ∃ b st', visit x st = Some (b, st') ∧
      match b with
      | true => ∃ c, onCycle edges c
      | false => recursionStack st' = S ∧ visited st ⊆ visited st' ∧
                 x ∈ visited st' ∧ x ∉ S ∧ finishedOK st'
      end.

Lemma anyCycle_spec visit S xs :
  (∀ x, x ∈ xs → visitOK visit S x) →
  ∀ st, recursionStack st = S → S ⊆ visited st → finishedOK st →
    ∃ b st', anyCycle visit xs st = Some (b, st') ∧
      match b with
      | true => ∃ c, onCycle edges c
      | false => recursionStack st' = S ∧ visited st ⊆ visited st' ∧
                 (∀ x, x ∈ xs → x ∈ visited st' ∧ x ∉ S) ∧ finishedOK st'
      end.
Proof.
  induction xs as [|x xs IH]; intros Hvisit st HS Hsub Hfin; simpl.
  - exists false, st. split; [done|]. split_and!; [done | done | | done].
    intros y Hy. by apply elem_of_nil in Hy.
  - destruct (Hvisit x (list_elem_of_here _ _) st HS Hsub Hfin)
      as (b & st1 & -> & Hpost).
    destruct b.
    + exists true, st1. done.
    + destruct Hpost as (HS1 & Hgrow & Hx & HxS & Hfin1).
      destruct (IH (λ y Hy, Hvisit y (list_elem_of_further _ _ _ Hy)) st1 HS1)
        as (b & st2 & -> & Hpost2); [by etrans | done |].
      exists b, st2. split; [done|]. destruct b; [done|].
      destruct Hpost2 as (HS2 & Hgrow2 & Hall & Hfin2).
      split_and!; [done | by etrans | | done].
      intros y Hy. apply elem_of_cons in Hy as [->|Hy]; [|by apply Hall].
      split; [by apply Hgrow2 | done].
Qed.

(** A finished id only reaches finished ids. *)
Lemma finished_closed st y z :
  finishedOK st → y ∈ visited st → y ∉ recursionStack st → rtc R y z →
  z ∈ visited st ∧ z ∉ recursionStack st.
Proof.
  intros Hfin Hy HyS Hyz. induction Hyz as [|y w z Hyw _ IH]; [done|].
  destruct (Hfin y Hy HyS) as [Hsucc _]. destruct (Hsucc w Hyw). by apply IH.
Qed.

Variable adjacency : gmap string (list string).
Hypothesis adjacency_lookup :
  ∀ x, default [] (adjacency !! x) = successors edges x.

(** The ids the search can ever reach. *)
Variable universe : gset string.
Hypothesis universe_closed : ∀ x z, edgeRel edges x z → z ∈ universe.

Lemma hasCycleUtil_spec fuel :
  ∀ x S, x ∈ universe → S ⊆ universe → size universe < fuel + size S →
    (∀ s, s ∈ S → tc R s x) →
    visitOK (hasCycleUtil fuel adjacency) S x.
Proof.
  induction fuel as [|fuel IH]; intros x S Hx HSU Hfuel Hreach st HS Hsub Hfin.
  { apply subseteq_size in HSU. lia. }
  simpl. rewrite HS.
  case_bool_decide as HxS.
  { exists true, st. split; [done|]. exists x. by apply Hreach. }
  case_bool_decide as HxV.
  { exists false, st. by rewrite HS. }
  rewrite adjacency_lookup.
  set (st1 := {| visited := {[x]} ∪ visited st; recursionStack := {[x]} ∪ S |}).
  destruct (anyCycle_spec (hasCycleUtil fuel adjacency) ({[x]} ∪ S)
              (successors edges x)) with (st := st1)
    as (b & st2 & -> & Hpost).
  - intros z Hz. apply elem_of_successors in Hz.
    apply IH.
    + by eapply universe_closed.
    + set_solver.
    + rewrite size_union, size_singleton by set_solver. lia.
    + intros s Hs. apply elem_of_union in Hs as [Hs|Hs].
      * apply elem_of_singleton in Hs as ->. by apply tc_once.
      * eapply tc_r; [by apply Hreach | done].
  - done.
  - simpl. set_solver.
  - intros y Hy HyS. simpl in *.
    assert (y ∈ visited st ∧ y ∉ S) as [HyV HyS'] by set_solver.
    rewrite <- HS in HyS'. destruct (Hfin y HyV HyS') as [Hsucc Hno].
    split; [|done]. intros z Hyz. destruct (Hsucc z Hyz) as [HzV HzS].
    rewrite HS in HzS. split; [set_solver|].
    intros Hz. apply elem_of_union in Hz as [Hz|Hz]; [|done].
    apply elem_of_singleton in Hz as ->. done.
  - destruct b.
    + exists true, st2. done.
    + destruct Hpost as (HS2 & Hgrow & Hall & Hfin2). simpl in Hgrow.
      eexists false, _. split; [done|]. simpl. rewrite HS2.
      split_and!.
      * set_solver.
      * set_solver.
      * set_solver.
      * done.
      * intros y Hy HyS. simpl in *.
        assert (Hstack : ({[x]} ∪ S) ∖ {[x]} = S) by set_solver.
        rewrite Hstack in HyS.
        assert (Hsuccx : ∀ z, R x z → z ∈ visited st2 ∧ z ∉ recursionStack st2).
        { intros z Hz. apply elem_of_successors in Hz.
          destruct (Hall z Hz) as [? ?]. by rewrite HS2. }
        destruct (decide (y = x)) as [->|Hne].
        -- split.
           ++ intros z Hz. destruct (Hsuccx z Hz) as [? HzS].
              rewrite HS2 in HzS. rewrite Hstack. set_solver.
           ++ intros Hcyc. unfold onCycle in Hcyc.
              assert (∃ z, R x z ∧ rtc R z x) as (z & Hxz & Hzx).
              { inversion Hcyc as [? ? Hxx|? z ? Hxz Hzx]; subst.
                - exists x. split; [done | apply rtc_refl].
                - exists z. split; [done | by apply tc_rtc]. }
              destruct (Hsuccx z Hxz) as [HzV HzS].
              destruct (finished_closed st2 z x Hfin2 HzV HzS Hzx) as [_ Habs].
              rewrite HS2 in Habs. set_solver.
        -- assert (HyS2 : y ∉ recursionStack st2) by (rewrite HS2; set_solver).
           destruct (Hfin2 y Hy HyS2) as [Hsucc Hno]. split; [|done].
           intros z Hz. destruct (Hsucc z Hz) as [? HzS]. rewrite HS2 in HzS.
           rewrite Hstack. set_solver.
Qed.

(** Contract of [dfs] in [findCycle], as far as termination goes. *)
Definition findOK (visit : string → FindState → option (option (list string) * FindState))
    (S : gset string) (x : string) : Prop :=
  ∀ st, f_recursionStack st = S →
    ∃ r st', visit x st = Some (r, st') ∧ (r = None → f_recursionStack st' = S).

Lemma firstCycle_spec visit S xs :
  (∀ x, x ∈ xs → findOK visit S x) →
  ∀ st, f_recursionStack st = S →
    ∃ r st', firstCycle visit xs st = Some (r, st') ∧
             (r = None → f_recursionStack st' = S).
Proof.
  induction xs as [|x xs IH]; intros Hvisit st HS; simpl.
  - by exists None, st.
  - destruct (Hvisit x (list_elem_of_here _ _) st HS) as (r & st1 & -> & Hpost).
    destruct r as [cycle|].
    + by exists (Some cycle), st1.
    + apply IH; [|by apply Hpost].
      intros y Hy. apply Hvisit. by apply list_elem_of_further.
Qed.

Lemma dfs_spec fuel :
  ∀ x S, x ∈ universe → S ⊆ universe → size universe < fuel + size S →
    findOK (dfs fuel adjacency) S x.
Proof.
  induction fuel as [|fuel IH]; intros x S Hx HSU Hfuel st HS.
  { apply subseteq_size in HSU. lia. }
  simpl. rewrite HS.
  case_bool_decide as HxS.
  { destruct (indexOf x (f_path st)); eexists _, st; by split. }
  case_bool_decide as HxV.
  { by exists None, st. }
  rewrite adjacency_lookup.
  set (st1 := {| f_visited := {[x]} ∪ f_visited st;
                 f_recursionStack := {[x]} ∪ S;
                 f_path := f_path st ++ [x] |}).
  destruct (firstCycle_spec (dfs fuel adjacency) ({[x]} ∪ S)
              (successors edges x)) with (st := st1)
    as (r & st2 & -> & Hpost).
  - intros z Hz. apply elem_of_successors in Hz. apply IH.
    + by eapply universe_closed.
    + set_solver.
    + rewrite size_union, size_singleton by set_solver. lia.
  - done.
  - destruct r as [cycle|].
    + by exists (Some cycle), st2.
    + eexists None, _. split; [done|]. intros _. simpl.
      rewrite Hpost by done. set_solver.
Qed.

End DepthFirst.

Lemma reachableIds_closed nodes edges x z :
  edgeRel edges x z → z ∈ reachableIds nodes edges.
Proof.
  intros (e & He & _ & <-). unfold reachableIds.
  apply elem_of_list_to_set, elem_of_app. right.
  apply list_elem_of_fmap. eauto.
Qed.

Lemma reachableIds_node nodes edges x :
  x ∈ map n_id nodes → x ∈ reachableIds nodes edges.
Proof.
  intros Hx. unfold reachableIds. apply elem_of_list_to_set, elem_of_app. by left.
Qed.

Lemma reachableIds_size nodes edges :
  size (reachableIds nodes edges) < dfsFuel nodes edges.
Proof.
  unfold reachableIds, dfsFuel.
  pose proof (size_list_to_set_le (map n_id nodes ++ map target edges)) as Hle.
  rewrite length_app, !length_map in Hle. lia.
Qed.

Lemma finishedOK_initial edges :
  finishedOK edges {| visited := ∅; recursionStack := ∅ |}.
Proof. intros y Hy. simpl in Hy. set_solver. Qed.

(** What [detectCycle] computes: it always returns; [true] is only returned
    when some id lies on a cycle, and [false] only when no node does. *)
Lemma detectCycle_spec nodes edges :
  ∃ b, detectCycle nodes edges = Some b ∧
       match b with
       | true => ∃ c, onCycle edges c
       | false => ∀ x, x ∈ map n_id nodes → ¬ onCycle edges x
       end.
Proof.
  unfold detectCycle.
  destruct (anyCycle_spec edges
              (hasCycleUtil (dfsFuel nodes edges) (buildAdjacencyList nodes edges))
              ∅ (map n_id nodes))
    with (st := {| visited := ∅; recursionStack := ∅ |})
    as (b & st' & -> & Hpost).
  - intros x Hx.
    apply (hasCycleUtil_spec edges _ (buildAdjacencyList_lookup nodes edges)
             (reachableIds nodes edges) (reachableIds_closed nodes edges)).
    + by apply reachableIds_node.
    + set_solver.
    + pose proof (reachableIds_size nodes edges). lia.
    + set_solver.
  - done.
  - done.
  - apply finishedOK_initial.
  - exists b. split; [done|]. destruct b; [done|].
    destruct Hpost as (HS & _ & Hall & Hfin).
    intros x Hx. destruct (Hall x Hx) as [HxV _].
    apply (Hfin x HxV). rewrite HS. set_solver.
Qed.

Lemma detectCycle_total nodes edges : is_Some (detectCycle nodes edges).
Proof. destruct (detectCycle_spec nodes edges) as (b & -> & _). eauto. Qed.

Lemma detectCycle_acyclic nodes edges :
  acyclic edges → detectCycle nodes edges = Some false.
Proof.
  intros Hacyc. destruct (detectCycle_spec nodes edges) as (b & -> & Hb).
  destruct b; [|done]. destruct Hb as [c Hc]. by destruct (Hacyc c).
Qed.

Lemma detectCycle_cycle nodes edges x :
  x ∈ map n_id nodes → onCycle edges x → detectCycle nodes edges = Some true.
Proof.
  intros Hx Hcyc. destruct (detectCycle_spec nodes edges) as (b & -> & Hb).
  destruct b; [done|]. by destruct (Hb x Hx).
Qed.

Lemma findCycle_total nodes edges : is_Some (findCycle nodes edges).
Proof.
  unfold findCycle.
  destruct (firstCycle_spec
              (dfs (dfsFuel nodes edges) (buildAdjacencyList nodes edges))
              ∅ (map n_id nodes))
    with (st := {| f_visited := ∅; f_recursionStack := ∅; f_path := [] |})
    as (r & st' & -> & _).
  - intros x Hx.
    apply (dfs_spec edges _ (buildAdjacencyList_lookup nodes edges)
             (reachableIds nodes edges) (reachableIds_closed nodes edges)).
    + by apply reachableIds_node.
    + set_solver.
    + pose proof (reachableIds_size nodes edges). lia.
  - done.
  - simpl. eauto.
Qed.

Lemma checkForCycles_spec nodes edges :
  ∃ b cycle, checkForCycles nodes edges = Some (b, cycle) ∧
             detectCycle nodes edges = Some b.
Proof.
  unfold checkForCycles.
  destruct (detectCycle_total nodes edges) as [b ->]. simpl.
  destruct b.
  - destruct (findCycle_total nodes edges) as [c ->]. simpl. eauto.
  - eauto.
Qed.

(* ===================================================================== *)
(** ** Topological sort: termination *)
(* ===================================================================== *)

Lemma elem_of_positive d y : y ∈ positive d ↔ (1 ≤ degree d y)%Z.
Proof.
  unfold positive, degree. rewrite elem_of_dom. split.
  - intros [v Hv]. apply map_lookup_filter_Some in Hv as [-> Hv]. done.
  - intros Hy. destruct (d !! y) as [v|] eqn:Hlook; simpl in Hy; [|lia].
    exists v. apply map_lookup_filter_Some. done.
Qed.

Lemma degree_insert d y z v :
  degree (<[z := v]> d) y = if decide (z = y) then v else degree d y.
Proof.
  unfold degree. destruct (decide (z = y)) as [->|Hne].
  - by rewrite lookup_insert_eq.
  - by rewrite lookup_insert_ne.
Qed.

Lemma relax_measure z d q :
  length (relax (d, q) z).2 + size (positive (relax (d, q) z).1)
  ≤ length q + size (positive d).
Proof.
  unfold relax. simpl. fold (degree d z).
  case_bool_decide as Hzero.
  - assert (Hpos : positive d = {[z]} ∪ positive (<[z := (degree d z - 1)%Z]> d)).
    { apply set_eq. intros y. rewrite elem_of_union, elem_of_singleton.
      rewrite !elem_of_positive, degree_insert.
      destruct (decide (z = y)) as [->|?]; [split; [by left | lia] | naive_solver]. }
    rewrite Hpos, size_union, size_singleton, length_app; [simpl; lia|].
    apply disjoint_singleton_l. rewrite elem_of_positive, degree_insert.
    rewrite decide_True by done. lia.
  - assert (Hsub : positive (<[z := (degree d z - 1)%Z]> d) ⊆ positive d).
    { intros y. rewrite !elem_of_positive, degree_insert.
      destruct (decide (z = y)) as [->|?]; lia. }
    apply subseteq_size in Hsub. lia.
Qed.

Lemma foldl_relax_measure ns :
  ∀ d q, length (foldl relax (d, q) ns).2 + size (positive (foldl relax (d, q) ns).1)
         ≤ length q + size (positive d).
Proof.
  induction ns as [|z ns IH]; intros d q; simpl; [done|].
  pose proof (relax_measure z d q) as Hstep.
  destruct (relax (d, q) z) as [d1 q1] eqn:Hr. simpl in Hstep.
  etrans; [apply IH | done].
Qed.

Lemma kahnLoop_total adjacency nodeMap fuel :
  ∀ d q result, length q + size (positive d) ≤ fuel →
    is_Some (kahnLoop fuel adjacency nodeMap d q result).
Proof.
  induction fuel as [|fuel IH]; intros d q result Hfuel.
  - destruct q; simpl in *; [eauto | lia].
  - destruct q as [|x q]; simpl; [eauto|].
    apply IH.
    pose proof (foldl_relax_measure (default [] (adjacency !! x)) d q).
    simpl in Hfuel. lia.
Qed.

Lemma inDegree_nodes (nodes : list WorkflowNode) y :
  ∀ d : gmap string Z,
    foldl (λ d node, <[n_id node := 0%Z]> d) d nodes !! y
    = if decide (y ∈ map n_id nodes) then Some 0%Z else d !! y.
Proof.
  induction nodes as [|n nodes IH]; intros d; simpl; [done|].
  rewrite IH. destruct (decide (y ∈ map n_id nodes)) as [Hin|Hnin].
  - rewrite decide_True; [done | by apply list_elem_of_further].
  - destruct (decide (n_id n = y)) as [<-|Hne].
    + rewrite lookup_insert_eq, decide_True; [done | apply list_elem_of_here].
    + rewrite lookup_insert_ne by done. rewrite decide_False; [done|].
      intros Hin. apply elem_of_cons in Hin as [?|?]; congruence.
Qed.

Lemma inDegree_edges (edges : list WorkflowEdge) y :
  ∀ d : gmap string Z,
    let d' := foldl (λ d edge,
                <[target edge := (default 0 (d !! target edge) + 1)%Z]> d) d edges in
    degree d' y = (degree d y + Z.of_nat (inDegreeOf edges y))%Z ∧
    (is_Some (d !! y) → is_Some (d' !! y)).
Proof.
  unfold inDegreeOf.
  induction edges as [|e edges IH]; intros d; simpl.
  - split; [lia | done].
  - destruct (IH (<[target e := (default 0 (d !! target e) + 1)%Z]> d)) as [Hdeg Hsome].
    rewrite Hdeg, degree_insert, filter_cons. split.
    + destruct (decide (target e = y)) as [->|Hne]; simpl; unfold degree; lia.
    + intros Hy. apply Hsome. rewrite lookup_insert_is_Some. 
      destruct (decide (target e = y)); auto.
Qed.

Lemma degree_initial nodes edges y :
  degree (initialInDegree nodes edges) y = Z.of_nat (inDegreeOf edges y).
Proof.
  unfold initialInDegree.
  destruct (inDegree_edges edges y
              (foldl (λ d node, <[n_id node := 0%Z]> d) ∅ nodes)) as [-> _].
  unfold degree at 1. rewrite inDegree_nodes, lookup_empty.
  destruct (decide (y ∈ map n_id nodes)); simpl; lia.
Qed.

Lemma lookup_initial_node nodes edges y :
  y ∈ map n_id nodes →
  initialInDegree nodes edges !! y = Some (Z.of_nat (inDegreeOf edges y)).
Proof.
  intros Hy. pose proof (degree_initial nodes edges y) as Hdeg.
  unfold initialInDegree in *.
  destruct (inDegree_edges edges y
              (foldl (λ d node, <[n_id node := 0%Z]> d) ∅ nodes)) as [_ Hsome].
  destruct Hsome as [v Hv].
  { rewrite inDegree_nodes, decide_True by done. eauto. }
  unfold degree in Hdeg. rewrite Hv in Hdeg |- *. simpl in Hdeg. by rewrite Hdeg.
Qed.

Lemma positive_initial nodes edges :
  size (positive (initialInDegree nodes edges)) ≤ length edges.
Proof.
  pose proof (size_list_to_set_le (map target edges)) as Hle.
  rewrite length_map in Hle. etrans; [|exact Hle].
  apply subseteq_size. intros y Hy.
  apply elem_of_positive in Hy. rewrite degree_initial in Hy.
  apply elem_of_list_to_set. unfold inDegreeOf in Hy.
  destruct (filter (λ e, target e = y) edges) as [|e l] eqn:Hf; simpl in Hy; [lia|].
  assert (He : e ∈ filter (λ e, target e = y) edges) by (rewrite Hf; apply list_elem_of_here).
  apply list_elem_of_filter in He as [<- He]. apply list_elem_of_fmap. eauto.
Qed.

(** [topologicalSort] always returns: the queue loop ends within the
    budget [kahnFuel] on every node and edge array. *)
Lemma topologicalSort_total nodes edges : is_Some (topologicalSort nodes edges).
Proof.
  unfold topologicalSort.
  destruct (kahnLoop_total (buildAdjacencyList nodes edges) (buildNodeMap nodes)
              (kahnFuel nodes edges) (initialInDegree nodes edges)
              (initialQueue nodes (initialInDegree nodes edges)) []) as [r ->].
  - unfold kahnFuel, initialQueue.
    pose proof (positive_initial nodes edges).
    rewrite length_map.
    pose proof (length_filter (λ node, initialInDegree nodes edges !! n_id node = Some 0%Z) nodes).
    lia.
  - simpl. eauto.
Qed.

(* ===================================================================== *)
(** ** Topological sort: what the queue loop computes *)
(* ===================================================================== *)

Lemma occurrences_successors edges x y :
  occurrences (successors edges x) y = multiplicity edges x y.
Proof.
  unfold occurrences, successors, multiplicity.
  induction edges as [|e edges IH]; [done|].
  rewrite !filter_cons.
  destruct (decide (source e = x)) as [Hs|Hs]; simpl.
  - rewrite filter_cons. destruct (decide (target e = y)) as [Ht|Ht].
    + rewrite decide_True by done. simpl. by rewrite IH.
    + rewrite decide_False by tauto. done.
  - rewrite decide_False by tauto. done.
Qed.

Lemma occurrences_pos ns y : y ∈ ns ↔ 0 < occurrences ns y.
Proof.
  unfold occurrences. split.
  - intros Hy. assert (Hf : y ∈ filter (λ z, z = y) ns) by by apply list_elem_of_filter.
    destruct (filter (λ z, z = y) ns); [by apply elem_of_nil in Hf | simpl; lia].
  - intros Hpos. destruct (filter (λ z, z = y) ns) as [|z l] eqn:Hf; simpl in Hpos; [lia|].
    assert (Hz : z ∈ filter (λ z, z = y) ns) by (rewrite Hf; apply list_elem_of_here).
    apply list_elem_of_filter in Hz as [-> Hz]. done.
Qed.

Lemma remaining_nil edges y : remaining edges [] y = inDegreeOf edges y.
Proof.
  unfold remaining, inDegreeOf. induction edges as [|e edges IH]; [done|].
  rewrite !filter_cons. destruct (decide (target e = y)) as [Ht|Ht].
  - rewrite decide_True; [simpl; f_equal; exact IH|]. split; [done|]. apply not_elem_of_nil.
  - rewrite decide_False by tauto. exact IH.
Qed.

Lemma remaining_snoc edges processed x y :
  x ∉ processed →
  remaining edges (processed ++ [x]) y + multiplicity edges x y
  = remaining edges processed y.
Proof.
  intros Hx. unfold remaining, multiplicity.
  induction edges as [|e edges IH]; [done|].
  rewrite !filter_cons.
  destruct (decide (target e = y)) as [Ht|Ht].
  - destruct (decide (source e = x)) as [Hs|Hs].
    + rewrite (decide_True (P := source e = x ∧ target e = y)) by done.
      rewrite (decide_True (P := target e = y ∧ source e ∉ processed))
        by (split; [done | by rewrite Hs]).
      rewrite decide_False; [simpl; lia|].
      intros [_ Hn]. apply Hn. rewrite Hs. apply elem_of_app. right. apply list_elem_of_here.
    + rewrite (decide_False (P := source e = x ∧ target e = y)) by tauto.
      destruct (decide (source e ∈ processed)) as [Hp|Hp].
      * rewrite !decide_False; [done | tauto |].
        intros [_ Hn]. apply Hn. apply elem_of_app. by left.
      * rewrite !decide_True; [simpl; lia | done |].
        split; [done|]. intros Hin. apply elem_of_app in Hin as [?|Hin]; [done|].
        apply list_elem_of_singleton in Hin. done.
  - rewrite !decide_False by tauto. done.
Qed.

Lemma remaining_zero edges processed y :
  remaining edges processed y = 0 ↔
  ∀ e, e ∈ edges → target e = y → source e ∈ processed.
Proof.
  unfold remaining. split.
  - intros Hz e He Ht. destruct (decide (source e ∈ processed)) as [|Hn]; [done|].
    assert (Hf : e ∈ filter (λ e, target e = y ∧ source e ∉ processed) edges)
      by by apply list_elem_of_filter.
    destruct (filter _ edges); [by apply elem_of_nil in Hf | done].
  - intros Hall.
    destruct (filter (λ e, target e = y ∧ source e ∉ processed) edges) as [|e l] eqn:Hf;
      [done|].
    assert (He : e ∈ filter (λ e, target e = y ∧ source e ∉ processed) edges)
      by (rewrite Hf; apply list_elem_of_here).
    apply list_elem_of_filter in He as [[Ht Hn] He]. destruct Hn. by apply Hall.
Qed.

Lemma multiplicity_le_remaining edges processed x y :
  x ∉ processed → multiplicity edges x y ≤ remaining edges processed y.
Proof. intros Hx. pose proof (remaining_snoc edges processed x y Hx). lia. Qed.

Lemma remaining_prefix edges p processed y :
  p `prefix_of` processed → remaining edges processed y ≤ remaining edges p y.
Proof.
  intros [k ->]. unfold remaining.
  induction edges as [|e edges IH]; [done|].
  rewrite !filter_cons.
  destruct (decide (target e = y ∧ source e ∉ p ++ k)) as [[Ht Hs]|Hn].
  - rewrite decide_True; [simpl; lia|]. split; [done|].
    intros Hin. apply Hs, elem_of_app. by left.
  - destruct (decide (target e = y ∧ source e ∉ p)); simpl; lia.
Qed.

Lemma prefix_snoc_inv (p l : list string) x :
  p `prefix_of` l ++ [x] → p `prefix_of` l ∨ p = l ++ [x].
Proof.
  intros [k Hk]. destruct k as [|a k _] using rev_ind.
  - right. by rewrite app_nil_r in Hk.
  - left. rewrite app_assoc in Hk. apply app_inj_tail in Hk as [-> _].
    by exists k.
Qed.

(** The inner [forEach] over the neighbours, when no in-degree is driven
    below zero: every in-degree drops by the number of occurrences, and the
    ids whose in-degree reaches zero are appended to the queue, once each. *)
Lemma foldl_relax_spec ns :
  ∀ d q,
    (∀ y, y ∈ ns → (Z.of_nat (occurrences ns y) ≤ degree d y)%Z) →
    ∃ pushed,
      (foldl relax (d, q) ns).2 = q ++ pushed ∧
      NoDup pushed ∧
      (∀ y, y ∈ pushed ↔ y ∈ ns ∧ degree d y = Z.of_nat (occurrences ns y)) ∧
      (∀ y, degree (foldl relax (d, q) ns).1 y
            = (degree d y - Z.of_nat (occurrences ns y))%Z).
Proof.
  induction ns as [|z ns IH]; intros d q Hle.
  - exists []. simpl. split_and!.
    + by rewrite app_nil_r.
    + constructor.
    + intros y. split; [intros Hy; by apply elem_of_nil in Hy|].
      intros [Hy _]. by apply elem_of_nil in Hy.
    + intros y. unfold occurrences. simpl. lia.
  - simpl. unfold relax at 2. simpl. fold (degree d z).
    set (d1 := <[z := (degree d z - 1)%Z]> d).
    set (q1 := if bool_decide ((degree d z - 1)%Z = 0%Z) then q ++ [z] else q).
    assert (Hocc : ∀ y, occurrences (z :: ns) y
                        = (if decide (z = y) then 1 else 0) + occurrences ns y).
    { intros y. unfold occurrences. rewrite filter_cons.
      destruct (decide (z = y)); done. }
    assert (Hd1 : ∀ y, degree d1 y
                       = (degree d y - (if decide (z = y) then 1 else 0))%Z).
    { intros y. unfold d1. rewrite degree_insert.
      destruct (decide (z = y)) as [->|?]; lia. }
    destruct (IH d1 q1) as (pushed & Hq & Hnd & Hin & Hdeg).
    { intros y Hy. rewrite Hd1.
      destruct (decide (z = y)) as [->|Hne].
      - specialize (Hle y (list_elem_of_here _ _)). rewrite Hocc in Hle.
        rewrite decide_True in Hle by done. lia.
      - specialize (Hle y (list_elem_of_further _ _ _ Hy)). rewrite Hocc in Hle.
        rewrite decide_False in Hle by done. lia. }
    exists ((if bool_decide ((degree d z - 1)%Z = 0%Z) then [z] else []) ++ pushed).
    split_and!.
    + rewrite Hq. unfold q1. case_bool_decide; simpl; [by rewrite <- app_assoc | done].
    + case_bool_decide as Hz; simpl; [|done]. constructor; [|done].
      rewrite Hin, Hd1, decide_True by done. intros [Hzns Heq].
      apply occurrences_pos in Hzns. lia.
    + intros y. rewrite elem_of_app, Hin, Hd1, Hocc, elem_of_cons.
      destruct (decide (z = y)) as [->|Hne].
      * pose proof (occurrences_pos ns y) as Hpos.
        specialize (Hle y (list_elem_of_here _ _)). rewrite Hocc in Hle.
        rewrite decide_True in Hle by done.
        case_bool_decide as Hz; simpl.
        -- rewrite list_elem_of_singleton. split; [|auto].
           intros _. split; [by left|].
           destruct (decide (y ∈ ns)) as [Hyin|Hyn].
           ++ apply Hpos in Hyin. lia.
           ++ assert (occurrences ns y = 0); [|lia].
              destruct (occurrences ns y) eqn:Ho; [done|].
              destruct Hyn. apply Hpos. lia.
        -- split.
           ++ intros [Hy|[Hy Heq]]; [by apply elem_of_nil in Hy|].
              split; [by left | lia].
           ++ intros [_ Heq]. right. split; [|lia].
              apply Hpos. lia.
      * case_bool_decide as Hz; simpl.
        -- rewrite list_elem_of_singleton.
           split; [intros [?|[? ?]]; [congruence | split; [by right | lia]]|].
           intros [[?|?] ?]; [congruence|]. right. split; [done | lia].
        -- split; [intros [Hy|[? ?]]; [by apply elem_of_nil in Hy | split; [by right | lia]]|].
           intros [[?|?] ?]; [congruence|]. right. split; [done | lia].
    + intros y. rewrite Hdeg, Hd1, Hocc. destruct (decide (z = y)); lia.
Qed.

Lemma lastBefore_irrefl ns a : ¬ lastBefore ns a a.
Proof. intros (i & Hi & Hlast). specialize (Hlast i Hi). lia. Qed.

Lemma lastBefore_target ns a b : lastBefore ns a b → b ∈ ns.
Proof. intros (i & Hi & _). by eapply list_elem_of_lookup_2. Qed.

Lemma lastBefore_cons_inv z ns a b :
  lastBefore (z :: ns) a b → a ∈ ns → lastBefore ns a b.
Proof.
  intros (i & Hi & Hlast) Ha.
  apply list_elem_of_lookup in Ha as [j Hj].
  destruct i as [|i].
  - specialize (Hlast (S j) Hj). lia.
  - exists i. split; [done|]. intros j' Hj'. specialize (Hlast (S j') Hj'). lia.
Qed.

Lemma before_app_inl (l1 l2 : list string) a b :
  before a b l1 → before a b (l1 ++ l2).
Proof.
  intros (i & j & Hi & Hj & Hlt). exists i, j.
  split_and!; [by apply lookup_app_l_Some | by apply lookup_app_l_Some | done].
Qed.

Lemma before_app_inr (l1 l2 : list string) a b :
  before a b l2 → before a b (l1 ++ l2).
Proof.
  intros (i & j & Hi & Hj & Hlt). exists (length l1 + i), (length l1 + j).
  split_and!; [by rewrite lookup_app_r, Nat.add_sub' by lia
              | by rewrite lookup_app_r, Nat.add_sub' by lia | lia].
Qed.

(** The ids pushed by one pass over the neighbours enter the queue in the
    order of their last occurrences among the neighbours. *)
Lemma foldl_relax_order ns :
  ∀ d q pushed,
    (∀ y, y ∈ ns → (Z.of_nat (occurrences ns y) ≤ degree d y)%Z) →
    (foldl relax (d, q) ns).2 = q ++ pushed →
    ∀ a b, a ∈ pushed → b ∈ pushed → lastBefore ns a b → before a b pushed.
Proof.
  induction ns as [|z ns IH]; intros d q pushed Hle Hq a b Ha Hb Hlast.
  - simpl in Hq. rewrite <- (app_nil_r q) in Hq at 1.
    apply app_inv_head in Hq as <-. by apply elem_of_nil in Ha.
  - simpl in Hq. unfold relax at 2 in Hq. simpl in Hq. fold (degree d z) in Hq.
    set (d1 := <[z := (degree d z - 1)%Z]> d) in Hq.
    set (q1 := if bool_decide ((degree d z - 1)%Z = 0%Z) then q ++ [z] else q) in Hq.
    assert (Hocc : ∀ y, occurrences (z :: ns) y
                        = (if decide (z = y) then 1 else 0) + occurrences ns y).
    { intros y. unfold occurrences. rewrite filter_cons.
      destruct (decide (z = y)); done. }
    assert (Hd1 : ∀ y, degree d1 y
                       = (degree d y - (if decide (z = y) then 1 else 0))%Z).
    { intros y. unfold d1. rewrite degree_insert.
      destruct (decide (z = y)) as [->|?]; lia. }
    assert (Hle1 : ∀ y, y ∈ ns → (Z.of_nat (occurrences ns y) ≤ degree d1 y)%Z).
    { intros y Hy. rewrite Hd1.
      specialize (Hle y (list_elem_of_further _ _ _ Hy)). rewrite Hocc in Hle.
      destruct (decide (z = y)); lia. }
    destruct (foldl_relax_spec ns d1 q1 Hle1) as (pushed1 & Hq1 & _ & Hin1 & _).
    assert (Hmem1 : ∀ y, y ∈ pushed1 → y ∈ ns).
    { intros y Hy. by apply Hin1 in Hy as [? _]. }
    rewrite Hq1 in Hq. unfold q1 in Hq. case_bool_decide as Hz.
    + rewrite <- app_assoc in Hq. apply app_inv_head in Hq as <-.
      assert (Hzn : z ∉ ns).
      { intros Hzin. apply occurrences_pos in Hzin.
        specialize (Hle z (list_elem_of_here _ _)). rewrite Hocc in Hle.
        rewrite decide_True in Hle by done. lia. }
      apply elem_of_cons in Ha as [->|Ha]; apply elem_of_cons in Hb as [->|Hb].
      * by apply lastBefore_irrefl in Hlast.
      * apply list_elem_of_lookup in Hb as [k Hk].
        exists 0, (S k). split_and!; [done | done | lia].
      * destruct Hzn. eapply lastBefore_target, lastBefore_cons_inv; [done|]. auto.
      * apply (before_app_inr [z]). apply (IH d1 q1 pushed1 Hle1 Hq1); [done | done |].
        eapply lastBefore_cons_inv; [done|]. auto.
    + apply app_inv_head in Hq as <-.
      apply (IH d1 q1 pushed1 Hle1 Hq1); [done | done |].
      eapply lastBefore_cons_inv; [done|]. auto.
Qed.

Section KahnInvariant.

Variable nodes : list WorkflowNode.
Variable edges : list WorkflowEdge.
Hypothesis nodes_unique : NoDup (map n_id nodes).

(** Ids that get an entry in the in-degree map. *)
Definition tracked (y : string) : Prop :=
  y ∈ map n_id nodes ∨ y ∈ map target edges.

(** Loop invariant of the queue loop: [processed] are the ids dequeued so
    far, in order. *)
Record kahnInv (processed : list string) (d : gmap string Z) (q : list string)
    (result : list WorkflowNode) : Prop := {
  inv_nodup : NoDup (processed ++ q);
  inv_degree : ∀ y, degree d y = Z.of_nat (remaining edges processed y);
  inv_ready : ∀ y, y ∈ processed ++ q ↔ tracked y ∧ remaining edges processed y = 0;
  inv_result : result = omap (λ x, buildNodeMap nodes !! x) processed;
  inv_order : ∀ l1 y l2, processed = l1 ++ y :: l2 → remaining edges l1 y = 0;
  inv_fifo : ∀ l1 a l2 b p,
    processed ++ q = l1 ++ a :: l2 → b ∈ l2 → p `prefix_of` processed →
    remaining edges p b = 0 → remaining edges p a = 0
}.

Lemma kahnInv_step processed d x q result :
  kahnInv processed d (x :: q) result →
  ∃ pushed,
    (foldl relax (d, q) (successors edges x)).2 = q ++ pushed ∧
    kahnInv (processed ++ [x]) (foldl relax (d, q) (successors edges x)).1 (q ++ pushed)
      (match buildNodeMap nodes !! x with
       | Some node => result ++ [node]
       | None => result
       end).
Proof.
  intros [Hnd Hdeg Hready Hres Hord Hfifo].
  assert (Hx : x ∉ processed).
  { apply NoDup_app in Hnd as (_ & Hdisj & _). intros Hin.
    apply (Hdisj x Hin). apply list_elem_of_here. }
  destruct (foldl_relax_spec (successors edges x) d q)
    as (pushed & Hq & Hpnd & Hpin & Hpdeg).
  { intros y _. rewrite occurrences_successors, Hdeg.
    pose proof (multiplicity_le_remaining edges processed x y Hx). lia. }
  assert (Hpushed : ∀ y, y ∈ pushed ↔
            0 < multiplicity edges x y ∧ remaining edges (processed ++ [x]) y = 0).
  { intros y. rewrite Hpin, occurrences_pos, occurrences_successors, Hdeg.
    pose proof (remaining_snoc edges processed x y Hx). lia. }
  exists pushed. split; [done|]. split.
  - rewrite <- app_assoc. simpl.
    replace (processed ++ x :: q ++ pushed) with ((processed ++ x :: q) ++ pushed)
      by (by rewrite <- app_assoc).
    apply NoDup_app. split_and!; [done | | done].
    intros y Hy Hyp. apply Hready in Hy as [_ Hy]. apply Hpushed in Hyp as [Hm _].
    pose proof (multiplicity_le_remaining edges processed x y Hx). lia.
  - intros y. rewrite Hpdeg, occurrences_successors, Hdeg.
    pose proof (remaining_snoc edges processed x y Hx). lia.
  - intros y. pose proof (remaining_snoc edges processed x y Hx) as Hsn.
    specialize (Hready y). specialize (Hpushed y).
    assert (Hmem : y ∈ (processed ++ [x]) ++ q ++ pushed
                   ↔ y ∈ processed ++ x :: q ∨ y ∈ pushed).
    { rewrite !elem_of_app, !elem_of_cons, elem_of_nil. tauto. }
    rewrite Hmem. split.
    + intros [Hy|Hy].
      * apply Hready in Hy as [Ht Hz]. split; [done | lia].
      * apply Hpushed in Hy as [Hm Hz]. split; [|done].
        right. apply occurrences_pos in Hm || idtac.
        assert (Hs : y ∈ successors edges x).
        { apply occurrences_pos. rewrite occurrences_successors. done. }
        apply elem_of_successors in Hs as (e & He & _ & <-).
        apply list_elem_of_fmap. eauto.
    + intros [Ht Hz].
      destruct (decide (remaining edges processed y = 0)) as [Hz0|Hnz].
      * left. apply Hready. done.
      * right. apply Hpushed. lia.
  - rewrite omap_app. simpl. rewrite <- Hres.
    destruct (buildNodeMap nodes !! x); [done | by rewrite app_nil_r].
  - intros l1 y l2 Heq.
    destruct l2 as [|a l2 _] using rev_ind.
    + apply app_inj_tail in Heq as [<- <-].
      apply (Hready x). apply elem_of_app. right. apply list_elem_of_here.
    + rewrite app_comm_cons, app_assoc in Heq.
      apply app_inj_tail in Heq as [-> _]. by eapply Hord.
  - intros l1 a l2 b p Heq Hb Hp Hzero.
    assert (Hlate : ∀ y, y ∈ pushed → p `prefix_of` processed →
                         remaining edges p y ≠ 0).
    { intros y Hy Hpre. apply Hpushed in Hy as [Hm _].
      pose proof (multiplicity_le_remaining edges processed x y Hx).
      pose proof (remaining_prefix edges p processed y Hpre). lia. }
    assert (Hold : ∀ y, y ∈ processed ++ x :: q →
                        remaining edges (processed ++ [x]) y = 0).
    { intros y Hy. apply Hready in Hy as [_ Hy].
      pose proof (remaining_snoc edges processed x y Hx). lia. }
    replace ((processed ++ [x]) ++ q ++ pushed)
      with ((processed ++ x :: q) ++ pushed) in Heq
      by (rewrite <- !app_assoc; done).
    apply app_eq_inv in Heq as [(k & Hl1 & Hk)|(k & Hl1 & Hk)].
    + destruct k as [|a' k]; simpl in Hk.
      * (* [a] is the first id pushed in this round *)
        assert (Ha : a ∈ pushed) by (rewrite <- Hk; apply list_elem_of_here).
        assert (Hb' : b ∈ pushed) by (rewrite <- Hk; by apply list_elem_of_further).
        apply prefix_snoc_inv in Hp as [Hp| ->].
        -- by destruct (Hlate b Hb' Hp).
        -- by apply Hpushed in Ha as [_ ?].
      * (* [a] was already in the list *)
        injection Hk as <- ->.
        apply prefix_snoc_inv in Hp as [Hp| ->].
        -- apply elem_of_app in Hb as [Hb|Hb].
           ++ by apply (Hfifo l1 a k b p).
           ++ by destruct (Hlate b Hb Hp).
        -- apply Hold. rewrite Hl1. apply elem_of_app. right. apply list_elem_of_here.
    + (* [a] was pushed in this round, after other ids *)
      assert (Ha : a ∈ pushed).
      { rewrite Hk. apply elem_of_app. right. apply list_elem_of_here. }
      assert (Hb' : b ∈ pushed).
      { rewrite Hk. apply elem_of_app. right. by apply list_elem_of_further. }
      apply prefix_snoc_inv in Hp as [Hp| ->].
      * by destruct (Hlate b Hb' Hp).
      * by apply Hpushed in Ha as [_ ?].
Qed.

Lemma kahnLoop_inv fuel :
  ∀ processed d q result r,
    kahnInv processed d q result →
    kahnLoop fuel (buildAdjacencyList nodes edges) (buildNodeMap nodes) d q result
      = Some r →
    ∃ rest d', kahnInv (processed ++ q ++ rest) d' [] r.
Proof.
  induction fuel as [|fuel IH]; intros processed d q result r Hinv Hrun.
  - destruct q; simpl in Hrun; [|done]. injection Hrun as <-.
    exists [], d. by rewrite !app_nil_r in *.
  - destruct q as [|x q]; simpl in Hrun.
    + injection Hrun as <-. exists [], d. by rewrite !app_nil_r in *.
    + rewrite buildAdjacencyList_lookup in Hrun.
      destruct (kahnInv_step processed d x q result Hinv) as (pushed & Hq & Hinv').
      rewrite Hq in Hrun.
      destruct (IH _ _ _ _ _ Hinv' Hrun) as (rest & d' & Hfinal).
      exists (pushed ++ rest), d'.
      replace (processed ++ (x :: q) ++ pushed ++ rest)
        with ((processed ++ [x]) ++ (q ++ pushed) ++ rest); [done|].
      rewrite <- !app_assoc. done.
Qed.

End KahnInvariant.

Section KahnRelease.

Variable nodes : list WorkflowNode.
Variable edges : list WorkflowEdge.

(** The queue loop keeps the ids pushed while one id is processed
    together and in the order the pass over its neighbours pushed them:
    of two ids whose last open dependency is [x], the one whose last edge
    from [x] comes first in the edge array leaves the queue first. *)
Lemma kahnLoop_released fuel :
  ∀ processed d q result r,
    kahnInv nodes edges processed d q result →
    kahnLoop fuel (buildAdjacencyList nodes edges) (buildNodeMap nodes) d q result
      = Some r →
    ∃ rest d',
      kahnInv nodes edges (processed ++ q ++ rest) d' [] r ∧
      ∀ l1 x l2 a b,
        processed ++ q ++ rest = l1 ++ x :: l2 →
        processed `prefix_of` l1 →
        edgeRel edges x a →
        remaining edges (l1 ++ [x]) a = 0 →
        remaining edges (l1 ++ [x]) b = 0 →
        lastBefore (successors edges x) a b →
        before a b (processed ++ q ++ rest).
Proof.
  assert (Hshort : ∀ (processed k l2 : list string) x,
            processed ++ [] ++ [] ≠ (processed ++ k) ++ x :: l2).
  { intros processed k l2 x Heq. apply (f_equal length) in Heq.
    rewrite !length_app in Heq. simpl in Heq. lia. }
  induction fuel as [|fuel IH]; intros processed d q result r Hinv Hrun.
  - destruct q; simpl in Hrun; [|done]. injection Hrun as <-.
    exists [], d. split; [by rewrite !app_nil_r in *|].
    intros l1 x l2 a b Heq [k ->]. by destruct (Hshort processed k l2 x).
  - destruct q as [|x0 q0]; simpl in Hrun.
    + injection Hrun as <-. exists [], d. split; [by rewrite !app_nil_r in *|].
      intros l1 x l2 a b Heq [k ->]. by destruct (Hshort processed k l2 x).
    + rewrite buildAdjacencyList_lookup in Hrun.
      destruct (kahnInv_step nodes edges processed d x0 q0 result Hinv)
        as (pushed & Hq & Hinv').
      rewrite Hq in Hrun.
      destruct (IH _ _ _ _ _ Hinv' Hrun) as (rest & d' & Hfinal & Hrel).
      exists (pushed ++ rest), d'.
      assert (Hlist : processed ++ (x0 :: q0) ++ pushed ++ rest
                      = (processed ++ [x0]) ++ (q0 ++ pushed) ++ rest).
      { rewrite <- !app_assoc. done. }
      split; [by rewrite Hlist|].
      intros l1 x l2 a b Heq [k ->] Hxa Hra Hrb Hlast.
      rewrite <- (app_assoc processed k) in Heq.
      apply app_inv_head in Heq. simpl in Heq.
      destruct k as [|y k]; simpl in Heq; injection Heq as <- Heq.
      * rewrite app_nil_r in Hra, Hrb. subst l2.
        destruct Hinv as [Hnd Hdeg Hready _ _ _].
        assert (Hx : x0 ∉ processed).
        { apply NoDup_app in Hnd as (_ & Hdisj & _). intros Hin.
          apply (Hdisj x0 Hin). apply list_elem_of_here. }
        assert (Hpushed : ∀ y, edgeRel edges x0 y →
                               remaining edges (processed ++ [x0]) y = 0 → y ∈ pushed).
        { intros y Hy Hzero.
          assert (Hm : 0 < multiplicity edges x0 y).
          { rewrite <- occurrences_successors. apply occurrences_pos.
            by apply elem_of_successors. }
          assert (Hin : y ∈ (processed ++ [x0]) ++ q0 ++ pushed).
          { apply (inv_ready _ _ _ _ _ _ Hinv'). split; [|done].
            right. destruct Hy as (e & He & _ & <-). apply list_elem_of_fmap. eauto. }
          rewrite <- app_assoc in Hin. simpl in Hin.
          rewrite app_comm_cons, app_assoc in Hin.
          apply elem_of_app in Hin as [Hold|?]; [|done].
          apply Hready in Hold as [_ Hold].
          pose proof (multiplicity_le_remaining edges processed x0 y Hx). lia. }
        assert (Hb : edgeRel edges x0 b).
        { by apply elem_of_successors, (lastBefore_target _ a). }
        assert (Hord : before a b pushed).
        { apply (foldl_relax_order (successors edges x0) d q0 pushed); auto.
          intros y _. rewrite occurrences_successors, Hdeg.
          pose proof (multiplicity_le_remaining edges processed x0 y Hx). lia. }
        apply before_app_inr. apply (before_app_inr (x0 :: q0)).
        by apply before_app_inl.
      * rewrite Hlist.
        apply (Hrel ((processed ++ [x0]) ++ k) x l2 a b); try done.
        -- rewrite <- !app_assoc. simpl. by rewrite Heq.
        -- by apply prefix_app_r.
        -- replace (((processed ++ [x0]) ++ k) ++ [x])
             with ((processed ++ x0 :: k) ++ [x]); [done|].
           by rewrite <- !app_assoc.
        -- replace (((processed ++ [x0]) ++ k) ++ [x])
             with ((processed ++ x0 :: k) ++ [x]); [done|].
           by rewrite <- !app_assoc.
Qed.

End KahnRelease.

(* ===================================================================== *)
(** ** Walks in an acyclic graph are short *)
(* ===================================================================== *)

Lemma walk_tc edges x l z : walk edges x l z → tc (edgeRel edges) x z.
Proof.
  induction 1 as [x z Hxz|x y l z Hxy _ IH]; [by apply tc_once | by eapply tc_l].
Qed.

Lemma walk_reaches edges x l z v :
  walk edges x l z → v ∈ l → rtc (edgeRel edges) x v.
Proof.
  induction 1 as [x z Hxz|x y l z Hxy _ IH]; intros Hv.
  - apply list_elem_of_singleton in Hv as ->. apply rtc_refl.
  - apply elem_of_cons in Hv as [->|Hv]; [apply rtc_refl|].
    eapply rtc_l; [done | by apply IH].
Qed.

Lemma walk_sources edges x l z v :
  walk edges x l z → v ∈ l → v ∈ map source edges.
Proof.
  induction 1 as [x z Hxz|x y l z Hxy _ IH]; intros Hv.
  - apply list_elem_of_singleton in Hv as ->.
    destruct Hxz as (e & He & <- & _). apply list_elem_of_fmap. eauto.
  - apply elem_of_cons in Hv as [->|Hv]; [|by apply IH].
    destruct Hxy as (e & He & <- & _). apply list_elem_of_fmap. eauto.
Qed.

Lemma walk_NoDup edges x l z : acyclic edges → walk edges x l z → NoDup l.
Proof.
  intros Hacyc. induction 1 as [x z Hxz|x y l z Hxy Hw IH].
  - apply NoDup_singleton.
  - constructor; [|done]. intros Hx. apply (Hacyc x).
    eapply tc_rtc_r; [by apply tc_once|]. by eapply walk_reaches.
Qed.

(** In an acyclic graph whose edge sources all lie in the finite list
    [pool], no set of ids can have a predecessor inside itself for each of
    its members. *)
Lemma no_unfounded_set edges (pool : list string) (stuck : string → Prop) :
  acyclic edges →
  (∀ e, e ∈ edges → source e ∈ pool) →
  (∀ y, stuck y → ∃ s, edgeRel edges s y ∧ stuck s) →
  ∀ y, ¬ stuck y.
Proof.
  intros Hacyc Hpool Hpred y Hy.
  assert (Hlong : ∀ n y, stuck y → ∃ x l, walk edges x l y ∧ length l = S n ∧ stuck x).
  { clear y Hy. induction n as [|n IH]; intros y Hy.
    - destruct (Hpred y Hy) as (s & Hsy & Hs). exists s, [s].
      split_and!; [by constructor | done | done].
    - destruct (IH y Hy) as (x & l & Hw & Hlen & Hx).
      destruct (Hpred x Hx) as (s & Hsx & Hs). exists s, (s :: l).
      split_and!; [by econstructor | simpl; lia | done]. }
  destruct (Hlong (length pool) y Hy) as (x & l & Hw & Hlen & _).
  assert (Hsub : l ⊆+ pool).
  { apply NoDup_submseteq; [by eapply walk_NoDup|].
    intros v Hv. eapply walk_sources in Hv; [|done].
    apply list_elem_of_fmap in Hv as (e & -> & He). by apply Hpool. }
  apply submseteq_length in Hsub. lia.
Qed.

(* ===================================================================== *)
(** ** Topological sort: results *)
(* ===================================================================== *)

Lemma buildNodeMap_fold (nodes : list WorkflowNode) y :
  ∀ m : gmap string WorkflowNode,
    (∀ n, foldl (λ m node, <[n_id node := node]> m) m nodes !! y = Some n →
          (n ∈ nodes ∧ n_id n = y) ∨ m !! y = Some n) ∧
    (y ∈ map n_id nodes →
     is_Some (foldl (λ m node, <[n_id node := node]> m) m nodes !! y)).
Proof.
  induction nodes as [|a nodes IH]; intros m; simpl.
  - split; [auto|]. intros Hy. by apply elem_of_nil in Hy.
  - destruct (IH (<[n_id a := a]> m)) as [Hsome Hin]. split.
    + intros n Hn. destruct (Hsome n Hn) as [[? ?]|Hm].
      * left. split; [by apply list_elem_of_further | done].
      * apply lookup_insert_Some in Hm as [[<- <-]|[_ Hm]]; [|by right].
        left. split; [apply list_elem_of_here | done].
    + intros Hy. destruct (decide (y ∈ map n_id nodes)) as [Hyn|Hyn]; [by apply Hin|].
      apply elem_of_cons in Hy as [->|?]; [|done].
      clear IH Hsome Hin. revert m.
      induction nodes as [|b nodes IHn]; intros m; simpl.
      * rewrite lookup_insert_eq. eauto.
      * apply not_elem_of_cons in Hyn as [Hne Hyn].
        rewrite insert_insert_ne by done. by apply IHn.
Qed.

Lemma buildNodeMap_Some nodes y n :
  buildNodeMap nodes !! y = Some n → n ∈ nodes ∧ n_id n = y.
Proof.
  intros Hn. destruct (buildNodeMap_fold nodes y ∅) as [Hsome _].
  destruct (Hsome n Hn) as [?|Hm]; [done|]. by rewrite lookup_empty in Hm.
Qed.

Lemma buildNodeMap_is_Some nodes y :
  y ∈ map n_id nodes → is_Some (buildNodeMap nodes !! y).
Proof. apply buildNodeMap_fold. Qed.

(** Ids of the nodes emitted for a list of dequeued ids: the ids that name
    a node, in the same order. *)
Lemma omap_nodeMap_ids nodes (processed : list string) :
  map n_id (omap (λ x, buildNodeMap nodes !! x) processed)
  = filter (λ y, y ∈ map n_id nodes) processed.
Proof.
  induction processed as [|x processed IH]; [done|].
  rewrite filter_cons.
  change (omap (λ x, buildNodeMap nodes !! x) (x :: processed))
    with (match buildNodeMap nodes !! x with
          | Some n => n :: omap (λ x, buildNodeMap nodes !! x) processed
          | None => omap (λ x, buildNodeMap nodes !! x) processed
          end).
  destruct (buildNodeMap nodes !! x) as [n|] eqn:Hx.
  - apply buildNodeMap_Some in Hx as [Hn <-].
    rewrite decide_True by (apply list_elem_of_fmap; eauto).
    rewrite <- IH. done.
  - rewrite decide_False; [done|]. intros Hin.
    apply buildNodeMap_is_Some in Hin as [? ?]. congruence.
Qed.

Lemma inDegreeOf_zero edges y : inDegreeOf edges y = 0 ↔ y ∉ map target edges.
Proof.
  unfold inDegreeOf. split.
  - intros Hz Hin. apply list_elem_of_fmap in Hin as (e & -> & He).
    assert (Hf : e ∈ filter (λ e', target e' = target e) edges)
      by by apply list_elem_of_filter.
    destruct (filter _ edges); [by apply elem_of_nil in Hf | done].
  - intros Hn. destruct (filter (λ e, target e = y) edges) as [|e l] eqn:Hf; [done|].
    assert (He : e ∈ filter (λ e, target e = y) edges)
      by (rewrite Hf; apply list_elem_of_here).
    apply list_elem_of_filter in He as [<- He]. destruct Hn.
    apply list_elem_of_fmap. eauto.
Qed.

(** The queue is seeded with the roots, in node-array order. *)
Lemma initialQueue_roots nodes edges :
  initialQueue nodes (initialInDegree nodes edges) = rootIds nodes edges.
Proof.
  unfold initialQueue, rootIds.
  assert (Hgen : ∀ l : list WorkflowNode, (∀ n, n ∈ l → n ∈ nodes) →
            map n_id (filter (λ node, initialInDegree nodes edges !! n_id node = Some 0%Z) l)
            = filter (λ y, y ∉ map target edges) (map n_id l)).
  { induction l as [|a l IH]; intros Hin; [done|].
    simpl. rewrite !filter_cons.
    rewrite (lookup_initial_node nodes edges (n_id a))
      by (apply list_elem_of_fmap; exists a; split; [done | apply Hin, list_elem_of_here]).
    pose proof (inDegreeOf_zero edges (n_id a)) as Hz.
    destruct (decide (n_id a ∉ map target edges)) as [Hr|Hr].
    - rewrite decide_True by (f_equal; apply Hz in Hr; lia).
      simpl. f_equal. apply IH. intros n Hn. by apply Hin, list_elem_of_further.
    - rewrite decide_False.
      + apply IH. intros n Hn. by apply Hin, list_elem_of_further.
      + intros Heq. apply Hr, Hz. injection Heq. lia. }
  by apply Hgen.
Qed.

Section KahnResult.

Variable nodes : list WorkflowNode.
Variable edges : list WorkflowEdge.
Hypothesis nodes_unique : NoDup (map n_id nodes).

Lemma kahnInv_initial :
  kahnInv nodes edges [] (initialInDegree nodes edges)
    (initialQueue nodes (initialInDegree nodes edges)) [].
Proof.
  rewrite initialQueue_roots. split.
  - simpl. unfold rootIds. by apply NoDup_filter.
  - intros y. by rewrite degree_initial, remaining_nil.
  - intros y. simpl. unfold rootIds, tracked.
    rewrite list_elem_of_filter, remaining_nil, inDegreeOf_zero. tauto.
  - done.
  - intros l1 y l2 Heq. by destruct l1.
  - intros l1 a l2 b p Heq Hb Hp Hzero. simpl in Heq.
    apply prefix_nil_inv in Hp as ->.
    assert (Hbq : b ∈ rootIds nodes edges).
    { rewrite Heq. apply elem_of_app. right. by apply list_elem_of_further. }
    assert (Haq : a ∈ rootIds nodes edges).
    { rewrite Heq. apply elem_of_app. right. apply list_elem_of_here. }
    unfold rootIds in Haq. apply list_elem_of_filter in Haq as [Ha _].
    rewrite remaining_nil. by apply inDegreeOf_zero.
Qed.

(** Summary of a run of [topologicalSort] on nodes with distinct ids:
    [processed] is the order in which ids left the queue. *)
Lemma topologicalSort_processed :
  ∃ processed rest,
    processed = rootIds nodes edges ++ rest ∧
    NoDup processed ∧
    (∀ y, y ∈ processed ↔ tracked nodes edges y ∧ remaining edges processed y = 0) ∧
    (∀ l1 y l2, processed = l1 ++ y :: l2 → remaining edges l1 y = 0) ∧
    (∀ l1 a l2 b p, processed = l1 ++ a :: l2 → b ∈ l2 → p `prefix_of` processed →
                    remaining edges p b = 0 → remaining edges p a = 0) ∧
    let result := omap (λ x, buildNodeMap nodes !! x) processed in
    topologicalSort nodes edges
    = Some (if bool_decide (length result = length nodes) then Some result else None).
Proof.
  unfold topologicalSort.
  destruct (kahnLoop_total (buildAdjacencyList nodes edges) (buildNodeMap nodes)
              (kahnFuel nodes edges) (initialInDegree nodes edges)
              (initialQueue nodes (initialInDegree nodes edges)) []) as [r Hr].
  { unfold kahnFuel, initialQueue.
    pose proof (positive_initial nodes edges).
    rewrite length_map.
    pose proof (length_filter
                  (λ node, initialInDegree nodes edges !! n_id node = Some 0%Z) nodes).
    lia. }
  rewrite Hr. simpl.
  destruct (kahnLoop_inv nodes edges _ _ _ _ _ _ kahnInv_initial Hr)
    as (rest & d' & [Hnd Hdeg Hready Hres Hord Hfifo]).
  rewrite initialQueue_roots in *. simpl in *. rewrite app_nil_r in *.
  exists (rootIds nodes edges ++ rest), rest.
  split_and!; [done | done | done | done | done |]. by rewrite <- Hres.
Qed.

End KahnResult.

Section KahnReleased.

Variable nodes : list WorkflowNode.
Variable edges : list WorkflowEdge.
Hypothesis nodes_unique : NoDup (map n_id nodes).

(** A run of [topologicalSort] on nodes with distinct ids, with the order
    in which the ids that wait for the same last dependency leave the
    queue. *)
Lemma topologicalSort_released :
  ∃ processed,
    NoDup processed ∧
    (∀ y, y ∈ processed → tracked nodes edges y) ∧
    (∀ l1 x l2 a b,
       processed = l1 ++ x :: l2 →
       edgeRel edges x a →
       remaining edges (l1 ++ [x]) a = 0 →
       remaining edges (l1 ++ [x]) b = 0 →
       lastBefore (successors edges x) a b →
       before a b processed) ∧
    let result := omap (λ x, buildNodeMap nodes !! x) processed in
    topologicalSort nodes edges
    = Some (if bool_decide (length result = length nodes) then Some result else None).
Proof.
  unfold topologicalSort.
  destruct (kahnLoop_total (buildAdjacencyList nodes edges) (buildNodeMap nodes)
              (kahnFuel nodes edges) (initialInDegree nodes edges)
              (initialQueue nodes (initialInDegree nodes edges)) []) as [r Hr].
  { unfold kahnFuel, initialQueue.
    pose proof (positive_initial nodes edges).
    rewrite length_map.
    pose proof (length_filter
                  (λ node, initialInDegree nodes edges !! n_id node = Some 0%Z) nodes).
    lia. }
  rewrite Hr. simpl.
  destruct (kahnLoop_released nodes edges _ _ _ _ _ _
              (kahnInv_initial nodes edges nodes_unique) Hr)
    as (rest & d' & [Hnd _ Hready Hres _ _] & Hrel).
  simpl in *. rewrite app_nil_r in *.
  exists (initialQueue nodes (initialInDegree nodes edges) ++ rest).
  split_and!; [done | | | by rewrite <- Hres].
  - intros y Hy. by apply Hready in Hy as [? _].
  - intros l1 x l2 a b Heq. apply (Hrel l1 x l2 a b Heq). apply prefix_nil.
Qed.

End KahnReleased.

Lemma before_middle (l1 l2 : list string) u v :
  u ∈ l1 → before u v (l1 ++ v :: l2).
Proof.
  intros Hu. apply list_elem_of_lookup in Hu as [i Hi].
  exists i, (length l1). split_and!.
  - by apply lookup_app_l_Some.
  - by rewrite list_lookup_middle.
  - by eapply lookup_lt_Some.
Qed.

Lemma before_NoDup_inv (l1 l2 : list string) u v :
  NoDup (l1 ++ v :: l2) → before u v (l1 ++ v :: l2) → u ∈ l1.
Proof.
  intros Hnd (i & j & Hi & Hj & Hlt).
  assert (j = length l1) as ->.
  { eapply NoDup_lookup; [done | done | by rewrite list_lookup_middle]. }
  rewrite lookup_app_l in Hi by done. by eapply list_elem_of_lookup_2.
Qed.

Lemma filter_id (P : string → Prop) `{∀ x, Decision (P x)} (l : list string) :
  (∀ x, x ∈ l → P x) → filter P l = l.
Proof.
  induction l as [|x l IH]; intros Hall; [done|].
  rewrite filter_cons, decide_True by apply Hall, list_elem_of_here.
  f_equal. apply IH. intros y Hy. by apply Hall, list_elem_of_further.
Qed.

Lemma remaining_pos_edge edges processed y :
  remaining edges processed y ≠ 0 →
  ∃ e, e ∈ edges ∧ target e = y ∧ source e ∉ processed.
Proof.
  unfold remaining. intros Hnz.
  destruct (filter (λ e, target e = y ∧ source e ∉ processed) edges) as [|e l] eqn:Hf;
    [done|].
  assert (He : e ∈ filter (λ e, target e = y ∧ source e ∉ processed) edges)
    by (rewrite Hf; apply list_elem_of_here).
  apply list_elem_of_filter in He as [[? ?] ?]. eauto.
Qed.

Section SortResults.

Variable nodes : list WorkflowNode.
Variable edges : list WorkflowEdge.
Hypothesis nodes_unique : NoDup (map n_id nodes).

(** Every edge starts at a node and there is no cycle: every id with an
    in-degree entry leaves the queue, so the sort succeeds; the ids of
    the result are the dequeued ids that name a node. *)
Lemma topologicalSort_complete :
  (∀ e, e ∈ edges → source e ∈ map n_id nodes) →
  acyclic edges →
  ∃ processed rest result,
    topologicalSort nodes edges = Some (Some result) ∧
    map n_id result = filter (λ y, y ∈ map n_id nodes) processed ∧
    map n_id result ≡ₚ map n_id nodes ∧
    processed = rootIds nodes edges ++ rest ∧
    NoDup processed ∧
    (∀ y, y ∈ processed ↔ tracked nodes edges y) ∧
    (∀ l1 y l2, processed = l1 ++ y :: l2 → ready edges l1 y) ∧
    (∀ l1 a l2 b p, processed = l1 ++ a :: l2 → b ∈ l2 → p `prefix_of` processed →
                    ready edges p b → ready edges p a).
Proof.
  intros Hsrc Hacyc.
  destruct (topologicalSort_processed nodes edges nodes_unique)
    as (processed & rest & Hroots & Hnd & Hmem & Hord & Hfifo & Hsort).
  assert (Hall : ∀ y, tracked nodes edges y → y ∈ processed).
  { intros y Hy. destruct (decide (y ∈ processed)) as [|Hn]; [done|]. exfalso.
    apply (no_unfounded_set edges (map n_id nodes)
             (λ y, tracked nodes edges y ∧ y ∉ processed) Hacyc Hsrc) with (y := y);
      [|done].
    intros z [Hz Hzn].
    assert (Hrem : remaining edges processed z ≠ 0).
    { intros Hzero. apply Hzn, Hmem. done. }
    apply remaining_pos_edge in Hrem as (e & He & <- & Hs).
    exists (source e). split_and!; [by exists e | left; by apply Hsrc | done]. }
  set (result := omap (λ x, buildNodeMap nodes !! x) processed) in *.
  assert (Hids : map n_id result = filter (λ y, y ∈ map n_id nodes) processed)
    by apply omap_nodeMap_ids.
  assert (Hperm : map n_id result ≡ₚ map n_id nodes).
  { apply NoDup_Permutation; [rewrite Hids; by apply NoDup_filter | done |].
    intros y. rewrite Hids, list_elem_of_filter. split; [tauto|].
    intros Hy. split; [done|]. apply Hall. by left. }
  exists processed, rest, result. split_and!; try done.
  - rewrite Hsort. simpl. rewrite bool_decide_eq_true_2; [done|].
    apply Permutation_length in Hperm. by rewrite !length_map in Hperm.
  - intros y. split; [by intros [? _]%Hmem | apply Hall].
  - intros l1 y l2 Heq. unfold ready. apply remaining_zero. by eapply Hord.
  - intros l1 a l2 b p Heq Hb Hp Hr. unfold ready in *. apply remaining_zero.
    eapply Hfifo; [done | done | done |]. by apply remaining_zero.
Qed.

(** An edge whose source is neither a node nor the target of any edge
    keeps its target, when that is a node, out of the queue for ever:
    the result is too short and [null] is returned. *)
Lemma topologicalSort_dangling_source e :
  e ∈ edges →
  source e ∉ map n_id nodes → source e ∉ map target edges →
  target e ∈ map n_id nodes →
  topologicalSort nodes edges = Some None.
Proof.
  intros He Hs1 Hs2 Ht.
  destruct (topologicalSort_processed nodes edges nodes_unique)
    as (processed & rest & Hroots & Hnd & Hmem & Hord & Hfifo & Hsort).
  rewrite Hsort. simpl. rewrite bool_decide_eq_false_2; [done|].
  assert (Hsrc : source e ∉ processed).
  { intros Hin. apply Hmem in Hin as [[?|?] _]; done. }
  assert (Htgt : target e ∉ processed).
  { intros Hin. apply Hmem in Hin as [_ Hz].
    destruct Hsrc. by eapply remaining_zero. }
  assert (Hsub : target e :: filter (λ y, y ∈ map n_id nodes) processed
                 ⊆+ map n_id nodes).
  { apply NoDup_submseteq.
    - constructor; [|by apply NoDup_filter].
      intros Hin. apply list_elem_of_filter in Hin as [_ ?]. done.
    - intros y Hy. apply elem_of_cons in Hy as [->|Hy]; [done|].
      by apply list_elem_of_filter in Hy as [? _]. }
  apply submseteq_length in Hsub. simpl in Hsub.
  rewrite <- omap_nodeMap_ids, !length_map in Hsub. lia.
Qed.

End SortResults.

(** [buildExecutionPlan] always returns a plan. *)
Lemma buildExecutionPlan_total workflow : is_Some (buildExecutionPlan workflow).
Proof.
  unfold buildExecutionPlan.
  destruct (checkForCycles_spec (nodes workflow) (edges workflow))
    as (b & cycle & -> & _). simpl.
  destruct b; [eauto|].
  destruct (topologicalSort_total (nodes workflow) (edges workflow)) as [r ->]. simpl.
  destruct r; eauto.
Qed.

Lemma buildExecutionPlan_cycle workflow :
  detectCycle (nodes workflow) (edges workflow) = Some true →
  ∃ cycle, buildExecutionPlan workflow
           = Some {| plan_nodes := []; valid := false;
                     errors := [cycleMessage (Some cycle)] |}.
Proof.
  intros Hdet. unfold buildExecutionPlan, checkForCycles. rewrite Hdet. simpl.
  destruct (findCycle_total (nodes workflow) (edges workflow)) as [c ->]. simpl.
  by exists c.
Qed.

Lemma buildExecutionPlan_sorted workflow result :
  detectCycle (nodes workflow) (edges workflow) = Some false →
  topologicalSort (nodes workflow) (edges workflow) = Some (Some result) →
  ∃ plan, buildExecutionPlan workflow = Some plan ∧
          valid plan = true ∧ errors plan = [] ∧
          map node (plan_nodes plan) = result ∧
          planOrder plan = map n_id result.
Proof.
  intros Hdet Hsort. unfold buildExecutionPlan, checkForCycles.
  rewrite Hdet. simpl. rewrite Hsort. simpl.
  eexists. split; [done|]. unfold planOrder. simpl.
  split_and!; [done | done | |].
  - rewrite map_map. simpl. by rewrite map_id.
  - by rewrite map_map.
Qed.

Lemma buildExecutionPlan_unsorted workflow :
  detectCycle (nodes workflow) (edges workflow) = Some false →
  topologicalSort (nodes workflow) (edges workflow) = Some None →
  buildExecutionPlan workflow
  = Some {| plan_nodes := []; valid := false; errors := [sortFailure] |}.
Proof.
  intros Hdet Hsort. unfold buildExecutionPlan, checkForCycles.
  rewrite Hdet. simpl. by rewrite Hsort.
Qed.

Lemma kahnLoop_members (nodes : list WorkflowNode) adjacency fuel :
  ∀ d q result r,
    kahnLoop fuel adjacency (buildNodeMap nodes) d q result = Some r →
    (∀ n, n ∈ result → n ∈ nodes) → ∀ n, n ∈ r → n ∈ nodes.
Proof.
  induction fuel as [|fuel IH]; intros d q result r Hrun Hres.
  - destruct q; simpl in Hrun; [|done]. by injection Hrun as <-.
  - destruct q as [|x q]; simpl in Hrun; [by injection Hrun as <-|].
    eapply IH; [exact Hrun|].
    destruct (buildNodeMap nodes !! x) as [node|] eqn:Hx; [|done].
    intros n Hn. apply elem_of_app in Hn as [Hn|Hn]; [by apply Hres|].
    apply list_elem_of_singleton in Hn as ->. by apply buildNodeMap_Some in Hx as [? _].
Qed.

Lemma topologicalSort_members nodes edges result :
  topologicalSort nodes edges = Some (Some result) → ∀ n, n ∈ result → n ∈ nodes.
Proof.
  unfold topologicalSort. intros Hsort.
  destruct (kahnLoop _ _ _ _ _ _) as [r|] eqn:Hrun; simpl in Hsort; [|done].
  case_bool_decide; [|done]. injection Hsort as <-.
  eapply kahnLoop_members; [exact Hrun|]. intros n Hn. by apply elem_of_nil in Hn.
Qed.

(** Every context of a plan is the context of a node of the workflow, and an
    invalid plan has no contexts. *)
Lemma buildExecutionPlan_contexts workflow plan :
  buildExecutionPlan workflow = Some plan →
  (valid plan = false → plan_nodes plan = []) ∧
  (∀ context, context ∈ plan_nodes plan →
     node context ∈ nodes workflow ∧ nodeId context = n_id (node context)).
Proof.
  unfold buildExecutionPlan. intros Hplan.
  destruct (checkForCycles _ _) as [[b cycle]|]; simpl in Hplan; [|done].
  destruct b.
  { injection Hplan as <-. simpl. split; [done|]. intros c Hc. by apply elem_of_nil in Hc. }
  destruct (topologicalSort _ _) as [[result|]|] eqn:Hsort; simpl in Hplan; [| |done].
  - injection Hplan as <-. simpl. split; [done|].
    intros c Hc. apply list_elem_of_fmap in Hc as (n & -> & Hn). simpl.
    split; [|done]. by eapply topologicalSort_members.
  - injection Hplan as <-. simpl. split; [done|]. intros c Hc. by apply elem_of_nil in Hc.
Qed.

Lemma planOrder_nodes workflow plan :
  buildExecutionPlan workflow = Some plan →
  ∀ context, context ∈ plan_nodes plan →
             nodeId context ∈ map n_id (nodes workflow).
Proof.
  intros Hplan c Hc.
  destruct (proj2 (buildExecutionPlan_contexts workflow plan Hplan) c Hc) as [Hn ->].
  apply list_elem_of_fmap. eauto.
Qed.

(* ===================================================================== *)
(** ** The runner *)
(* ===================================================================== *)

Lemma mapGet_mapSet_eq {V} k (v : V) m : mapGet k (mapSet k v m) = Some v.
Proof.
  induction m as [|[k' v'] m IH]; simpl.
  - by rewrite bool_decide_eq_true_2.
  - case_bool_decide as Hk; simpl.
    + by rewrite bool_decide_eq_true_2.
    + by rewrite bool_decide_eq_false_2.
Qed.

Lemma mapGet_mapSet_ne {V} k k' (v : V) m :
  k ≠ k' → mapGet k' (mapSet k v m) = mapGet k' m.
Proof.
  intros Hne. induction m as [|[k0 v0] m IH]; simpl.
  - by rewrite bool_decide_eq_false_2.
  - case_bool_decide as Hk; simpl.
    + subst k0. by rewrite !bool_decide_eq_false_2.
    + case_bool_decide; [done | apply IH].
Qed.

Lemma mapGet_elem {V} k (v : V) m : mapGet k m = Some v → v ∈ map snd m.
Proof.
  induction m as [|[k' v'] m IH]; simpl; [done|].
  case_bool_decide.
  - intros [= ->]. apply list_elem_of_here.
  - intros Hv. apply list_elem_of_further. by apply IH.
Qed.

Lemma eventsOf_app t1 t2 : eventsOf (t1 ++ t2) = eventsOf t1 ++ eventsOf t2.
Proof. apply omap_app. Qed.

Section RunnerFacts.

Context {World : Type}.
Variable host : @Host World.
Variable runner : @WorkflowRunner World.

(** What one call of [executeNode] for an existing node does: it appends
    to the trace, emits [queued] first and a terminal event last, leaves a
    terminal result for the node, and only raises when the listener
    raises on the [failed] event. *)
Lemma executeNode_spec nodeId context s :
  nodeId ∈ map n_id (nodes (workflow runner)) →
  ∃ c s' added,
    executeNode host runner nodeId context s = (c, s') ∧
    trace s' = trace s ++ added ∧
    (eventsOf added = [(nodeId, EvQueued); (nodeId, EvFailed)] ∨
     eventsOf added = [(nodeId, EvQueued); (nodeId, EvRunning); (nodeId, EvFailed)] ∨
     eventsOf added = [(nodeId, EvQueued); (nodeId, EvRunning); (nodeId, EvSucceeded)] ∨
     eventsOf added = [(nodeId, EvQueued); (nodeId, EvRunning); (nodeId, EvSucceeded);
                       (nodeId, EvFailed)]) ∧
    (quietListener (config runner) →
     eventsOf added = [(nodeId, EvQueued); (nodeId, EvRunning); (nodeId, EvFailed)] ∨
     eventsOf added = [(nodeId, EvQueued); (nodeId, EvRunning); (nodeId, EvSucceeded)]) ∧
    (listenerAcceptsFailures (config runner) → c = Normal tt) ∧
    (∃ r, mapGet nodeId (resultsMap s') = Some r ∧ r_nodeId r = nodeId ∧
          terminal (r_status r)) ∧
    (∀ k, k ≠ nodeId → mapGet k (resultsMap s') = mapGet k (resultsMap s)).
Proof.
  intros Hin. unfold executeNode.
  destruct (List.find _ _) as [node|] eqn:Hfind.
  2:{ exfalso. apply list_elem_of_fmap in Hin as (n & -> & Hn).
      apply list_elem_of_In in Hn.
      eapply find_none in Hfind; [|done]. by rewrite bool_decide_eq_true_2 in Hfind. }
  unfold executeNodeTry, executeNodeCatch, tryCatch, bind, nowISO, nowMs, gets,
    modify, emitEvent, executeWithTimeout, addLog, ret, throw, bind,
    quietListener, listenerAcceptsFailures.
  destruct (onEvent (config runner)) as [listener|] eqn:Hl; simpl.
  - repeat match goal with
           | |- context [listener ?ev ?w] =>
               destruct (listener ev w) as [[?|] ?] eqn:?; simpl
           | |- context [getNodeExecutor host ?w ?t] =>
               destruct (getNodeExecutor host w t) as [?|] eqn:?; simpl
           | |- context [match ?executor ?cfg ?inp ?w with _ => _ end] =>
               destruct (executor cfg inp w) as [[?|?|] ?] eqn:?; simpl
           end.
    all: eexists _, _, _; (split; [reflexivity|]); simpl.
    all: rewrite <- ?app_assoc; simpl; (split; [reflexivity|]).
    all: split; [repeat first [reflexivity | left; reflexivity | right]|].
    all: split; [intros Hq;
                 try (repeat first [reflexivity | left; reflexivity | right]);
                 exfalso;
                 repeat match goal with
                        | H : ?l ?ev ?w = (Some _, _) |- _ =>
                            pose proof (Hq l eq_refl ev w) as Hc;
                            rewrite H in Hc; discriminate Hc
                        end|].
    all: split; [intros Hq; try reflexivity; exfalso;
                 repeat match goal with
                        | H : ?l ?ev ?w = (Some _, _) |- _ =>
                            pose proof (Hq l eq_refl ev w eq_refl) as Hc;
                            rewrite H in Hc; discriminate Hc
                        | H : ?l ?ev ?w = (Some _, _) |- _ => clear H
                        end|].
    all: split; [rewrite mapGet_mapSet_eq; eexists; split; [reflexivity|];
                 simpl; split; [reflexivity|]; unfold terminal; auto
                | intros k Hk; by rewrite ?mapGet_mapSet_ne by done].
  - destruct (getNodeExecutor host (world s) (n_type node)) as [executor|] eqn:Hex; simpl.
    1: destruct (executor _ _ _) as [[out|e|] w] eqn:Hrun; simpl.
    all: eexists _, _, _; (split; [reflexivity|]); simpl.
    all: rewrite <- ?app_assoc; simpl; (split; [reflexivity|]).
    all: split; [repeat first [reflexivity | left; reflexivity | right]|].
    all: split; [intros _; repeat first [reflexivity | left; reflexivity | right]|].
    all: split; [intros _; reflexivity|].
    all: split; [rewrite mapGet_mapSet_eq; eexists; split; [reflexivity|];
                 simpl; split; [reflexivity|]; unfold terminal; auto
                | intros k Hk; by rewrite ?mapGet_mapSet_ne by done].
Qed.

(** The events of one call of [executeNode] under a listener that
    returns normally from [queued] and [succeeded]; on [running] and
    [failed] it may raise. *)
Lemma executeNode_events nodeId context s :
  nodeId ∈ map n_id (nodes (workflow runner)) →
  listenerAcceptsProgress (config runner) →
  ∃ c s' added last,
    executeNode host runner nodeId context s = (c, s') ∧
    trace s' = trace s ++ added ∧
    eventsOf added = nodeEvents nodeId last ∧
    (last = EvSucceeded ∨ last = EvFailed) ∧
    (listenerAcceptsFailures (config runner) → c = Normal tt).
Proof.
  intros Hin Hq. unfold executeNode.
  destruct (List.find _ _) as [node|] eqn:Hfind.
  2:{ exfalso. apply list_elem_of_fmap in Hin as (n & -> & Hn).
      apply list_elem_of_In in Hn.
      eapply find_none in Hfind; [|done]. by rewrite bool_decide_eq_true_2 in Hfind. }
  unfold executeNodeTry, executeNodeCatch, tryCatch, bind, nowISO, nowMs, gets,
    modify, emitEvent, executeWithTimeout, addLog, ret, throw, bind,
    listenerAcceptsProgress, listenerAcceptsFailures in *.
  destruct (onEvent (config runner)) as [listener|] eqn:Hl; simpl.
  - repeat match goal with
           | |- context [listener ?ev ?w] =>
               destruct (listener ev w) as [[?|] ?] eqn:?; simpl
           | |- context [getNodeExecutor host ?w ?t] =>
               destruct (getNodeExecutor host w t) as [?|] eqn:?; simpl
           | |- context [match ?executor ?cfg ?inp ?w with _ => _ end] =>
               destruct (executor cfg inp w) as [[?|?|] ?] eqn:?; simpl
           end.
    all: try (exfalso;
              match goal with
              | H : ?l ?ev ?w = (Some _, _) |- _ =>
                  first [ pose proof (Hq l eq_refl ev w (or_introl eq_refl)) as Hc
                        | pose proof (Hq l eq_refl ev w (or_intror eq_refl)) as Hc ];
                  rewrite H in Hc; discriminate Hc
              end).
    all: eexists _, _, _, _; (split; [reflexivity|]); simpl.
    all: rewrite <- ?app_assoc; simpl; (split; [reflexivity|]).
    all: split; [reflexivity|].
    all: split; [auto|].
    all: intros Hf; try reflexivity; exfalso.
    all: match goal with
         | H : ?l ?ev ?w = (Some _, _) |- _ =>
             pose proof (Hf l eq_refl ev w eq_refl) as Hc;
             rewrite H in Hc; discriminate Hc
         end.
  - destruct (getNodeExecutor host (world s) (n_type node)) as [executor|] eqn:Hex; simpl.
    1: destruct (executor _ _ _) as [[out|e|] w] eqn:Hrun; simpl.
    all: eexists _, _, _, _; (split; [reflexivity|]); simpl.
    all: rewrite <- ?app_assoc; simpl; (split; [reflexivity|]).
    all: split; [reflexivity|].
    all: split; [auto|].
    all: intros _; reflexivity.
Qed.

(** The loop over the planned contexts under such a listener: the nodes
    of a prefix of the plan are attempted, each with the events [queued],
    [running] and one terminal event; the loop ends early only when the
    listener raises on a [failed] event. *)
Lemma executeNodes_events (contexts : list ExecutionContext) :
  (∀ context, context ∈ contexts →
              nodeId context ∈ map n_id (nodes (workflow runner))) →
  listenerAcceptsProgress (config runner) →
  ∀ s, ∃ c s' added outcomes,
    forEachM (λ context, executeNode host runner (nodeId context) context) contexts s
      = (c, s') ∧
    trace s' = trace s ++ added ∧
    length outcomes ≤ length contexts ∧
    Forall (λ last, last = EvSucceeded ∨ last = EvFailed) outcomes ∧
    eventsOf added = concat (zip_with nodeEvents (map nodeId contexts) outcomes) ∧
    (listenerAcceptsFailures (config runner) → length outcomes = length contexts).
Proof.
  intros Hin Hq. induction contexts as [|context contexts IH]; intros s.
  - exists (Normal tt), s, [], []. simpl. rewrite app_nil_r. split_and!; done.
  - simpl. unfold bind at 1.
    destruct (executeNode_events (nodeId context) context s)
      as (c1 & s1 & added1 & last & Hrun1 & Htr1 & Hev1 & Hlast & Hsafe1);
      [apply Hin, list_elem_of_here | done |].
    rewrite Hrun1. destruct c1 as [[]|err].
    + destruct (IH (λ c Hc, Hin c (list_elem_of_further _ _ _ Hc)) s1)
        as (c & s' & added & outcomes & Hrun & Htr & Hlen & Hall & Hev & Hsafe).
      rewrite Hrun. exists c, s', (added1 ++ added), (last :: outcomes).
      split_and!.
      * done.
      * by rewrite Htr, Htr1, <- app_assoc.
      * simpl. lia.
      * by constructor.
      * rewrite eventsOf_app, Hev1, Hev. done.
      * intros Hf. simpl. by rewrite Hsafe.
    + exists (Abrupt err), s1, added1, [last]. split_and!.
      * done.
      * done.
      * simpl. lia.
      * constructor; [done | constructor].
      * rewrite Hev1. simpl. by rewrite zip_with_nil_r.
      * intros Hf. by specialize (Hsafe1 Hf).
Qed.

Lemma attemptedIds_app t1 t2 :
  attemptedIds (t1 ++ t2) = attemptedIds t1 ++ attemptedIds t2.
Proof. unfold attemptedIds. by rewrite eventsOf_app, omap_app. Qed.

(** The loop [for (const context of plan.nodes) await executeNode(...)]. *)
Lemma executeNodes_spec (contexts : list ExecutionContext) :
  (∀ context, context ∈ contexts →
              nodeId context ∈ map n_id (nodes (workflow runner))) →
  ∀ s, ∃ c s' added,
    forEachM (λ context, executeNode host runner (nodeId context) context) contexts s
      = (c, s') ∧
    trace s' = trace s ++ added ∧
    Forall notCancelled (eventsOf added) ∧
    (∀ k, k ∉ map nodeId contexts → mapGet k (resultsMap s') = mapGet k (resultsMap s)) ∧
    (listenerAcceptsFailures (config runner) →
       c = Normal tt ∧
       attemptedIds added = map nodeId contexts ∧
       ∀ k, k ∈ map nodeId contexts →
            ∃ r, mapGet k (resultsMap s') = Some r ∧ r_nodeId r = k ∧
                 terminal (r_status r)) ∧
    (quietListener (config runner) →
       ∃ outcomes,
         length outcomes = length contexts ∧
         Forall (λ last, last = EvSucceeded ∨ last = EvFailed) outcomes ∧
         eventsOf added
         = concat (zip_with nodeEvents (map nodeId contexts) outcomes)).
Proof.
  induction contexts as [|context contexts IH]; intros Hin s.
  - exists (Normal tt), s, []. simpl. rewrite app_nil_r.
    split_and!; try done.
    + intros _. split_and!; [done | done |]. intros k Hk. by apply elem_of_nil in Hk.
    + intros _. exists []. split_and!; [done | constructor | done].
  - simpl. unfold bind at 1.
    destruct (executeNode_spec (nodeId context) context s)
      as (c1 & s1 & added1 & Hrun1 & Htr1 & Hshape1 & Hquiet1 & Hsafe1 & Hres1 & Hkeep1).
    { apply Hin, list_elem_of_here. }
    rewrite Hrun1.
    assert (Hnc1 : Forall notCancelled (eventsOf added1)).
    { destruct Hshape1 as [-> | [-> | [-> | ->]]];
        repeat constructor; unfold notCancelled; simpl; done. }
    destruct c1 as [[]|err].
    + destruct (IH (λ c Hc, Hin c (list_elem_of_further _ _ _ Hc)) s1)
        as (c & s' & added & Hrun & Htr & Hnc & Hkeep & Hsafe & Hquiet).
      rewrite Hrun. exists c, s', (added1 ++ added).
      split_and!.
      * done.
      * by rewrite Htr, Htr1, <- app_assoc.
      * rewrite eventsOf_app. by apply Forall_app.
      * intros k Hk. apply not_elem_of_cons in Hk as [Hne Hk].
        rewrite Hkeep by done. by apply Hkeep1.
      * intros Hs. destruct (Hsafe Hs) as (-> & Hatt & Hterm).
        split_and!; [done | |].
        -- rewrite attemptedIds_app, Hatt. unfold attemptedIds.
           destruct Hshape1 as [-> | [-> | [-> | ->]]]; done.
        -- intros k Hk.
           destruct (decide (k ∈ map nodeId contexts)) as [Hkin|Hkn];
             [by apply Hterm|].
           apply elem_of_cons in Hk as [->|?]; [|done].
           rewrite Hkeep by done. done.
      * intros Hq. destruct (Hquiet Hq) as (outcomes & Hlen & Hall & Hev).
        destruct (Hquiet1 Hq) as [Hev1|Hev1].
        -- exists (EvFailed :: outcomes).
           split_and!; [simpl; by rewrite Hlen | constructor; auto |].
           rewrite eventsOf_app, Hev1, Hev. done.
        -- exists (EvSucceeded :: outcomes).
           split_and!; [simpl; by rewrite Hlen | constructor; auto |].
           rewrite eventsOf_app, Hev1, Hev. done.
    + exists (Abrupt err), s1, added1. split_and!.
      * done.
      * done.
      * done.
      * intros k Hk. apply not_elem_of_cons in Hk as [Hne Hk]. by apply Hkeep1.
      * intros Hs. by specialize (Hsafe1 Hs).
      * intros Hq. assert (Hs : listenerAcceptsFailures (config runner)).
        { intros l Hl ev w _. by apply (Hq l Hl). }
        by specialize (Hsafe1 Hs).
Qed.

(** The loop that initialises a pending result per planned node. *)
Lemma initResults_spec startedAt (contexts : list ExecutionContext) :
  ∀ s : @RunnerState World, ∃ s' : @RunnerState World,
    forEachM (λ context,
        modify (setResult (nodeId context)
                  (pendingResult (nodeId context) (Some startedAt)))) contexts s
      = (Normal tt, s') ∧
    trace s' = trace s ∧ world s' = world s.
Proof.
  induction contexts as [|context contexts IH]; intros s; simpl.
  - by exists s.
  - unfold bind at 1, modify at 1.
    destruct (IH (setResult (nodeId context)
                    (pendingResult (nodeId context) (Some startedAt)) s))
      as (s' & -> & Htr & Hw).
    by exists s'.
Qed.

(** The status [run] reports for a list of results. *)
Definition aggregateStatus (values : list RunResult) : RunStatus :=
  if existsb isError values then error else success.

Lemma aggregateStatus_error values :
  aggregateStatus values = error ↔ ∃ r, r ∈ values ∧ r_status r = error.
Proof.
  unfold aggregateStatus. destruct (existsb isError values) eqn:Hex.
  - split; [intros _|done]. apply existsb_exists in Hex as (r & Hr & Herr).
    exists r. split; [by apply list_elem_of_In|].
    unfold isError in Herr. by destruct (r_status r).
  - split; [done|]. intros (r & Hr & Herr). exfalso.
    assert (existsb isError values = true); [|congruence].
    apply existsb_exists. exists r. split; [by apply list_elem_of_In|].
    unfold isError. by rewrite Herr.
Qed.

Lemma aggregateStatus_success values :
  aggregateStatus values = success ↔ ∀ r, r ∈ values → r_status r ≠ error.
Proof.
  pose proof (aggregateStatus_error values) as Herr.
  unfold aggregateStatus in *. destruct (existsb isError values).
  - split; [done|]. intros Hall. destruct Herr as [Herr _].
    destruct (Herr eq_refl) as (r & Hr & Hs). by destruct (Hall r Hr).
  - split; [|done]. intros _ r Hr Hs. destruct Herr as [_ Herr].
    discriminate Herr. eauto.
Qed.

(** The [try] block of [run] on a valid plan. *)
Lemma orchestrate_valid plan startedAt s :
  valid plan = true →
  (∀ context, context ∈ plan_nodes plan →
              nodeId context ∈ map n_id (nodes (workflow runner))) →
  ∃ c s' added,
    orchestrate host runner plan startedAt s = (c, s') ∧
    trace s' = trace s ++ added ∧
    Forall notCancelled (eventsOf added) ∧
    (listenerAcceptsFailures (config runner) →
       ∃ execution, c = Normal execution ∧
         attemptedIds added = planOrder plan ∧
         x_status execution = aggregateStatus (results execution) ∧
         ∀ k, k ∈ planOrder plan →
              ∃ r, r ∈ results execution ∧ r_nodeId r = k ∧ terminal (r_status r)) ∧
    (quietListener (config runner) →
       ∃ outcomes,
         length outcomes = length (planOrder plan) ∧
         Forall (λ last, last = EvSucceeded ∨ last = EvFailed) outcomes ∧
         eventsOf added = concat (zip_with nodeEvents (planOrder plan) outcomes)).
Proof.
  intros Hvalid Hnodes. unfold orchestrate. rewrite Hvalid.
  unfold bind at 1.
  destruct (initResults_spec startedAt (plan_nodes plan) s) as (s0 & -> & Htr0 & Hw0).
  unfold bind at 1.
  destruct (executeNodes_spec (plan_nodes plan) Hnodes s0)
    as (c & s1 & added & -> & Htr & Hnc & Hkeep & Hsafe & Hquiet).
  destruct c as [[]|err].
  - unfold bind, gets, nowISO, ret. simpl.
    eexists _, s1, added. split; [reflexivity|].
    split_and!; [by rewrite Htr, Htr0 | done | | ].
    2:{ intros Hq. destruct (Hquiet Hq) as (outcomes & Hlen & Hall & Hev).
        exists outcomes. unfold planOrder. by rewrite length_map. }
    intros Hs. destruct (Hsafe Hs) as (_ & Hatt & Hterm).
    eexists. split; [reflexivity|]. simpl. split_and!; [done | done |].
    intros k Hk. destruct (Hterm k Hk) as (r & Hr & Hid & Ht).
    exists r. split_and!; [by eapply mapGet_elem | done | done].
  - exists (Abrupt err), s1, added. split; [done|].
    split_and!; [by rewrite Htr, Htr0 | done | | ].
    + intros Hs. by destruct (Hsafe Hs).
    + intros Hq. destruct (Hquiet Hq) as (outcomes & Hlen & Hall & Hev).
      exists outcomes. unfold planOrder. by rewrite length_map.
Qed.

(** The events of the [try] block of [run] on a valid plan, under a
    listener that returns normally from [queued] and [succeeded]. *)
Lemma orchestrate_events plan startedAt s :
  valid plan = true →
  (∀ context, context ∈ plan_nodes plan →
              nodeId context ∈ map n_id (nodes (workflow runner))) →
  listenerAcceptsProgress (config runner) →
  ∃ c s' added outcomes,
    orchestrate host runner plan startedAt s = (c, s') ∧
    trace s' = trace s ++ added ∧
    length outcomes ≤ length (planOrder plan) ∧
    Forall (λ last, last = EvSucceeded ∨ last = EvFailed) outcomes ∧
    eventsOf added = concat (zip_with nodeEvents (planOrder plan) outcomes) ∧
    (listenerAcceptsFailures (config runner) →
     length outcomes = length (planOrder plan)).
Proof.
  intros Hvalid Hnodes Hq. unfold orchestrate. rewrite Hvalid.
  unfold bind at 1.
  destruct (initResults_spec startedAt (plan_nodes plan) s) as (s0 & -> & Htr0 & Hw0).
  unfold bind at 1.
  destruct (executeNodes_events (plan_nodes plan) Hnodes Hq s0)
    as (c & s1 & added & outcomes & -> & Htr & Hlen & Hall & Hev & Hsafe).
  unfold planOrder. rewrite length_map.
  destruct c as [[]|err].
  - unfold bind, gets, nowISO, ret. simpl.
    eexists _, s1, added, outcomes. split; [reflexivity|].
    split_and!; [by rewrite Htr, Htr0 | done | done | done | done].
  - exists (Abrupt err), s1, added, outcomes. split; [done|].
    split_and!; [by rewrite Htr, Htr0 | done | done | done | done].
Qed.

(** The record returned when an exception escapes the [try] block. *)
Definition runnerFailureExecution (startedAt completedAt : string) (err : Thrown)
  : WorkflowExecution :=
  {| workflowId := m_id (metadata (workflow runner));
     executionId := runnerExecutionId runner;
     x_status := error;
     results := [runnerErrorResult startedAt completedAt err];
     x_startedAt := startedAt;
     x_completedAt := Some completedAt |}.

(** [run] in terms of its [try] block. *)
Lemma run_orchestrate plan s :
  buildExecutionPlan (workflow runner) = Some plan →
  let startedAt := toISOString host (dateNow host (world s)) in
  run host runner s
  = Some (match orchestrate host runner plan startedAt s with
          | (Normal execution, s') => (Normal execution, s')
          | (Abrupt err, s') =>
              (Normal (runnerFailureExecution startedAt
                         (toISOString host (dateNow host (world s'))) err), s')
          end).
Proof.
  intros Hplan. unfold run. rewrite Hplan. reflexivity.
Qed.

(** The record returned for a plan that is not valid. *)
Definition planFailureExecution (plan : ExecutionPlan) (now : string)
  : WorkflowExecution :=
  {| workflowId := m_id (metadata (workflow runner));
     executionId := runnerExecutionId runner;
     x_status := error;
     results := imap (planErrorResult now now) (errors plan);
     x_startedAt := now;
     x_completedAt := Some now |}.

Lemma run_invalid plan s :
  buildExecutionPlan (workflow runner) = Some plan →
  valid plan = false →
  run host runner s
  = Some (Normal (planFailureExecution plan
                    (toISOString host (dateNow host (world s)))), s).
Proof.
  intros Hplan Hvalid. rewrite (run_orchestrate plan s Hplan).
  unfold orchestrate. rewrite Hvalid. done.
Qed.

End RunnerFacts.

(* ===================================================================== *)
(** ** Validation *)
(* ===================================================================== *)

Lemma mapGet_pair {V} k (v : V) m : mapGet k m = Some v → (k, v) ∈ m.
Proof.
  induction m as [|[k' v'] m IH]; simpl; [done|].
  case_bool_decide as Hk.
  - intros [= ->]. subst k'. apply list_elem_of_here.
  - intros Hv. apply list_elem_of_further. by apply IH.
Qed.

Lemma elem_of_concat {A} (x : A) (ls : list (list A)) :
  x ∈ concat ls ↔ ∃ l, x ∈ l ∧ l ∈ ls.
Proof.
  induction ls as [|l ls IH]; simpl.
  - split; [intros Hx; by apply elem_of_nil in Hx|].
    intros (l & _ & Hl). by apply elem_of_nil in Hl.
  - rewrite elem_of_app, IH. split.
    + intros [Hx|(l' & Hx & Hl')].
      * exists l. split; [done | apply list_elem_of_here].
      * exists l'. split; [done | by apply list_elem_of_further].
    + intros (l' & Hx & Hl'). apply elem_of_cons in Hl' as [->|Hl']; [by left|].
      right. eauto.
Qed.

Lemma edgeMap_count (edges : list WorkflowEdge) key :
  ∀ m : list (string * Z),
    mapGet key
      (foldl (λ m edge,
                let key := edgeKey edge in
                mapSet key (default 0 (mapGet key m) + 1)%Z m) m edges)
    = if decide (keyCount edges key = 0) then mapGet key m
      else Some (default 0 (mapGet key m) + Z.of_nat (keyCount edges key))%Z.
Proof.
  unfold keyCount. induction edges as [|e edges IH]; intros m; simpl; [done|].
  rewrite IH, filter_cons. destruct (decide (edgeKey e = key)) as [<-|Hne].
  - rewrite mapGet_mapSet_eq. simpl.
    repeat case_decide; simpl in *; try lia; f_equal; lia.
  - rewrite mapGet_mapSet_ne by done. done.
Qed.

Lemma filter_two_positions {A} (P : A → Prop) `{∀ x, Decision (P x)} (l : list A) i j x y :
  i < j → l !! i = Some x → l !! j = Some y → P x → P y → 2 ≤ length (filter P l).
Proof.
  intros Hlt Hi Hj Hx Hy.
  rewrite <- (take_drop_middle l i x Hi), filter_app, filter_cons, decide_True by done.
  rewrite length_app. simpl.
  assert (Hy' : y ∈ filter P (drop (S i) l)).
  { apply list_elem_of_filter. split; [done|].
    apply list_elem_of_lookup. exists (j - S i).
    rewrite lookup_drop. replace (S i + (j - S i)) with j by lia. done. }
  destruct (filter P (drop (S i) l)); [by apply elem_of_nil in Hy' | simpl; lia].
Qed.

Lemma connectedNodes_spec (edges : list WorkflowEdge) x :
  ∀ s : gset string,
    x ∈ foldl (λ s edge, {[target edge]} ∪ ({[source edge]} ∪ s)) s edges ↔
    x ∈ s ∨ ∃ e, e ∈ edges ∧ (source e = x ∨ target e = x).
Proof.
  induction edges as [|e edges IH]; intros s; simpl.
  - split; [by left|]. intros [?|(e & He & _)]; [done | by apply elem_of_nil in He].
  - rewrite IH. rewrite !elem_of_union, !elem_of_singleton. split.
    + intros [[->|[->|?]]|(e' & He' & Hx)].
      * right. exists e. split; [apply list_elem_of_here | by right].
      * right. exists e. split; [apply list_elem_of_here | by left].
      * by left.
      * right. exists e'. split; [by apply list_elem_of_further | done].
    + intros [?|(e' & He' & Hx)]; [by left; right; right|].
      apply elem_of_cons in He' as [->|He'].
      * left. destruct Hx as [<-|<-]; auto.
      * right. eauto.
Qed.

(** C8: [validateWorkflowDAG] always returns; the result is valid exactly
    when its error list is empty.  Every edge endpoint that names no node
    yields a hard error.  A node touched by no edge yields a warning when
    (and only when) the workflow has more than one node, and two edges
    with the same source and target yield a warning for that pair.  The
    error list holds nothing but the cycle error and the dangling-endpoint
    errors, so warnings never bear on validity: a graph without a cycle
    whose edges join existing nodes is valid whatever its warnings. *)
Theorem validation_separates_errors_from_warnings
    (nodes : list WorkflowNode) (edges : list WorkflowEdge) :
  ∃ v,
    validateWorkflowDAG nodes edges = Some v ∧
    (v_valid v = true ↔ v_errors v = []) ∧
    (∀ e, e ∈ edges → source e ∉ map n_id nodes →
          ("Edge " +:+ e_id e +:+ " references non-existent source node: " +:+ source e)
          ∈ v_errors v) ∧
    (∀ e, e ∈ edges → target e ∉ map n_id nodes →
          ("Edge " +:+ e_id e +:+ " references non-existent target node: " +:+ target e)
          ∈ v_errors v) ∧
    (∀ e, e ∈ edges → source e ∉ map n_id nodes ∨ target e ∉ map n_id nodes →
          v_valid v = false) ∧
    (∀ n, n ∈ nodes → 1 < length nodes →
          (∀ e, e ∈ edges → source e ≠ n_id n ∧ target e ≠ n_id n) →
          isolatedWarning n ∈ v_warnings v) ∧
    (length nodes ≤ 1 → ∀ w, w ∈ v_warnings v → ∃ key, w = duplicateWarning key) ∧
    (∀ i j e1 e2, i < j → edges !! i = Some e1 → edges !! j = Some e2 →
                  source e1 = source e2 → target e1 = target e2 →
                  duplicateWarning (edgeKey e1) ∈ v_warnings v) ∧
    (detectCycle nodes edges = Some false →
     (∀ e, e ∈ edges → source e ∈ map n_id nodes ∧ target e ∈ map n_id nodes) →
     v_valid v = true).
Proof.
  unfold validateWorkflowDAG.
  destruct (detectCycle_total nodes edges) as [hasCycle Hdet]. rewrite Hdet. simpl.
  eexists. split; [reflexivity|]. simpl.
  set (ids := list_to_set (map n_id nodes) : gset string).
  assert (Hids : ∀ x, x ∈ ids ↔ x ∈ map n_id nodes)
    by (intros x; unfold ids; apply elem_of_list_to_set).
  split_and!.
  - rewrite bool_decide_eq_true. split.
    + intros Hlen. by apply nil_length_inv.
    + by intros ->.
  - intros e He Hs. apply elem_of_app. right.
    apply elem_of_concat. exists (orphanErrors ids e).
    split; [|apply list_elem_of_fmap; eauto].
    unfold orphanErrors. rewrite bool_decide_eq_false_2 by (by rewrite Hids).
    apply elem_of_app. left. apply list_elem_of_here.
  - intros e He Ht. apply elem_of_app. right.
    apply elem_of_concat. exists (orphanErrors ids e).
    split; [|apply list_elem_of_fmap; eauto].
    unfold orphanErrors. rewrite (bool_decide_eq_false_2 (target e ∈ ids)) by (by rewrite Hids).
    apply elem_of_app. right. apply list_elem_of_here.
  - intros e He Hdangling. apply bool_decide_eq_false. intros Hlen.
    apply nil_length_inv in Hlen. apply app_eq_nil in Hlen as [_ Hlen].
    assert (Hin : ∀ msg, msg ∈ orphanErrors ids e → False).
    { intros msg Hmsg.
      assert (Habs : msg ∈ concat (map (orphanErrors ids) edges)).
      { apply elem_of_concat. exists (orphanErrors ids e).
        split; [done | apply list_elem_of_fmap; eauto]. }
      rewrite Hlen in Habs. by apply elem_of_nil in Habs. }
    unfold orphanErrors in Hin. destruct Hdangling as [Hs|Ht].
    + rewrite bool_decide_eq_false_2 in Hin by (by rewrite Hids).
      eapply Hin. apply elem_of_app. left. apply list_elem_of_here.
    + rewrite (bool_decide_eq_false_2 (target e ∈ ids)) in Hin by (by rewrite Hids).
      eapply Hin. apply elem_of_app. right. apply list_elem_of_here.
  - intros n Hn Hlen Hiso. apply elem_of_app. left.
    apply list_elem_of_fmap. exists n. split; [done|].
    apply list_elem_of_filter. split; [|done]. split; [|done].
    rewrite connectedNodes_spec. intros [Hin|(e & He & Hx)]; [set_solver|].
    destruct (Hiso e He) as [? ?]. by destruct Hx.
  - intros Hlen w Hw. apply elem_of_app in Hw as [Hw|Hw].
    + apply list_elem_of_fmap in Hw as (n & -> & Hn).
      apply list_elem_of_filter in Hn as [[_ ?] _]. lia.
    + apply list_elem_of_fmap in Hw as ([key c] & -> & _). by exists key.
  - intros i j e1 e2 Hlt Hi Hj Hs Ht. apply elem_of_app. right.
    apply list_elem_of_fmap.
    exists (edgeKey e1, Z.of_nat (keyCount edges (edgeKey e1))). split; [done|].
    assert (Hcount : 2 ≤ keyCount edges (edgeKey e1)).
    { unfold keyCount.
      apply (filter_two_positions (λ e, edgeKey e = edgeKey e1) edges i j e1 e2);
        try done.
      unfold edgeKey. by rewrite Hs, Ht. }
    apply list_elem_of_filter. split; [simpl; lia|].
    apply mapGet_pair. rewrite edgeMap_count.
    rewrite decide_False by lia. simpl. f_equal; lia.
  - intros Hfalse Hends. assert (hasCycle = false) as -> by congruence.
    rewrite bool_decide_eq_true. simpl.
    assert (Hnil : concat (map (orphanErrors ids) edges) = []).
    { clear Hdet. induction edges as [|e edges' IH]; [done|]. simpl.
      rewrite IH by (intros e' He'; by apply Hends, list_elem_of_further).
      destruct (Hends e (list_elem_of_here _ _)) as [Hs Ht].
      unfold orphanErrors. by rewrite !bool_decide_eq_true_2 by (by rewrite Hids). }
    by rewrite Hnil.
Qed.

Lemma validateWorkflowDAG_cycle nodes edges :
  detectCycle nodes edges = Some true →
  ∃ v, validateWorkflowDAG nodes edges = Some v ∧
       v_valid v = false ∧ cycleError ∈ v_errors v.
Proof.
  intros Hdet. unfold validateWorkflowDAG. rewrite Hdet. simpl.
  eexists. split; [reflexivity|]. simpl. split; [done | apply list_elem_of_here].
Qed.

(* ===================================================================== *)
(** ** Input resolution *)
(* ===================================================================== *)

Lemma resolveNodeInputs_snoc context completedNodes edges e ports :
  resolveNodeInputs context completedNodes (edges ++ [e]) ports
  = if decide (target e = nodeId context)
    then resolveEdge completedNodes ports
           (resolveNodeInputs context completedNodes edges ports) e
    else resolveNodeInputs context completedNodes edges ports.
Proof.
  unfold resolveNodeInputs. rewrite filter_app, filter_cons, filter_nil.
  destruct (decide (target e = nodeId context)).
  - by rewrite foldl_app.
  - by rewrite app_nil_r.
Qed.

(** C4 (amended): for recorded outputs without an own property
    [__proto__] and port labels that are no inherited property names,
    [resolveNodeInputs] is a total function of its four
    arguments; it starts from the empty mapping and takes the edges in
    array order.  An edge that does not enter the node, or whose source has
    no recorded output, leaves the mapping as it is.  An edge that enters
    the node from a source with a recorded output and carries a non-empty
    target-port id naming a port with a non-empty label writes, under that
    label, the field of that name of the source output, or [null] when the
    output has no such field; when the id names no port of the list, or
    the port's label is empty, the edge leaves the mapping as it is.  Such
    an edge without a target-port id (an empty id counts as none) merges
    the whole source output into the mapping, its values replacing those
    of earlier edges on the same keys. *)
Theorem resolveNodeInputs_by_edge (context : ExecutionContext)
    (completedNodes : list NodeOutput) (ports : list PortDefinition) :
  plainRecords completedNodes ports →
  resolveNodeInputs context completedNodes [] ports = ∅ ∧
  (∀ edges e,
     target e ≠ nodeId context ∨ recordedOutput completedNodes (source e) = None →
     resolveNodeInputs context completedNodes (edges ++ [e]) ports
     = resolveNodeInputs context completedNodes edges ports) ∧
  (∀ edges e sourceNode portId port,
     target e = nodeId context →
     recordedOutput completedNodes (source e) = Some sourceNode →
     targetPort e = Some portId → portId ≠ "" →
     portOf ports portId = Some port → p_label port ≠ "" →
     resolveNodeInputs context completedNodes (edges ++ [e]) ports
     = <[p_label port := orNull (o_output sourceNode !! p_label port)]>
         (resolveNodeInputs context completedNodes edges ports) ∧
     (o_output sourceNode !! p_label port = None →
      resolveNodeInputs context completedNodes (edges ++ [e]) ports !! p_label port
      = Some JNull)) ∧
  (∀ edges e sourceNode portId,
     target e = nodeId context →
     recordedOutput completedNodes (source e) = Some sourceNode →
     targetPort e = Some portId → portId ≠ "" →
     portOf ports portId = None ∨
     (∃ port, portOf ports portId = Some port ∧ p_label port = "") →
     resolveNodeInputs context completedNodes (edges ++ [e]) ports
     = resolveNodeInputs context completedNodes edges ports) ∧
  (∀ edges e sourceNode,
     target e = nodeId context →
     recordedOutput completedNodes (source e) = Some sourceNode →
     targetPort e = None ∨ targetPort e = Some "" →
     resolveNodeInputs context completedNodes (edges ++ [e]) ports
     = o_output sourceNode ∪ resolveNodeInputs context completedNodes edges ports ∧
     (∀ key value, o_output sourceNode !! key = Some value →
        resolveNodeInputs context completedNodes (edges ++ [e]) ports !! key
        = Some value) ∧
     (∀ key, o_output sourceNode !! key = None →
        resolveNodeInputs context completedNodes (edges ++ [e]) ports !! key
        = resolveNodeInputs context completedNodes edges ports !! key)).
Proof.
  intros _. split_and!.
  - done.
  - intros edges e Hskip. rewrite resolveNodeInputs_snoc.
    destruct (decide (target e = nodeId context)) as [Ht|]; [|done].
    destruct Hskip as [?|Hnone]; [done|].
    unfold resolveEdge. unfold recordedOutput in Hnone. by rewrite Hnone.
  - intros edges e sourceNode portId port Ht Hout Hport Hne Hfind Hlabel.
    assert (Heq : resolveNodeInputs context completedNodes (edges ++ [e]) ports
                  = <[p_label port := orNull (o_output sourceNode !! p_label port)]>
                      (resolveNodeInputs context completedNodes edges ports)).
    { rewrite resolveNodeInputs_snoc, decide_True by done.
      unfold resolveEdge. unfold recordedOutput in Hout. rewrite Hout, Hport.
      unfold portOf in Hfind.
      destruct portId as [|c portId]; [done|]. simpl. rewrite Hfind.
      destruct (p_label port) as [|c' lbl] eqn:Hl; [done|]. done. }
    split; [done|]. intros Hmissing. by rewrite Heq, lookup_insert_eq, Hmissing.
  - intros edges e sourceNode portId Ht Hout Hport Hne Hbad.
    rewrite resolveNodeInputs_snoc, decide_True by done.
    unfold resolveEdge. unfold recordedOutput in Hout. rewrite Hout, Hport.
    unfold portOf in Hbad. destruct portId as [|c portId]; [done|]. simpl.
    destruct Hbad as [->|(port & -> & Hl)]; [done|]. by rewrite Hl.
  - intros edges e sourceNode Ht Hout Hport.
    assert (Heq : resolveNodeInputs context completedNodes (edges ++ [e]) ports
                  = o_output sourceNode
                    ∪ resolveNodeInputs context completedNodes edges ports).
    { rewrite resolveNodeInputs_snoc, decide_True by done.
      unfold resolveEdge. unfold recordedOutput in Hout. rewrite Hout.
      by destruct Hport as [-> | ->]. }
    split_and!; [done | |].
    + intros key value Hk. rewrite Heq. by apply lookup_union_Some_l.
    + intros key Hk. rewrite Heq. by apply lookup_union_r.
Qed.

(* ===================================================================== *)
(** ** Execution ids *)
(* ===================================================================== *)

Lemma append_nil (s : string) : "" +:+ s = s.
Proof. reflexivity. Qed.

Lemma append_cons c (s1 s2 : string) : String c s1 +:+ s2 = String c (s1 +:+ s2).
Proof. reflexivity. Qed.

Lemma dashFree_app s1 s2 : dashFree s1 → dashFree s2 → dashFree (s1 +:+ s2).
Proof.
  induction s1 as [|c s1 IH]; [by rewrite append_nil|].
  rewrite append_cons. simpl. intros [? ?] ?. auto.
Qed.

Lemma append_assoc (s1 s2 s3 : string) : (s1 +:+ s2) +:+ s3 = s1 +:+ (s2 +:+ s3).
Proof.
  induction s1 as [|c s1 IH]; [by rewrite !append_nil|].
  rewrite !append_cons. by f_equal.
Qed.

Lemma pretty_N_char_dashFree x : pretty_N_char x ≠ "-"%char.
Proof. unfold pretty_N_char. by repeat case_match. Qed.

(** The decimal digits that [pretty] puts in front of the accumulator. *)
Lemma pretty_N_go_dashFree x :
  ∀ s, ∃ digits, pretty_N_go x s = digits +:+ s ∧ dashFree digits.
Proof.
  induction (N.lt_wf_0 x) as [x _ IH]; intros s.
  assert (x = 0 ∨ 0 < x)%N as [->|Hpos] by lia.
  - exists "". by rewrite pretty_N_go_0, append_nil.
  - rewrite pretty_N_go_step by done.
    destruct (IH (x `div` 10)%N) with (s := String (pretty_N_char (x `mod` 10)) s)
      as (digits & -> & Hfree); [by apply N.div_lt|].
    exists (digits +:+ String (pretty_N_char (x `mod` 10)) "").
    split; [by rewrite append_assoc|].
    apply dashFree_app; [done|]. simpl. split; [apply pretty_N_char_dashFree | done].
Qed.

Lemma pretty_N_dashFree (n : N) : dashFree (pretty n).
Proof.
  unfold pretty, pretty_N. case_decide; [simpl; by split|].
  destruct (pretty_N_go_dashFree n "") as (digits & -> & Hfree).
  apply dashFree_app; done.
Qed.

(** Two texts with dash-free heads that agree after inserting a dash agree
    on both sides of it. *)
Lemma split_at_dash d1 : ∀ d2 r1 r2,
  dashFree d1 → dashFree d2 →
  d1 +:+ "-" +:+ r1 = d2 +:+ "-" +:+ r2 → d1 = d2 ∧ r1 = r2.
Proof.
  induction d1 as [|c d1 IH]; intros [|c' d2] r1 r2 H1 H2 Heq;
    rewrite ?append_nil, ?append_cons in Heq; simpl in *.
  - by injection Heq.
  - injection Heq as <- _. by destruct H2.
  - injection Heq as -> _. by destruct H1.
  - injection Heq as <- Heq. destruct H1, H2.
    destruct (IH d2 r1 r2) as [-> ->]; done.
Qed.

(** How far execution ids are unique: the id is a function of the clock
    reading and of the seven base-36 digits cut from the random draw, and
    is injective in that pair.  Two runners, whatever their workflows and
    configurations, have different execution ids exactly when they were
    constructed at different clock readings or their draws differ within
    those seven digits. *)
Lemma execution_ids_differ_iff {World : Type}
    (workflow1 workflow2 : Workflow) (config1 config2 : @RunnerConfig World)
    (now1 now2 : N) (random1 random2 : string) :
  getExecutionId (newRunner workflow1 config1 now1 random1)
  ≠ getExecutionId (newRunner workflow2 config2 now2 random2)
  ↔ now1 ≠ now2 ∨ String.substring 2 7 random1 ≠ String.substring 2 7 random2.
Proof.
  unfold getExecutionId, newRunner, generateExecutionId. simpl.
  split.
  - intros Hne.
    destruct (decide (now1 = now2)) as [->|?]; [|by left].
    right. intros Heq. apply Hne. by rewrite Heq.
  - intros Hdiff Heq. rewrite !append_cons, append_nil in Heq. injection Heq as Heq.
    apply split_at_dash in Heq as [Hnow Hrand]; [|apply pretty_N_dashFree..].
    apply (inj pretty) in Hnow. destruct Hdiff; done.
Qed.

(** C9: two runners for the same one-node workflow, constructed while the
    clock reads 1730000000000, the first with the random draw
    0.6024836597745677 and the second with 0.6024836597747898.  The
    base-36 texts of the draws differ from their tenth character on, the
    constructor keeps the characters 2 to 8, and both runners get the
    same execution id. *)
Lemma execution_ids_can_collide :
  "0.loth70bqdse" ≠ "0.loth70br0c8" ∧
  getExecutionId (newRunner singleNodeWorkflow defaultConfig
                    1730000000000%N "0.loth70bqdse")
  = "exec-1730000000000-loth70b" ∧
  getExecutionId (newRunner singleNodeWorkflow defaultConfig
                    1730000000000%N "0.loth70br0c8")
  = "exec-1730000000000-loth70b".
Proof. split; [discriminate | split; reflexivity]. Qed.

(* ===================================================================== *)
(** ** Example workflows *)
(* ===================================================================== *)

(** Settles a decidable proposition about concrete data by evaluation. *)
Ltac decide_by_computation :=
  apply (bool_decide_unpack _); vm_compute; exact I.

(** A ranking that increases along every edge rules out cycles. *)
Lemma acyclic_ranked edges (rank : string → nat) :
  Forall (λ e, rank (source e) < rank (target e)) edges → acyclic edges.
Proof.
  intros Hrank x Hcyc. unfold onCycle in Hcyc.
  assert (Hlt : ∀ u v, tc (edgeRel edges) u v → rank u < rank v).
  { induction 1 as [u v (e & He & <- & <-)|u w v (e & He & <- & <-) _ IH].
    - by eapply Forall_forall in Hrank.
    - eapply Forall_forall in Hrank; [|done]. simpl in Hrank. lia. }
  apply Hlt in Hcyc. lia.
Qed.

Lemma edges_Forall (edges : list WorkflowEdge) (P : WorkflowEdge → Prop) :
  Forall P edges → ∀ e, e ∈ edges → P e.
Proof. intros H e He. by eapply Forall_forall in H. Qed.

(* ===================================================================== *)
(** ** Planning *)
(* ===================================================================== *)

(** C1 (amended): for every acyclic workflow graph that meets the data-model
    invariants (unique node ids, edges between existing nodes),
    [buildExecutionPlan] returns a valid plan without errors that holds
    every node once and places the source of every edge strictly before
    its target.  Nodes without incoming edges come first, in node-array
    order (so nodes without any edge are planned in array order, [A, B]
    for the two-node example).  After the roots the order is that of the
    FIFO queue: a node whose dependencies are all among the first [k]
    planned nodes precedes every node that still waits for a dependency
    at that point; and of two nodes released by the same node [u], which
    is for both the dependency that is planned last, the one whose last
    edge from [u] comes first in the edge array is planned first,
    whatever their positions in the node array. *)
Theorem plan_respects_edges (workflow : Workflow) :
  wellFormed workflow →
  acyclic (edges workflow) →
  ∃ plan,
    buildExecutionPlan workflow = Some plan ∧
    valid plan = true ∧ errors plan = [] ∧
    planOrder plan ≡ₚ map n_id (nodes workflow) ∧
    (∀ e, e ∈ edges workflow → before (source e) (target e) (planOrder plan)) ∧
    (∃ rest, planOrder plan = rootIds (nodes workflow) (edges workflow) ++ rest) ∧
    (∀ a b k, a ∈ planOrder plan → b ∈ planOrder plan →
              ready (edges workflow) (take k (planOrder plan)) a →
              ¬ ready (edges workflow) (take k (planOrder plan)) b →
              before a b (planOrder plan)) ∧
    (∀ u a b, releasedBy (edges workflow) (planOrder plan) u a →
              releasedBy (edges workflow) (planOrder plan) u b →
              lastBefore (successors (edges workflow) u) a b →
              before a b (planOrder plan)) ∧
    (edges workflow = [] → planOrder plan = map n_id (nodes workflow)).
Proof.
  intros [Hnd Hends] Hacyc.
  destruct (topologicalSort_complete (nodes workflow) (edges workflow) Hnd)
    as (processed & rest & result & Hsort & Hids & Hperm & Hroots & Hpnd & Hmem
        & Hord & Hfifo); [by intros e [? _]%Hends | done |].
  destruct (buildExecutionPlan_sorted workflow result) as (plan & Hplan & Hv & He & _ & Hpo);
    [by apply detectCycle_acyclic | done |].
  assert (Hproc : planOrder plan = processed).
  { rewrite Hpo, Hids. apply filter_id. intros y Hy.
    apply Hmem in Hy as [?|Hy]; [done|].
    apply list_elem_of_fmap in Hy as (e & -> & He'). by apply Hends. }
  exists plan. rewrite Hproc. split_and!; try done.
  - by rewrite <- Hproc, Hpo.
  - intros e He'. assert (Ht : target e ∈ processed).
    { apply Hmem. left. by apply Hends. }
    apply list_elem_of_split in Ht as (l1 & l2 & Heq).
    rewrite Heq. apply before_middle. by apply (Hord l1 (target e) l2).
  - by exists rest.
  - intros a b k Ha Hb Hra Hrb.
    apply list_elem_of_split in Hb as (l1 & l2 & Heq).
    assert (Hcases : a ∈ l1 ∨ a = b ∨ a ∈ l2).
    { rewrite Heq in Ha. apply elem_of_app in Ha as [?|Ha]; [by left|].
      apply elem_of_cons in Ha as [?|?]; auto. }
    destruct Hcases as [Hin| [-> |Hin]].
    + rewrite Heq. by apply before_middle.
    + done.
    + destruct Hrb. apply (Hfifo l1 b l2 a (take k processed)); try done.
      apply prefix_take.
  - intros u a b [Hua Hlasta] [Hub Hlastb] Hlast.
    destruct (topologicalSort_released (nodes workflow) (edges workflow) Hnd)
      as (processed' & _ & Htracked & Hrel & Hsort').
    assert (Hsame : processed' = processed).
    { simpl in Hsort'. rewrite Hsort in Hsort'. injection Hsort' as Hres.
      case_bool_decide; [|done]. injection Hres as ->.
      rewrite <- Hproc, Hpo, omap_nodeMap_ids. symmetry. apply filter_id.
      intros y Hy. apply Htracked in Hy as [?|Hy]; [done|].
      apply list_elem_of_fmap in Hy as (e & -> & He'). by apply Hends. }
    subst processed'.
    assert (Hu : u ∈ processed).
    { apply Hmem. left. destruct Hua as (e & He' & <- & _). by apply Hends. }
    apply list_elem_of_split in Hu as (l1 & l2 & Heq).
    assert (Hzero : ∀ y, (∀ s, edgeRel (edges workflow) s y →
                               s = u ∨ before s u processed) →
                         remaining (edges workflow) (l1 ++ [u]) y = 0).
    { intros y Hy. apply remaining_zero. intros e He' Ht.
      destruct (Hy (source e)) as [->|Hbefore]; [by exists e | |].
      - apply elem_of_app. right. apply list_elem_of_here.
      - apply elem_of_app. left. rewrite Heq in Hbefore, Hpnd.
        by apply (before_NoDup_inv l1 l2 _ u). }
    apply (Hrel l1 u l2 a b Heq Hua); auto.
  - intros Hnil.
    assert (Hlen : length processed = length (map n_id (nodes workflow))).
    { rewrite <- Hproc, Hpo. by apply Permutation_length. }
    assert (Hr : rootIds (nodes workflow) (edges workflow) = map n_id (nodes workflow)).
    { unfold rootIds. rewrite Hnil. apply filter_id. intros y _. apply not_elem_of_nil. }
    rewrite Hroots, Hr in Hlen |- *. rewrite length_app in Hlen.
    destruct rest; [by rewrite app_nil_r | simpl in Hlen; lia].
Qed.

Lemma diamond_wellFormed : wellFormed diamondWorkflow.
Proof.
  split.
  - decide_by_computation.
  - apply edges_Forall. decide_by_computation.
Qed.

Lemma diamond_acyclic : acyclic (edges diamondWorkflow).
Proof.
  apply (acyclic_ranked _ (λ s, if bool_decide (s = "A") then 0
                                else if bool_decide (s = "D") then 2 else 1)).
  decide_by_computation.
Qed.

(** C1, witness: the diamond A -> {B, C} -> D is planned as [A, B, C, D]. *)
Lemma plan_respects_edges_witness :
  wellFormed diamondWorkflow ∧ acyclic (edges diamondWorkflow) ∧
  ∃ plan, buildExecutionPlan diamondWorkflow = Some plan ∧ valid plan = true ∧
          planOrder plan = ["A"; "B"; "C"; "D"] ∧
          ∀ e, e ∈ edges diamondWorkflow →
               before (source e) (target e) (planOrder plan).
Proof.
  split; [exact diamond_wellFormed|]. split; [exact diamond_acyclic|].
  destruct (plan_respects_edges diamondWorkflow diamond_wellFormed diamond_acyclic)
    as (plan & Hplan & Hvalid & _ & _ & Hbefore & _).
  exists plan. split; [exact Hplan|]. split; [exact Hvalid|]. split; [|exact Hbefore].
  vm_compute in Hplan. injection Hplan as <-. reflexivity.
Defined.

(** C1, counterexample: with nodes [A, B, C] and edges [A -> C, A -> B] the
    branches B and C have the same single dependency A, B comes before C in
    the node array, and the plan is [A, C, B]: the tie is broken by
    edge-array order, not by node-array position. *)
Lemma branch_ties_follow_edge_order :
  wellFormed branchWorkflow ∧ acyclic (edges branchWorkflow) ∧
  ∃ plan, buildExecutionPlan branchWorkflow = Some plan ∧ valid plan = true ∧
          planOrder plan = ["A"; "C"; "B"] ∧
          ¬ tiesByNodePosition branchWorkflow (planOrder plan).
Proof.
  split.
  { split.
    - decide_by_computation.
    - apply edges_Forall. decide_by_computation. }
  split.
  { apply (acyclic_ranked _ (λ s, if bool_decide (s = "A") then 0 else 1)).
    decide_by_computation. }
  eexists. split; [vm_compute; reflexivity|]. split; [done|]. split; [done|].
  intros Hties. specialize (Hties "B" "C").
  destruct Hties as (i & j & Hi & Hj & Hlt).
  - exists 1, 2. split_and!; [reflexivity | reflexivity | lia].
  - intros s. unfold edgeRel. split.
    + intros (e & He & Hs & Ht). exists (exampleEdge "A" "C").
      simpl in He. repeat (apply elem_of_cons in He as [->|He]); simpl in *;
        try discriminate; [| by apply elem_of_nil in He].
      subst s. split; [|done]. apply list_elem_of_here.
    + intros (e & He & Hs & Ht). exists (exampleEdge "A" "B").
      simpl in He. repeat (apply elem_of_cons in He as [->|He]); simpl in *;
        try discriminate; [| by apply elem_of_nil in He].
      subst s. split; [|done]. apply list_elem_of_further, list_elem_of_here.
  - unfold planOrder in Hi, Hj. simpl in Hi, Hj.
    destruct i as [|[|[|i]]]; simpl in Hi; try discriminate.
    destruct j as [|[|[|j]]]; simpl in Hj; try discriminate. lia.
Qed.

Lemma NoDup_fmap_eq {A} (f : A → string) (l : list A) x y :
  NoDup (map f l) → x ∈ l → y ∈ l → f x = f y → x = y.
Proof.
  induction l as [|a l IH]; simpl; intros Hnd Hx Hy Heq.
  - by apply elem_of_nil in Hx.
  - apply NoDup_cons in Hnd as [Ha Hnd].
    apply elem_of_cons in Hx as [->|Hx]; apply elem_of_cons in Hy as [->|Hy].
    + done.
    + destruct Ha. rewrite Heq. apply list_elem_of_fmap. eauto.
    + destruct Ha. rewrite <- Heq. apply list_elem_of_fmap. eauto.
    + by apply IH.
Qed.

(** C10 (amended): [buildExecutionPlan] checks no edge endpoint.  On an
    acyclic edge list over nodes with distinct ids, (a) an edge whose
    source names no node and is the target of no edge, and whose target is
    a node, makes the plan invalid with the single error
    [sortFailure], because that target never reaches in-degree zero; and
    (b) when every edge source is a node, edges whose targets name no node
    do no harm: the plan is valid and holds a context for every node. *)
Theorem plan_with_dangling_edges (workflow : Workflow) :
  NoDup (map n_id (nodes workflow)) →
  acyclic (edges workflow) →
  (∀ e, e ∈ edges workflow →
        source e ∉ map n_id (nodes workflow) →
        source e ∉ map target (edges workflow) →
        target e ∈ map n_id (nodes workflow) →
        buildExecutionPlan workflow
        = Some {| plan_nodes := []; valid := false; errors := [sortFailure] |}) ∧
  ((∀ e, e ∈ edges workflow → source e ∈ map n_id (nodes workflow)) →
   ∃ plan, buildExecutionPlan workflow = Some plan ∧
           valid plan = true ∧ errors plan = [] ∧
           planOrder plan ≡ₚ map n_id (nodes workflow) ∧
           ∀ n, n ∈ nodes workflow →
                ∃ context, context ∈ plan_nodes plan ∧ node context = n ∧
                           nodeId context = n_id n).
Proof.
  intros Hnd Hacyc. split.
  - intros e He Hs1 Hs2 Ht. apply buildExecutionPlan_unsorted.
    + by apply detectCycle_acyclic.
    + by eapply topologicalSort_dangling_source.
  - intros Hsrc.
    destruct (topologicalSort_complete (nodes workflow) (edges workflow) Hnd Hsrc Hacyc)
      as (processed & rest & result & Hsort & Hids & Hperm & _).
    destruct (buildExecutionPlan_sorted workflow result)
      as (plan & Hplan & Hv & He & Hnodes & Hpo);
      [by apply detectCycle_acyclic | done |].
    exists plan. split_and!; try done; [by rewrite Hpo|].
    intros n Hn.
    assert (Hid : n_id n ∈ planOrder plan).
    { rewrite Hpo, Hperm. apply list_elem_of_fmap. eauto. }
    apply list_elem_of_fmap in Hid as (context & Hid & Hc).
    exists context.
    destruct (proj2 (buildExecutionPlan_contexts workflow plan Hplan) context Hc)
      as [Hin Hcid].
    split_and!; [done | | done].
    apply (NoDup_fmap_eq n_id (nodes workflow)); [done | done | done |]. congruence.
Qed.

(** C10, witness: the edge X -> B from an id that is no node and no
    target blocks B; the edge A -> Y to an id that is no node is harmless. *)
Lemma plan_with_dangling_edges_witness :
  buildExecutionPlan danglingSourceWorkflow
  = Some {| plan_nodes := []; valid := false; errors := [sortFailure] |} ∧
  ∃ plan,
    buildExecutionPlan danglingTargetWorkflow = Some plan ∧
    valid plan = true ∧ planOrder plan = ["A"; "B"].
Proof.
  split.
  - refine (proj1 (plan_with_dangling_edges danglingSourceWorkflow _ _)
                  (exampleEdge "X" "B") _ _ _ _).
    + decide_by_computation.
    + apply (acyclic_ranked _ (λ s, if bool_decide (s = "X") then 0 else 1)).
      decide_by_computation.
    + apply list_elem_of_here.
    + decide_by_computation.
    + decide_by_computation.
    + decide_by_computation.
  - assert (Hnd : NoDup (map n_id (nodes danglingTargetWorkflow)))
      by decide_by_computation.
    assert (Hacyc : acyclic (edges danglingTargetWorkflow)).
    { apply (acyclic_ranked _ (λ s, if bool_decide (s = "A") then 0 else 1)).
      decide_by_computation. }
    destruct (proj2 (plan_with_dangling_edges danglingTargetWorkflow Hnd Hacyc))
      as (plan & Hplan & Hv & _).
    + apply edges_Forall. decide_by_computation.
    + exists plan. split; [exact Hplan|]. split; [exact Hv|].
      vm_compute in Hplan. injection Hplan as <-. reflexivity.
Defined.

(** C10, counterexample: with nodes [A, B] and edges [A -> X, X -> B] the
    edge X -> B starts at an id that names no node and the edge list is
    acyclic, yet the plan is valid: X enters the queue once A is done and
    releases B. *)
Lemma dangling_source_still_planned :
  NoDup (map n_id (nodes danglingChainWorkflow)) ∧
  acyclic (edges danglingChainWorkflow) ∧
  (∃ e, e ∈ edges danglingChainWorkflow ∧
        source e ∉ map n_id (nodes danglingChainWorkflow)) ∧
  ∃ plan, buildExecutionPlan danglingChainWorkflow = Some plan ∧
          valid plan = true ∧ errors plan = [] ∧ planOrder plan = ["A"; "B"].
Proof.
  split; [decide_by_computation|]. split.
  { apply (acyclic_ranked _ (λ s, if bool_decide (s = "A") then 0
                                  else if bool_decide (s = "X") then 1 else 2)).
    decide_by_computation. }
  split.
  { exists (exampleEdge "X" "B"). split; [|decide_by_computation].
    apply list_elem_of_further, list_elem_of_here. }
  eexists. split; [vm_compute; reflexivity|]. done.
Qed.

(* ===================================================================== *)
(** ** Running a workflow *)
(* ===================================================================== *)

Section RunClaims.

Context {World : Type}.
Variable host : @Host World.
Variable runner : @WorkflowRunner World.

(** C2: when a node of the workflow lies on a cycle (a self-loop is a
    cycle of one edge), [detectCycle] returns [true], the validator
    reports the cycle, [buildExecutionPlan] returns an invalid plan
    whose only error is the cycle message, and [run] returns status
    [error] and leaves the runner state, hence the trace of events and
    executor invocations, untouched. *)
Theorem cycle_is_rejected (s : RunnerState) (x : string) :
  x ∈ map n_id (nodes (workflow runner)) →
  onCycle (edges (workflow runner)) x →
  detectCycle (nodes (workflow runner)) (edges (workflow runner)) = Some true ∧
  (∃ v, validateWorkflowDAG (nodes (workflow runner)) (edges (workflow runner))
        = Some v ∧ v_valid v = false ∧ cycleError ∈ v_errors v) ∧
  (∃ cycle, buildExecutionPlan (workflow runner)
            = Some {| plan_nodes := []; valid := false;
                      errors := [cycleMessage (Some cycle)] |}) ∧
  ∃ execution s',
    run host runner s = Some (Normal execution, s') ∧
    x_status execution = error ∧
    trace s' = trace s ∧ world s' = world s.
Proof.
  intros Hx Hcyc.
  assert (Hdet : detectCycle (nodes (workflow runner)) (edges (workflow runner))
                 = Some true) by by eapply detectCycle_cycle.
  destruct (buildExecutionPlan_cycle (workflow runner) Hdet) as [cycle Hplan].
  split_and!; [done | by apply validateWorkflowDAG_cycle | by exists cycle |].
  eexists _, s. split; [by apply (run_invalid host runner _ s Hplan)|]. done.
Qed.

(** C5: when the plan is invalid, [run] returns at once with status
    [error] and one synthetic result per planning error, in order, each
    with status [error], error code [PLAN_ERROR] and the error string as
    message; the runner state is returned unchanged, so no event was
    emitted and no executor invoked. *)
Theorem invalid_plan_gives_plan_errors (plan : ExecutionPlan) (s : RunnerState) :
  buildExecutionPlan (workflow runner) = Some plan →
  valid plan = false →
  ∃ execution s',
    run host runner s = Some (Normal execution, s') ∧
    trace s' = trace s ∧ world s' = world s ∧
    x_status execution = error ∧
    length (results execution) = length (errors plan) ∧
    ∀ i err, errors plan !! i = Some err →
      ∃ r, results execution !! i = Some r ∧
           r_nodeId r = "error-" +:+ pretty i ∧
           r_status r = error ∧
           r_error r = Some {| message := err; code := Some "PLAN_ERROR";
                               details := None |}.
Proof.
  intros Hplan Hvalid. eexists _, s. split; [by apply run_invalid|]. simpl.
  split_and!; [done | done | done | by rewrite length_imap |].
  intros i err Hi. eexists. split.
  - rewrite list_lookup_imap, Hi. reflexivity.
  - done.
Qed.

(** C3 (amended): on a valid plan, whatever the executors do (resolve,
    reject, time out, or be missing), as long as the listener does not
    raise on a [failed] event, [run] attempts every planned node in plan
    order, leaves a [success] or [error] result for each, and reports
    [error] exactly when some result has status [error], [success]
    otherwise. *)
Theorem node_failures_do_not_stop_the_run (plan : ExecutionPlan) (s : RunnerState) :
  buildExecutionPlan (workflow runner) = Some plan →
  valid plan = true →
  listenerAcceptsFailures (config runner) →
  ∃ execution s' added,
    run host runner s = Some (Normal execution, s') ∧
    trace s' = trace s ++ added ∧
    attemptedIds added = planOrder plan ∧
    (∀ k, k ∈ planOrder plan →
          ∃ r, r ∈ results execution ∧ r_nodeId r = k ∧ terminal (r_status r)) ∧
    (x_status execution = error ↔
     ∃ r, r ∈ results execution ∧ r_status r = error) ∧
    (x_status execution = success ↔
     ∀ r, r ∈ results execution → r_status r ≠ error).
Proof.
  intros Hplan Hvalid Hsafe.
  destruct (orchestrate_valid host runner plan
              (toISOString host (dateNow host (world s))) s Hvalid
              (planOrder_nodes _ _ Hplan))
    as (c & s' & added & Horch & Htr & _ & Hs & _).
  destruct (Hs Hsafe) as (execution & -> & Hatt & Hstatus & Hterm).
  exists execution, s', added.
  rewrite (run_orchestrate host runner plan s Hplan). simpl. rewrite Horch.
  split_and!; try done.
  - rewrite Hstatus. apply aggregateStatus_error.
  - rewrite Hstatus. apply aggregateStatus_success.
Qed.

(** C6: [run] never raises.  It always returns an execution record for
    the runner's workflow and execution id, with a completion time; and
    when an exception escapes the orchestration itself the record has
    status [error] and the single result [runner] with code
    [RUNNER_ERROR] and the message of the exception. *)
Theorem run_never_throws (s : RunnerState) :
  ∃ execution s',
    run host runner s = Some (Normal execution, s') ∧
    workflowId execution = m_id (metadata (workflow runner)) ∧
    executionId execution = getExecutionId runner ∧
    is_Some (x_completedAt execution) ∧
    ∀ plan err s1,
      buildExecutionPlan (workflow runner) = Some plan →
      orchestrate host runner plan (toISOString host (dateNow host (world s))) s
        = (Abrupt err, s1) →
      x_status execution = error ∧
      ∃ r, results execution = [r] ∧ r_nodeId r = "runner" ∧ r_status r = error ∧
           r_error r = Some {| message := errorMessageOf err;
                               code := Some "RUNNER_ERROR"; details := None |}.
Proof.
  destruct (buildExecutionPlan_total (workflow runner)) as [plan Hplan].
  rewrite (run_orchestrate host runner plan s Hplan). simpl.
  destruct (orchestrate host runner plan _ s) as [[execution|err] s'] eqn:Horch.
  - exists execution, s'. split; [done|].
    assert (Hfields : workflowId execution = m_id (metadata (workflow runner)) ∧
                      executionId execution = getExecutionId runner ∧
                      is_Some (x_completedAt execution)).
    { unfold orchestrate in Horch. destruct (valid plan).
      - unfold bind in Horch.
        destruct (forEachM _ _ s) as [[[]|] s0]; [|done].
        destruct (forEachM _ _ s0) as [[[]|] s1]; [|done].
        injection Horch as <- <-. simpl. eauto.
      - injection Horch as <- <-. simpl. eauto. }
    destruct Hfields as (? & ? & ?). split_and!; try done.
    intros plan' err s1 Hplan' Horch'. congruence.
  - eexists _, s'. split; [done|]. simpl. split_and!; [done | done | eauto |].
    intros plan' err' s1 Hplan' Horch'.
    assert (plan' = plan) as -> by congruence.
    rewrite Horch in Horch'. injection Horch' as <- <-.
    split; [done|]. eexists. split; [reflexivity|]. done.
Qed.

(** C7 (amended): no [cancelled] event is ever emitted, whatever the
    listener does; and when the listener returns normally from every
    [queued] and every [succeeded] event, the events of a run are, node
    after node in plan order, [queued], [running] and then exactly one of
    [succeeded] and [failed], for the nodes that are attempted: these are
    a prefix of the plan, and all of it unless the listener raises on a
    [failed] event. *)
Theorem events_follow_node_lifecycle (s : RunnerState) :
  ∃ plan execution s' added,
    buildExecutionPlan (workflow runner) = Some plan ∧
    run host runner s = Some (Normal execution, s') ∧
    trace s' = trace s ++ added ∧
    Forall notCancelled (eventsOf added) ∧
    (listenerAcceptsProgress (config runner) →
     ∃ outcomes,
       length outcomes ≤ length (planOrder plan) ∧
       Forall (λ last, last = EvSucceeded ∨ last = EvFailed) outcomes ∧
       eventsOf added = concat (zip_with nodeEvents (planOrder plan) outcomes) ∧
       (listenerAcceptsFailures (config runner) →
        length outcomes = length (planOrder plan))).
Proof.
  destruct (buildExecutionPlan_total (workflow runner)) as [plan Hplan].
  exists plan. rewrite (run_orchestrate host runner plan s Hplan). simpl.
  destruct (valid plan) eqn:Hvalid.
  - destruct (orchestrate_valid host runner plan
                (toISOString host (dateNow host (world s))) s Hvalid
                (planOrder_nodes _ _ Hplan))
      as (c & s' & added & Horch & Htr & Hnc & _ & _).
    assert (Hlife : listenerAcceptsProgress (config runner) →
              ∃ outcomes,
                length outcomes ≤ length (planOrder plan) ∧
                Forall (λ last, last = EvSucceeded ∨ last = EvFailed) outcomes ∧
                eventsOf added = concat (zip_with nodeEvents (planOrder plan) outcomes) ∧
                (listenerAcceptsFailures (config runner) →
                 length outcomes = length (planOrder plan))).
    { intros Hq.
      destruct (orchestrate_events host runner plan
                  (toISOString host (dateNow host (world s))) s Hvalid
                  (planOrder_nodes _ _ Hplan) Hq)
        as (c2 & s2 & added2 & outcomes & Horch2 & Htr2 & Hlen & Hall & Hev & Hsafe).
      rewrite Horch in Horch2. injection Horch2 as <- <-.
      rewrite Htr in Htr2. apply app_inv_head in Htr2 as <-.
      by exists outcomes. }
    rewrite Horch. destruct c as [execution|err].
    + by exists execution, s', added.
    + by eexists _, s', added.
  - pose proof (proj1 (buildExecutionPlan_contexts _ _ Hplan) Hvalid) as Hnil.
    unfold orchestrate. rewrite Hvalid. simpl.
    eexists _, s, []. rewrite app_nil_r. split_and!; try done.
    intros _. exists []. unfold planOrder. rewrite Hnil.
    split_and!; [done | constructor | done | done].
Qed.

End RunClaims.

(** C2, witness: the single node A with the self-loop A -> A. *)
Lemma cycle_is_rejected_witness :
  detectCycle (nodes selfLoopWorkflow) (edges selfLoopWorkflow) = Some true ∧
  ∃ execution s',
    run exampleHost (exampleRunner selfLoopWorkflow None) (freshState 0)
    = Some (Normal execution, s') ∧
    x_status execution = error ∧ trace s' = [].
Proof.
  destruct (cycle_is_rejected exampleHost (exampleRunner selfLoopWorkflow None)
              (freshState 0) "A")
    as (Hdet & _ & _ & execution & s' & Hrun & Hstatus & Htrace & _).
  - apply list_elem_of_here.
  - apply tc_once. exists (exampleEdge "A" "A"). split; [apply list_elem_of_here | done].
  - split; [exact Hdet|]. exists execution, s'. auto.
Defined.

(** C5, witness: the self-loop workflow has one planning error, hence one
    synthetic result [error-0]. *)
Lemma invalid_plan_gives_plan_errors_witness :
  ∃ execution s',
    run exampleHost (exampleRunner selfLoopWorkflow None) (freshState 0)
    = Some (Normal execution, s') ∧
    trace s' = [] ∧
    map r_nodeId (results execution) = ["error-0"] ∧
    x_status execution = error.
Proof.
  destruct (invalid_plan_gives_plan_errors exampleHost
              (exampleRunner selfLoopWorkflow None)
              {| plan_nodes := []; valid := false;
                 errors := ["Workflow contains a cycle: A -> A"] |}
              (freshState 0))
    as (execution & s' & Hrun & Htrace & _ & Hstatus & Hlen & Hres).
  - vm_compute. reflexivity.
  - reflexivity.
  - exists execution, s'. split; [exact Hrun|]. split; [exact Htrace|].
    split; [|exact Hstatus].
    destruct (Hres 0 _ eq_refl) as (r & Hr & Hid & _).
    destruct (results execution) as [|r0 [|r1 rs]]; try discriminate Hlen.
    injection Hr as ->. simpl. f_equal. exact Hid.
Defined.

(** C3, witness: A fails and B, which depends on A, is still attempted;
    the run reports [error]. *)
Lemma node_failures_do_not_stop_the_run_witness :
  ∃ execution s',
    run exampleHost (exampleRunner failingFirstWorkflow None) (freshState 0)
    = Some (Normal execution, s') ∧
    attemptedIds (trace s') = ["A"; "B"] ∧
    map (λ r, (r_nodeId r, r_status r)) (results execution)
    = [("A", error); ("B", success)] ∧
    x_status execution = error.
Proof.
  assert (Hplan : ∃ plan,
            buildExecutionPlan (workflow (exampleRunner failingFirstWorkflow None))
            = Some plan ∧ valid plan = true ∧ planOrder plan = ["A"; "B"]).
  { eexists. split; [vm_compute; reflexivity|]. split; reflexivity. }
  destruct Hplan as (plan & Hplan & Hvalid & Horder).
  destruct (node_failures_do_not_stop_the_run exampleHost
              (exampleRunner failingFirstWorkflow None) plan (freshState 0)
              Hplan Hvalid)
    as (execution & s' & added & Hrun & Htrace & Hatt & _ & Herr & _).
  - intros listener Hl. discriminate Hl.
  - exists execution, s'. split; [exact Hrun|].
    split; [rewrite Htrace; simpl; rewrite Hatt; exact Horder|].
    vm_compute in Hrun. injection Hrun as <- _. split; reflexivity.
Defined.

(** C6, witness: A fails and the listener raises on the [failed] event;
    the exception escapes the loop and [run] still returns, with the
    single [runner] result. *)
Lemma run_never_throws_witness :
  ∃ execution s',
    run exampleHost (exampleRunner failingFirstWorkflow (Some (throwingOn EvFailed)))
        (freshState 0)
    = Some (Normal execution, s') ∧
    x_status execution = error ∧
    map (λ r, (r_nodeId r, code <$> r_error r)) (results execution)
    = [("runner", Some (Some "RUNNER_ERROR"))] ∧
    attemptedIds (trace s') = ["A"].
Proof.
  destruct (run_never_throws exampleHost
              (exampleRunner failingFirstWorkflow (Some (throwingOn EvFailed)))
              (freshState 0))
    as (execution & s' & Hrun & _ & _ & _ & Hescape).
  exists execution, s'. split; [exact Hrun|].
  edestruct Hescape as (Hstatus & r & Hr & Hid & _ & Herr).
  - vm_compute. reflexivity.
  - vm_compute. reflexivity.
  - split; [exact Hstatus|]. rewrite Hr. simpl. rewrite Hid, Herr.
    split; [reflexivity|].
    vm_compute in Hrun. injection Hrun as _ <-. reflexivity.
Defined.

(** C7, witness: a listener that raises on every [running] event.  A and
    B are both attempted, and for each the listener is handed [queued],
    [running] and then [failed], never [cancelled]. *)
Lemma events_follow_node_lifecycle_witness :
  listenerAcceptsProgress
    (config (exampleRunner failingFirstWorkflow (Some (throwingOn EvRunning)))) ∧
  ∃ execution s' outcomes,
    run exampleHost (exampleRunner failingFirstWorkflow (Some (throwingOn EvRunning)))
        (freshState 0)
    = Some (Normal execution, s') ∧
    Forall notCancelled (eventsOf (trace s')) ∧
    outcomes = [EvFailed; EvFailed] ∧
    eventsOf (trace s') = concat (zip_with nodeEvents ["A"; "B"] outcomes).
Proof.
  assert (Hprogress : listenerAcceptsProgress
            (config (exampleRunner failingFirstWorkflow (Some (throwingOn EvRunning))))).
  { intros listener Hl ev w Hst. injection Hl as <-. unfold throwingOn. simpl.
    destruct Hst as [-> | ->]; reflexivity. }
  assert (Hfailures : listenerAcceptsFailures
            (config (exampleRunner failingFirstWorkflow (Some (throwingOn EvRunning))))).
  { intros listener Hl ev w Hst. injection Hl as <-. unfold throwingOn. simpl.
    rewrite Hst. reflexivity. }
  split; [exact Hprogress|].
  destruct (events_follow_node_lifecycle exampleHost
              (exampleRunner failingFirstWorkflow (Some (throwingOn EvRunning)))
              (freshState 0))
    as (plan & execution & s' & added & Hplan & Hrun & Htrace & Hnc & Hlife).
  destruct (Hlife Hprogress) as (outcomes & _ & Hout & Hev & Hall).
  pose proof (Hall Hfailures) as Hlen.
  simpl in Htrace. rewrite <- Htrace in Hnc, Hev.
  vm_compute in Hplan. injection Hplan as <-.
  destruct outcomes as [|o1 [|o2 [|o3 outcomes]]]; try discriminate Hlen.
  exists execution, s', [o1; o2]. split; [exact Hrun|]. split; [exact Hnc|].
  split; [|exact Hev].
  vm_compute in Hrun. injection Hrun as _ <-.
  vm_compute in Hev. injection Hev as <- <-. reflexivity.
Defined.

(** C7, counterexample: the executor of the single node A succeeds and the
    listener raises when handed [succeeded]; the exception lands in the
    [catch] block of [executeNode], which records an error and emits
    [failed], so the listener is handed both terminal events for A. *)
Lemma succeeded_then_failed :
  ∃ execution s',
    run exampleHost (exampleRunner singleNodeWorkflow (Some (throwingOn EvSucceeded)))
        (freshState 0)
    = Some (Normal execution, s') ∧
    eventsOf (trace s')
    = [("A", EvQueued); ("A", EvRunning); ("A", EvSucceeded); ("A", EvFailed)] ∧
    invocationsOf (trace s') = ["A"] ∧
    x_status execution = error.
Proof.
  eexists _, _. split; [vm_compute; reflexivity|]. split_and!; reflexivity.
Qed.

(** C4, witness: sources A and B both feed C without port scoping; the
    inputs of C hold [value1] from A and [value2] from B. *)
Lemma resolveNodeInputs_by_edge_witness :
  resolveNodeInputs (joinContext (exampleNode "C" "text")) [firstOutput; secondOutput]
    [exampleEdge "A" "C"; exampleEdge "B" "C"] [] !! "value1" = Some (JStr "first") ∧
  resolveNodeInputs (joinContext (exampleNode "C" "text")) [firstOutput; secondOutput]
    [exampleEdge "A" "C"; exampleEdge "B" "C"] [] !! "value2" = Some (JStr "second").
Proof.
  destruct (resolveNodeInputs_by_edge (joinContext (exampleNode "C" "text"))
              [firstOutput; secondOutput] [])
    as (_ & _ & _ & _ & Hmerge).
  { split; [repeat constructor | constructor]. }
  destruct (Hmerge [exampleEdge "A" "C"] (exampleEdge "B" "C") secondOutput
              eq_refl eq_refl (or_introl eq_refl)) as (_ & Hnew & Hold).
  destruct (Hmerge [] (exampleEdge "A" "C") firstOutput eq_refl eq_refl
              (or_introl eq_refl))
    as (_ & Hfirst & _).
  split.
  - etransitivity; [apply Hold; reflexivity|]. apply Hfirst. reflexivity.
  - apply Hnew. reflexivity.
Defined.

(** C4, counterexample: the edge A -> C carries the target-port id [p1]
    and A has a recorded output.  With a port list that holds no port
    [p1], and likewise with a port [p1] whose label is empty, nothing is
    written: the inputs of C stay empty. *)
Lemma unresolved_port_contributes_nothing :
  recordedOutput [firstOutput] "A" = Some firstOutput ∧
  resolveNodeInputs (joinContext (exampleNode "C" "text")) [firstOutput]
    [scopedEdge "A" "C" "p1"] [] = ∅ ∧
  resolveNodeInputs (joinContext (exampleNode "C" "text")) [firstOutput]
    [scopedEdge "A" "C" "p1"] [inputPort "p1" "C" ""] = ∅.
Proof. split_and!; reflexivity. Qed.

(** C3, counterexample: A fails and the listener raises when handed the
    [failed] event of A.  The plan is [A, B], yet B is never attempted:
    only A is queued and invoked, and the returned results hold the single
    [runner] entry. *)
Lemma raising_listener_stops_the_run :
  ∃ plan execution s',
    buildExecutionPlan failingFirstWorkflow = Some plan ∧
    valid plan = true ∧ planOrder plan = ["A"; "B"] ∧
    run exampleHost (exampleRunner failingFirstWorkflow (Some (throwingOn EvFailed)))
        (freshState 0)
    = Some (Normal execution, s') ∧
    attemptedIds (trace s') = ["A"] ∧
    invocationsOf (trace s') = ["A"] ∧
    map r_nodeId (results execution) = ["runner"].
Proof.
  eexists _, _, _. split; [vm_compute; reflexivity|].
  split; [reflexivity|]. split; [reflexivity|].
  split; [vm_compute; reflexivity|]. split_and!; reflexivity.
Qed.

(* ===================================================================== *)
(** ** Cycle detection: what is found and what is missed *)
(* ===================================================================== *)

Section DepthFirstReach.

Variable edges : list WorkflowEdge.
Variable adjacency : gmap string (list string).
Hypothesis adjacency_lookup :
  ∀ x, default [] (adjacency !! x) = successors edges x.

Local Abbreviation R := (edgeRel edges).

(** A call that reports a cycle was made on an id from which a cycle can
    be reached; a call that reports none hands the recursion stack back
    as it got it. *)
Definition visitReach (visit : string → DfsState → option (bool * DfsState))
    (x : string) : Prop :=
  ∀ st b st', (∀ s, s ∈ recursionStack st → tc R s x) →
    visit x st = Some (b, st') →
    if b then ∃ c, rtc R x c ∧ onCycle edges c
    else recursionStack st' = recursionStack st.

Lemma anyCycle_reach visit xs :
  (∀ x, x ∈ xs → visitReach visit x) →
  ∀ st b st', (∀ s x, s ∈ recursionStack st → x ∈ xs → tc R s x) →
    anyCycle visit xs st = Some (b, st') →
    if b then ∃ x c, x ∈ xs ∧ rtc R x c ∧ onCycle edges c
    else recursionStack st' = recursionStack st.
Proof.
  induction xs as [|x xs IH]; intros Hvisit st b st' Hstack Hrun; simpl in Hrun.
  - by injection Hrun as <- <-.
  - destruct (visit x st) as [[[] st1]|] eqn:Hx; [| |done].
    + injection Hrun as <- <-.
      apply (Hvisit x (list_elem_of_here _ _)) in Hx as (c & ? & ?).
      * exists x, c. split; [apply list_elem_of_here | done].
      * intros s Hs. apply Hstack; [done | apply list_elem_of_here].
    + apply (Hvisit x (list_elem_of_here _ _)) in Hx as Hsame.
      2:{ intros s Hs. apply Hstack; [done | apply list_elem_of_here]. }
      apply IH in Hrun.
      * destruct b; [|congruence].
        destruct Hrun as (y & c & Hy & ?). exists y, c.
        split; [by apply list_elem_of_further | done].
      * intros y Hy. apply Hvisit. by apply list_elem_of_further.
      * intros s y Hs Hy. rewrite Hsame in Hs.
        apply Hstack; [done | by apply list_elem_of_further].
Qed.

Lemma hasCycleUtil_reach fuel : ∀ x, visitReach (hasCycleUtil fuel adjacency) x.
Proof.
  induction fuel as [|fuel IH]; intros x st b st' Hstack Hrun; [done|].
  simpl in Hrun.
  case_bool_decide as HxS.
  { injection Hrun as <- <-. exists x. split; [apply rtc_refl | by apply Hstack]. }
  case_bool_decide as HxV.
  { by injection Hrun as <- <-. }
  rewrite adjacency_lookup in Hrun.
  destruct (anyCycle _ _ _) as [[[] st2]|] eqn:Hloop; [| |done].
  - injection Hrun as <- <-.
    apply (anyCycle_reach _ _ (λ z _, IH z)) in Hloop as (z & c & Hz & Hzc & Hc).
    + exists c. split; [|done]. apply elem_of_successors in Hz.
      by eapply rtc_l.
    + simpl. intros s z Hs Hz. apply elem_of_successors in Hz.
      apply elem_of_union in Hs as [Hs|Hs].
      * apply elem_of_singleton in Hs as ->. by apply tc_once.
      * eapply tc_r; [by apply Hstack | done].
  - injection Hrun as <- <-. simpl.
    apply (anyCycle_reach _ _ (λ z _, IH z)) in Hloop.
    + rewrite Hloop. simpl. set_solver.
    + simpl. intros s z Hs Hz. apply elem_of_successors in Hz.
      apply elem_of_union in Hs as [Hs|Hs].
      * apply elem_of_singleton in Hs as ->. by apply tc_once.
      * eapply tc_r; [by apply Hstack | done].
Qed.

End DepthFirstReach.

(** [detectCycle] returns [true] exactly when a cycle can be reached from
    some node along the edges; a cycle among ids that no node reaches
    goes unnoticed. *)
Theorem detectCycle_iff_reachable_cycle nodes edges :
  ∃ b, detectCycle nodes edges = Some b ∧
       (b = true ↔
        ∃ n c, n ∈ map n_id nodes ∧ rtc (edgeRel edges) n c ∧ onCycle edges c).
Proof.
  unfold detectCycle.
  destruct (anyCycle_spec edges
              (hasCycleUtil (dfsFuel nodes edges) (buildAdjacencyList nodes edges))
              ∅ (map n_id nodes))
    with (st := {| visited := ∅; recursionStack := ∅ |})
    as (b & st' & Hrun & Hpost).
  - intros x Hx.
    apply (hasCycleUtil_spec edges _ (buildAdjacencyList_lookup nodes edges)
             (reachableIds nodes edges) (reachableIds_closed nodes edges)).
    + by apply reachableIds_node.
    + set_solver.
    + pose proof (reachableIds_size nodes edges). lia.
    + set_solver.
  - done.
  - done.
  - apply finishedOK_initial.
  - rewrite Hrun. exists b. split; [done|]. destruct b.
    + split; [intros _|done].
      eapply (anyCycle_reach edges) in Hrun.
      * exact Hrun.
      * intros x _. apply (hasCycleUtil_reach edges _ (buildAdjacencyList_lookup nodes edges)).
      * simpl. set_solver.
    + split; [done|]. intros (n & c & Hn & Hnc & Hc). exfalso.
      destruct Hpost as (HS & _ & Hall & Hfin).
      destruct (Hall n Hn) as [HnV _].
      assert (HnS : n ∉ recursionStack st') by (rewrite HS; set_solver).
      destruct (finished_closed edges st' n c Hfin HnV HnS Hnc) as [HcV HcS].
      by destruct (Hfin c HcV HcS).
Qed.

(* ===================================================================== *)
(** ** The cycle that [findCycle] reports *)
(* ===================================================================== *)

Lemma chain_app_edge edges l x y :
  chain edges (l ++ [x]) → edgeRel edges x y → chain edges ((l ++ [x]) ++ [y]).
Proof.
  induction l as [|a l IH]; simpl; intros Hch Hxy; [done|].
  destruct l as [|b l]; simpl in *.
  - destruct Hch as [Hax _]. done.
  - destruct Hch as [Hab Hch]. split; [done|]. by apply IH.
Qed.

Lemma chain_drop edges k l : chain edges l → chain edges (drop k l).
Proof.
  revert l. induction k as [|k IH]; intros l Hch; [by rewrite drop_0|].
  destruct l as [|a l]; [done|]. simpl. apply IH.
  destruct l; [done|]. by destruct Hch.
Qed.

Lemma chain_snoc_inv edges l x : chain edges (l ++ [x]) → chain edges l.
Proof.
  induction l as [|a l IH]; [done|]. simpl.
  destruct l as [|b l]; [done|]. simpl in *. intros [Hab Hch]. split; [done|].
  by apply IH.
Qed.

Lemma indexOf_Some x l :
  x ∈ l → ∃ k rest, indexOf x l = Some k ∧ drop k l = x :: rest.
Proof.
  induction l as [|a l IH]; intros Hx; [by apply elem_of_nil in Hx|].
  simpl. case_bool_decide as Ha.
  - subst a. by exists 0, l.
  - apply elem_of_cons in Hx as [->|Hx]; [done|].
    destruct (IH Hx) as (k & rest & -> & Hdrop). by exists (S k), rest.
Qed.

Section FindCycle.

Variable edges : list WorkflowEdge.
Variable adjacency : gmap string (list string).
Hypothesis adjacency_lookup :
  ∀ x, default [] (adjacency !! x) = successors edges x.

(** The path holds the recursion stack, root first, along the edges. *)
Definition pathOK (st : FindState) : Prop :=
  f_recursionStack st = list_to_set (f_path st) ∧
  NoDup (f_path st) ∧ chain edges (f_path st).

(** [x] may be entered from the state: it continues the path. *)
Definition continues (st : FindState) (x : string) : Prop :=
  ∀ l y, f_path st = l ++ [y] → edgeRel edges y x.

Definition findReach (visit : string → FindState → option (option (list string) * FindState))
    (x : string) : Prop :=
  ∀ st r st', pathOK st → continues st x →
    visit x st = Some (r, st') →
    match r with
    | Some cycle => closedWalk edges cycle
    | None => f_recursionStack st' = f_recursionStack st ∧ f_path st' = f_path st
    end.

Lemma firstCycle_reach visit xs :
  (∀ x, x ∈ xs → findReach visit x) →
  ∀ st r st', pathOK st → (∀ x, x ∈ xs → continues st x) →
    firstCycle visit xs st = Some (r, st') →
    match r with
    | Some cycle => closedWalk edges cycle
    | None => f_recursionStack st' = f_recursionStack st ∧ f_path st' = f_path st
    end.
Proof.
  induction xs as [|x xs IH]; intros Hvisit st r st' Hok Hcont Hrun; simpl in Hrun.
  - by injection Hrun as <- <-.
  - destruct (visit x st) as [[[cycle|] st1]|] eqn:Hx; [| |done].
    + injection Hrun as <- <-.
      eapply (Hvisit x (list_elem_of_here _ _)) in Hx; [done | done |].
      apply Hcont, list_elem_of_here.
    + eapply (Hvisit x (list_elem_of_here _ _)) in Hx as [HS Hp]; [|done|].
      2:{ apply Hcont, list_elem_of_here. }
      apply IH in Hrun.
      * destruct r; [done|]. destruct Hrun as [-> ->]. done.
      * intros y Hy. apply Hvisit. by apply list_elem_of_further.
      * destruct Hok as (H1 & H2 & H3). unfold pathOK. by rewrite HS, Hp.
      * intros y Hy l z Hl. rewrite Hp in Hl.
        eapply Hcont; [by apply list_elem_of_further | done].
Qed.

Lemma dfs_reach fuel : ∀ x, findReach (dfs fuel adjacency) x.
Proof.
  induction fuel as [|fuel IH]; intros x st r st' Hok Hcont Hrun; [done|].
  simpl in Hrun. destruct Hok as (Hstack & Hnodup & Hchain).
  case_bool_decide as HxS.
  { rewrite Hstack in HxS. apply elem_of_list_to_set in HxS.
    destruct (indexOf_Some x (f_path st) HxS) as (k & rest & Hk & Hdrop).
    rewrite Hk in Hrun. injection Hrun as <- <-.
    rewrite Hdrop. exists x, rest. split; [done|].
    assert (Hsuffix : NoDup (x :: rest)).
    { rewrite <- Hdrop. eapply NoDup_app. rewrite take_drop. done. }
    split; [done|].
    destruct (f_path st) as [|a p] eqn:Hp using rev_ind; [by apply elem_of_nil in HxS|].
    clear IHp.
    assert (Hdrop' : ∃ pre, (p ++ [a]) = pre ++ x :: rest).
    { exists (take k (p ++ [a])). by rewrite <- Hdrop, take_drop. }
    destruct Hdrop' as [pre Hsplit].
    change (x :: rest ++ [x]) with ((x :: rest) ++ [x]).
    destruct (rest) as [|b rest'] eqn:Hrest using rev_ind.
    - apply app_inj_tail in Hsplit as [_ ->]. simpl. split; [|done].
      by eapply Hcont.
    - clear IHrest'. rewrite app_comm_cons, app_assoc in Hsplit.
      apply app_inj_tail in Hsplit as [Hp' ->].
      rewrite app_comm_cons. apply chain_app_edge.
      + rewrite <- app_comm_cons. rewrite <- Hdrop. by apply chain_drop.
      + by eapply Hcont. }
  case_bool_decide as HxV.
  { by injection Hrun as <- <-. }
  rewrite adjacency_lookup in Hrun.
  set (st1 := {| f_visited := {[x]} ∪ f_visited st;
                 f_recursionStack := {[x]} ∪ f_recursionStack st;
                 f_path := f_path st ++ [x] |}) in Hrun.
  assert (Hok1 : pathOK st1).
  { split_and!; simpl.
    - rewrite Hstack. rewrite list_to_set_app_L. simpl. set_solver.
    - apply NoDup_app. split_and!; [done | | apply NoDup_singleton].
      intros y Hy Hy'. apply list_elem_of_singleton in Hy' as ->.
      apply HxS. rewrite Hstack. by apply elem_of_list_to_set.
    - destruct (f_path st) as [|a p _] eqn:Hp using rev_ind; [done|].
      apply chain_app_edge; [done|]. by eapply Hcont. }
  assert (Hcont1 : ∀ z, z ∈ successors edges x → continues st1 z).
  { simpl. intros z Hz l y Hl. apply app_inj_tail in Hl as [_ <-].
    by apply elem_of_successors. }
  destruct (firstCycle _ _ _) as [[[cycle|] st2]|] eqn:Hloop; [| |done].
  all: injection Hrun as <- <-.
  all: apply (firstCycle_reach _ _ (λ z _, IH z) _ _ _ Hok1 Hcont1) in Hloop.
  - done.
  - destruct Hloop as [HS Hp]. simpl in HS, Hp. simpl. rewrite HS, Hp.
    split.
    + rewrite Hstack in HxS |- *. set_solver.
    + rewrite length_app. simpl.
      replace (length (f_path st) + 1 - 1) with (length (f_path st)) by lia.
      by rewrite take_app_length.
Qed.

(** The two searches visit the same ids in the same order: without its
    path, [dfs] is [hasCycleUtil]. *)
Lemma firstCycle_forgetPath visitF visitD xs :
  (∀ x st, x ∈ xs →
     visitD x (forgetPath st)
     = (λ p, (bool_decide (is_Some p.1), forgetPath p.2)) <$> visitF x st) →
  ∀ st, anyCycle visitD xs (forgetPath st)
        = (λ p, (bool_decide (is_Some p.1), forgetPath p.2)) <$> firstCycle visitF xs st.
Proof.
  induction xs as [|x xs IH]; intros Hsim st; simpl; [done|].
  rewrite Hsim by apply list_elem_of_here.
  destruct (visitF x st) as [[[cycle|] st1]|]; simpl; [done | | done].
  apply IH. intros y st' Hy. apply Hsim. by apply list_elem_of_further.
Qed.

Lemma dfs_forgetPath fuel :
  ∀ x st, hasCycleUtil fuel adjacency x (forgetPath st)
          = (λ p, (bool_decide (is_Some p.1), forgetPath p.2)) <$> dfs fuel adjacency x st.
Proof.
  induction fuel as [|fuel IH]; intros x st; simpl; [done|].
  case_bool_decide as HxS.
  { destruct (indexOf x (f_path st)); done. }
  case_bool_decide as HxV; [done|].
  set (st1 := {| f_visited := {[x]} ∪ f_visited st;
                 f_recursionStack := {[x]} ∪ f_recursionStack st;
                 f_path := f_path st ++ [x] |}).
  change {| visited := {[x]} ∪ f_visited st;
            recursionStack := {[x]} ∪ f_recursionStack st |}
    with (forgetPath st1).
  rewrite (firstCycle_forgetPath (dfs fuel adjacency) (hasCycleUtil fuel adjacency))
    by (intros; apply IH).
  destruct (firstCycle _ _ st1) as [[[cycle|] st2]|]; done.
Qed.

End FindCycle.

(** [findCycle] agrees with [detectCycle]: when the latter reports a
    cycle the former returns one, and when it reports none the former
    returns the empty list. *)
Lemma findCycle_closedWalk nodes edges :
  ∃ hasCycle cycle,
    detectCycle nodes edges = Some hasCycle ∧
    findCycle nodes edges = Some cycle ∧
    if hasCycle then closedWalk edges cycle else cycle = [].
Proof.
  destruct (detectCycle nodes edges) as [b|] eqn:Hdet.
  2:{ by destruct (detectCycle_total nodes edges) as [? Hd]; rewrite Hd in Hdet. }
  unfold detectCycle in Hdet. unfold findCycle.
  change {| visited := ∅; recursionStack := ∅ |}
    with (forgetPath {| f_visited := ∅; f_recursionStack := ∅; f_path := [] |}) in Hdet.
  rewrite (firstCycle_forgetPath
             (dfs (dfsFuel nodes edges) (buildAdjacencyList nodes edges))
             (hasCycleUtil (dfsFuel nodes edges) (buildAdjacencyList nodes edges)))
    in Hdet by (intros; apply dfs_forgetPath).
  destruct (firstCycle _ _ _) as [[r st']|] eqn:Hfind; [|done]. simpl in Hdet |- *.
  injection Hdet as <-.
  eexists _, _. split; [reflexivity|]. split; [reflexivity|].
  destruct r as [c|]; [|done]. simpl.
  apply (firstCycle_reach edges _ _ (λ z _, dfs_reach edges _
           (buildAdjacencyList_lookup nodes edges) _ z)) in Hfind.
  - done.
  - split_and!; simpl; [done | constructor | done].
  - intros x _ l y Hl. simpl in Hl. by destruct l.
Qed.

(** A closed walk never joins to the empty text. *)
Lemma cycleMessage_closedWalk edges c :
  closedWalk edges c →
  cycleMessage (Some c) = "Workflow contains a cycle: " +:+ join " -> " c.
Proof.
  intros (x & mid & -> & _ & _). unfold cycleMessage. simpl from_option.
  case_bool_decide as Hempty; [|done]. exfalso.
  assert (Hjoin : ∃ rest, join " -> " (x :: mid ++ [x]) = x +:+ " -> " +:+ rest).
  { destruct mid; simpl; eauto. }
  destruct Hjoin as [rest Hjoin]. simpl in Hjoin. rewrite Hjoin in Hempty.
  destruct x; [rewrite append_nil in Hempty|]; rewrite append_cons in Hempty;
    discriminate Hempty.
Qed.

(** What [checkForCycles] hands to the planner: with [hasCycle] comes a
    cycle of the graph, written as the ids along its edges, no id twice,
    closed by the first id again, and the error message spells it out;
    without [hasCycle] comes no cycle at all.  The fallback [[nodeId]] of
    [findCycle] and the [unknown] of the message are never used. *)
Theorem checkForCycles_reports_cycle nodes edges :
  ∃ hasCycle cycle,
    checkForCycles nodes edges = Some (hasCycle, cycle) ∧
    detectCycle nodes edges = Some hasCycle ∧
    match cycle with
    | Some c => hasCycle = true ∧ closedWalk edges c ∧
                cycleMessage cycle = "Workflow contains a cycle: " +:+ join " -> " c
    | None => hasCycle = false
    end.
Proof.
  destruct (findCycle_closedWalk nodes edges) as (b & c & Hdet & Hfind & Hc).
  unfold checkForCycles. rewrite Hdet. simpl. destruct b.
  - rewrite Hfind. simpl. eexists _, _. split; [reflexivity|].
    split_and!; [done | done | done | by eapply cycleMessage_closedWalk].
  - by eexists _, _.
Qed.

(* ===================================================================== *)
(** ** What a successful topological sort guarantees *)
(* ===================================================================== *)

Lemma before_split (u v : string) l :
  before u v l → ∃ l1 l2 l3, l = l1 ++ u :: l2 ++ v :: l3.
Proof.
  intros (i & j & Hi & Hj & Hlt).
  apply list_elem_of_split_length in Hi as (l1 & r & -> & Hlen). subst i.
  rewrite lookup_app_r in Hj by lia.
  replace (j - length l1) with (S (j - length l1 - 1)) in Hj by lia.
  simpl in Hj. apply list_elem_of_split_length in Hj as (l2 & l3 & -> & _).
  by exists l1, l2, l3.
Qed.

Lemma before_filter (P : string → Prop) `{∀ x, Decision (P x)} (u v : string) l :
  before u v l → P u → P v → before u v (filter P l).
Proof.
  intros (l1 & l2 & l3 & ->)%before_split Hu Hv.
  rewrite filter_app, filter_cons_True, filter_app, filter_cons_True by done.
  replace (filter P l1 ++ u :: filter P l2 ++ v :: filter P l3)
    with ((filter P l1 ++ u :: filter P l2) ++ v :: filter P l3)
    by (by rewrite <- app_assoc).
  apply before_middle.
  apply elem_of_app. right. apply list_elem_of_here.
Qed.

Lemma before_trans (u v w : string) l :
  NoDup l → before u v l → before v w l → before u w l.
Proof.
  intros Hnd (i & j & Hi & Hj & Hij) (j' & k & Hj' & Hk & Hjk).
  assert (j = j') as <- by by eapply NoDup_lookup.
  exists i, k. split_and!; [done | done | lia].
Qed.

Lemma before_irrefl (u : string) l : NoDup l → ¬ before u u l.
Proof.
  intros Hnd (i & j & Hi & Hj & Hij).
  assert (i = j) by by eapply NoDup_lookup. lia.
Qed.

(** In the order in which the queue loop takes ids, every id comes after
    the sources of all edges that enter it. *)
Lemma processed_respects_paths edges (processed : list string) :
  NoDup processed →
  (∀ l1 y l2, processed = l1 ++ y :: l2 → remaining edges l1 y = 0) →
  ∀ u v, tc (edgeRel edges) u v → v ∈ processed → before u v processed.
Proof.
  intros Hnd Hord.
  assert (Hedge : ∀ u v, edgeRel edges u v → v ∈ processed → before u v processed).
  { intros u v (e & He & <- & <-) Hv.
    apply list_elem_of_split in Hv as (l1 & l2 & Heq). rewrite Heq.
    apply before_middle. by apply (remaining_zero edges l1 (target e)); [eapply Hord|..]. }
  intros u v Huv. induction Huv as [u v Huv|u w v Huw _ IH]; intros Hv; [by apply Hedge|].
  specialize (IH Hv). eapply before_trans; [done | | done].
  apply Hedge; [done|]. destruct IH as (i & _ & Hi & _).
  by eapply list_elem_of_lookup_2.
Qed.

(** Whenever [topologicalSort] returns a list for nodes with distinct
    ids, whatever the edges, the list holds every node exactly once,
    places the source of an edge between two nodes before its target, and
    no node lies on a cycle. *)
Lemma topologicalSort_order nodes edges sorted :
  NoDup (map n_id nodes) →
  topologicalSort nodes edges = Some (Some sorted) →
  sorted ≡ₚ nodes ∧
  (∀ e, e ∈ edges → source e ∈ map n_id nodes → target e ∈ map n_id nodes →
        before (source e) (target e) (map n_id sorted)) ∧
  (∀ x, x ∈ map n_id nodes → ¬ onCycle edges x).
Proof.
  intros Hnd Hsorted.
  destruct (topologicalSort_processed nodes edges Hnd)
    as (processed & rest & _ & Hpnd & Hmem & Hord & _ & Hsort).
  rewrite Hsort in Hsorted. case_bool_decide as Hlen; [|done].
  injection Hsorted as Hsorted.
  assert (Hids : map n_id sorted = filter (λ y, y ∈ map n_id nodes) processed).
  { rewrite <- Hsorted. apply omap_nodeMap_ids. }
  assert (Hperm : map n_id sorted ≡ₚ map n_id nodes).
  { apply submseteq_length_Permutation.
    - apply NoDup_submseteq; [rewrite Hids; by apply NoDup_filter|].
      intros y. rewrite Hids. by intros [? _]%list_elem_of_filter.
    - rewrite !length_map, <- Hsorted. lia. }
  assert (Hall : ∀ y, y ∈ map n_id nodes → y ∈ processed).
  { intros y Hy. rewrite <- Hperm, Hids in Hy.
    by apply list_elem_of_filter in Hy as [_ ?]. }
  split_and!.
  - apply submseteq_length_Permutation.
    + apply NoDup_submseteq.
      * apply (NoDup_fmap_1 n_id). rewrite Hperm. done.
      * intros n Hn. rewrite <- Hsorted in Hn.
        apply list_elem_of_omap in Hn as (y & _ & Hy).
        by apply buildNodeMap_Some in Hy as [? _].
    + rewrite <- Hsorted. lia.
  - intros e He Hs Ht. rewrite Hids. apply before_filter; [|done..].
    apply (processed_respects_paths edges processed Hpnd Hord).
    + apply tc_once. by exists e.
    + by apply Hall.
  - intros x Hx Hcyc.
    apply (before_irrefl x processed Hpnd).
    apply (processed_respects_paths edges processed Hpnd Hord); [done|].
    by apply Hall.
Qed.

(* ===================================================================== *)
(** ** Validator and planner *)
(* ===================================================================== *)

Lemma orphanErrors_nil (ids : gset string) e :
  orphanErrors ids e = [] ↔ source e ∈ ids ∧ target e ∈ ids.
Proof.
  unfold orphanErrors. repeat case_bool_decide; simpl; split; try done; tauto.
Qed.

Lemma concat_nil_iff {A} (ls : list (list A)) :
  concat ls = [] ↔ ∀ l, l ∈ ls → l = [].
Proof.
  induction ls as [|l ls IH]; simpl.
  - split; [|done]. intros _ l Hl. by apply elem_of_nil in Hl.
  - split.
    + intros [-> Hrest]%app_eq_nil l' [->|Hl']%elem_of_cons; [done|].
      by apply IH.
    + intros Hall. rewrite (Hall l) by apply list_elem_of_here. simpl.
      apply IH. intros l' Hl'. apply Hall. by apply list_elem_of_further.
Qed.

(** The validator accepts exactly the graphs in which the search finds no
    cycle and every edge joins two existing nodes. *)
Lemma validateWorkflowDAG_valid_iff nodes edges :
  ∃ v, validateWorkflowDAG nodes edges = Some v ∧
       (v_valid v = true ↔
        detectCycle nodes edges = Some false ∧
        ∀ e, e ∈ edges → source e ∈ map n_id nodes ∧ target e ∈ map n_id nodes).
Proof.
  unfold validateWorkflowDAG.
  destruct (detectCycle_total nodes edges) as [hasCycle Hdet]. rewrite Hdet. simpl.
  eexists. split; [reflexivity|]. simpl.
  rewrite bool_decide_eq_true. split.
  - intros Hlen. apply nil_length_inv, app_eq_nil in Hlen as [Hc Horph].
    split; [by destruct hasCycle|].
    intros e He. rewrite concat_nil_iff in Horph.
    specialize (Horph (orphanErrors (list_to_set (map n_id nodes)) e)).
    rewrite orphanErrors_nil, !elem_of_list_to_set in Horph. apply Horph.
    apply list_elem_of_fmap. eauto.
  - intros [[= ->] Hends]. simpl. apply length_zero_iff_nil, concat_nil_iff.
    intros l (e & -> & He)%list_elem_of_fmap.
    apply orphanErrors_nil. rewrite !elem_of_list_to_set. by apply Hends.
Qed.

(** When every edge starts at a node, a cycle passes through nodes only,
    so a search that finds none leaves none. *)
Lemma detectCycle_false_acyclic nodes edges :
  (∀ e, e ∈ edges → source e ∈ map n_id nodes) →
  detectCycle nodes edges = Some false → acyclic edges.
Proof.
  intros Hsrc Hdet x Hcyc.
  destruct (detectCycle_spec nodes edges) as (b & Hb & Hpost).
  rewrite Hdet in Hb. injection Hb as <-.
  apply (Hpost x); [|done].
  assert (∃ z, edgeRel edges x z) as (z & e & He & <- & _).
  { inversion Hcyc; subst; eauto. }
  by apply Hsrc.
Qed.

Lemma chain_tc edges x mid y :
  chain edges (x :: mid ++ [y]) → tc (edgeRel edges) x y.
Proof.
  revert x. induction mid as [|z mid IH]; intros x; simpl.
  - intros [Hxy _]. by apply tc_once.
  - intros [Hxz Hch]. eapply tc_l; [done|]. by apply IH.
Qed.

Lemma closedWalk_onCycle edges c :
  closedWalk edges c → ∃ x, onCycle edges x.
Proof. intros (x & mid & -> & _ & Hch). exists x. by eapply chain_tc. Qed.

(** For a workflow that meets the data-model invariants the planner has
    one way to fail: the plan is valid exactly when the graph has no
    cycle, and an invalid plan carries the single message that spells out
    a cycle of the graph.  The error of an incomplete sort does not occur. *)
Theorem wellFormed_plan_fails_only_on_cycles workflow :
  wellFormed workflow →
  ∃ plan,
    buildExecutionPlan workflow = Some plan ∧
    (valid plan = true ↔ acyclic (edges workflow)) ∧
    (valid plan = false →
     plan_nodes plan = [] ∧
     ∃ c, closedWalk (edges workflow) c ∧
          errors plan = ["Workflow contains a cycle: " +:+ join " -> " c]).
Proof.
  intros [Hnd Hends].
  destruct (findCycle_closedWalk (nodes workflow) (edges workflow))
    as (b & c & Hdet & Hfind & Hc).
  destruct b.
  - unfold buildExecutionPlan, checkForCycles. rewrite Hdet. simpl.
    rewrite Hfind. simpl. eexists. split; [reflexivity|]. simpl. split.
    + split; [done|]. intros Hacyc.
      destruct (closedWalk_onCycle _ _ Hc) as [x Hx]. by destruct (Hacyc x).
    + intros _. split; [done|]. exists c. split; [done|].
      by rewrite (cycleMessage_closedWalk (edges workflow)).
  - assert (Hacyc : acyclic (edges workflow)).
    { eapply detectCycle_false_acyclic; [|done]. by intros e [? _]%Hends. }
    destruct (topologicalSort_complete (nodes workflow) (edges workflow) Hnd)
      as (processed & rest & result & Hsort & _); [by intros e [? _]%Hends | done |].
    destruct (buildExecutionPlan_sorted workflow result Hdet Hsort)
      as (plan & Hplan & Hv & _).
    exists plan. split; [done|]. rewrite Hv. split; [done | done].
Qed.

(** For nodes with distinct ids the validator is the planner plus the
    endpoint check: a workflow passes validation exactly when its plan is
    valid and every edge joins two existing nodes.  In particular a
    validated workflow always has a valid plan that holds every node. *)
Theorem validation_iff_plan_and_endpoints workflow :
  NoDup (map n_id (nodes workflow)) →
  ∃ v plan,
    validateWorkflowDAG (nodes workflow) (edges workflow) = Some v ∧
    buildExecutionPlan workflow = Some plan ∧
    (v_valid v = true ↔
     valid plan = true ∧
     ∀ e, e ∈ edges workflow →
          source e ∈ map n_id (nodes workflow) ∧
          target e ∈ map n_id (nodes workflow)) ∧
    (v_valid v = true → planOrder plan ≡ₚ map n_id (nodes workflow)).
Proof.
  intros Hnd.
  destruct (validateWorkflowDAG_valid_iff (nodes workflow) (edges workflow))
    as (v & Hv & Hvalid).
  destruct (buildExecutionPlan_total workflow) as [plan Hplan].
  exists v, plan. split; [done|]. split; [done|].
  assert (Hgood : v_valid v = true →
            valid plan = true ∧ planOrder plan ≡ₚ map n_id (nodes workflow)).
  { intros [Hdet Hends]%Hvalid.
    assert (Hacyc : acyclic (edges workflow)).
    { eapply detectCycle_false_acyclic; [|done]. by intros e [? _]%Hends. }
    destruct (topologicalSort_complete (nodes workflow) (edges workflow) Hnd)
      as (processed & rest & result & Hsort & _ & Hperm & _);
      [by intros e [? _]%Hends | done |].
    destruct (buildExecutionPlan_sorted workflow result Hdet Hsort)
      as (plan' & Hplan' & Hv' & _ & _ & Hpo).
    assert (plan' = plan) as -> by congruence.
    split; [done|]. by rewrite Hpo. }
  split; [|by intros [_ ?]%Hgood].
  split.
  - intros Hok. split; [by apply Hgood|]. by apply Hvalid.
  - intros [Hpv Hends]. apply Hvalid. split; [|done].
    destruct (detectCycle_total (nodes workflow) (edges workflow)) as [[] Hdet]; [|done].
    destruct (buildExecutionPlan_cycle workflow Hdet) as [cycle Hc].
    rewrite Hc in Hplan. injection Hplan as <-. done.
Qed.

(* ===================================================================== *)
(** ** The contexts of a plan *)
(* ===================================================================== *)

(** [deps.includes(source) || deps.push(source)] over a list of sources. *)
Lemma buildDependencyMap_lookup (edges : list WorkflowEdge) t :
  ∀ m : gmap string (list string),
    default [] (foldl (λ dependencyMap edge,
                   let deps := default [] (dependencyMap !! target edge) in
                   let deps := if bool_decide (source edge ∈ deps) then deps
                               else deps ++ [source edge] in
                   <[target edge := deps]> dependencyMap) m edges !! t)
    = foldl (λ deps s, if bool_decide (s ∈ deps) then deps else deps ++ [s])
            (default [] (m !! t)) (getNodeDependencies t edges).
Proof.
  unfold getNodeDependencies.
  induction edges as [|e edges IH]; intros m; simpl; [done|].
  rewrite IH, filter_cons. destruct (decide (target e = t)) as [<-|Hne]; simpl.
  - by rewrite lookup_insert_eq.
  - by rewrite lookup_insert_ne.
Qed.

Lemma addOnce_spec (l : list string) :
  ∀ deps, NoDup deps →
    let deps' := foldl (λ deps s, if bool_decide (s ∈ deps) then deps else deps ++ [s])
                       deps l in
    NoDup deps' ∧ ∀ s, s ∈ deps' ↔ s ∈ deps ∨ s ∈ l.
Proof.
  induction l as [|x l IH]; intros deps Hnd; simpl.
  - split; [done|]. intros s. rewrite elem_of_nil. tauto.
  - case_bool_decide as Hx.
    + destruct (IH deps Hnd) as [Hnd' Hmem]. split; [done|].
      intros s. rewrite Hmem, elem_of_cons. split; [tauto|].
      intros [?|[->|?]]; auto.
    + destruct (IH (deps ++ [x])) as [Hnd' Hmem].
      { apply NoDup_app. split_and!; [done | | apply NoDup_singleton].
        intros y Hy ->%list_elem_of_singleton. done. }
      split; [done|]. intros s. rewrite Hmem, elem_of_app, list_elem_of_singleton,
        elem_of_cons. tauto.
Qed.

(** The contexts of a valid plan are built from the sorted nodes. *)
Lemma buildExecutionPlan_valid_inv workflow plan :
  buildExecutionPlan workflow = Some plan →
  valid plan = true →
  ∃ sorted,
    topologicalSort (nodes workflow) (edges workflow) = Some (Some sorted) ∧
    plan_nodes plan
    = map (λ node, {| nodeId := n_id node; node := node; inputs := ∅;
                      dependencies :=
                        default [] (buildDependencyMap (edges workflow) !! n_id node) |})
          sorted.
Proof.
  unfold buildExecutionPlan. intros Hplan Hvalid.
  destruct (checkForCycles _ _) as [[b cycle]|]; simpl in Hplan; [|done].
  destruct b; [by injection Hplan as <-|].
  destruct (topologicalSort _ _) as [[result|]|] eqn:Hsort; simpl in Hplan; [| |done].
  - injection Hplan as <-. by exists result.
  - by injection Hplan as <-.
Qed.

(** The plan over nodes with distinct ids names no node twice. *)
Lemma planOrder_NoDup workflow plan :
  NoDup (map n_id (nodes workflow)) →
  buildExecutionPlan workflow = Some plan →
  NoDup (planOrder plan).
Proof.
  intros Hnd Hplan. destruct (valid plan) eqn:Hvalid.
  - destruct (buildExecutionPlan_valid_inv workflow plan Hplan Hvalid)
      as (sorted & Hsort & Hnodes).
    destruct (topologicalSort_order _ _ _ Hnd Hsort) as (Hperm & _).
    unfold planOrder. rewrite Hnodes, map_map. simpl. by rewrite Hperm.
  - destruct (buildExecutionPlan_contexts workflow plan Hplan) as [Hnil _].
    unfold planOrder. rewrite Hnil by done. constructor.
Qed.

(** Every context the planner builds has empty inputs and lists as its
    dependencies the sources of the edges that enter its node, each
    source once. *)
Theorem plan_context_dependencies workflow plan context :
  buildExecutionPlan workflow = Some plan →
  context ∈ plan_nodes plan →
  node context ∈ nodes workflow ∧
  nodeId context = n_id (node context) ∧
  inputs context = ∅ ∧
  NoDup (dependencies context) ∧
  ∀ s, s ∈ dependencies context ↔
       s ∈ getNodeDependencies (nodeId context) (edges workflow).
Proof.
  intros Hplan Hctx.
  destruct (buildExecutionPlan_contexts workflow plan Hplan) as [Hinv Hnode].
  destruct (Hnode context Hctx) as [Hn Hid]. split; [done|]. split; [done|].
  destruct (valid plan) eqn:Hvalid.
  2:{ rewrite Hinv in Hctx by done. by apply elem_of_nil in Hctx. }
  destruct (buildExecutionPlan_valid_inv workflow plan Hplan Hvalid)
    as (sorted & _ & Hnodes).
  rewrite Hnodes in Hctx. apply list_elem_of_fmap in Hctx as (n & -> & _). simpl.
  split; [done|]. unfold buildDependencyMap. rewrite buildDependencyMap_lookup.
  destruct (addOnce_spec (getNodeDependencies (n_id n) (edges workflow)) [])
    as [Hnd Hmem]; [constructor|].
  simpl in Hnd, Hmem. rewrite lookup_empty. simpl. split; [done|].
  intros s. rewrite Hmem, elem_of_nil. tauto.
Qed.

(** A valid plan over nodes with distinct ids, whatever the edges: it
    holds every node exactly once, it places the source of every edge
    between two nodes before the target, every dependency of a context
    that names a node comes before the context, and no node lies on a
    cycle. *)
Theorem valid_plan_is_sound workflow plan :
  NoDup (map n_id (nodes workflow)) →
  buildExecutionPlan workflow = Some plan →
  valid plan = true →
  map node (plan_nodes plan) ≡ₚ nodes workflow ∧
  NoDup (planOrder plan) ∧
  (∀ e, e ∈ edges workflow →
        source e ∈ map n_id (nodes workflow) →
        target e ∈ map n_id (nodes workflow) →
        before (source e) (target e) (planOrder plan)) ∧
  (∀ context s, context ∈ plan_nodes plan → s ∈ dependencies context →
                s ∈ map n_id (nodes workflow) →
                before s (nodeId context) (planOrder plan)) ∧
  (∀ x, x ∈ map n_id (nodes workflow) → ¬ onCycle (edges workflow) x).
Proof.
  intros Hnd Hplan Hvalid.
  destruct (buildExecutionPlan_valid_inv workflow plan Hplan Hvalid)
    as (sorted & Hsort & Hnodes).
  destruct (topologicalSort_order _ _ _ Hnd Hsort) as (Hperm & Hord & Hcyc).
  assert (Hmap : map node (plan_nodes plan) = sorted).
  { rewrite Hnodes, map_map. simpl. apply map_id. }
  assert (Hpo : planOrder plan = map n_id sorted).
  { unfold planOrder. by rewrite Hnodes, map_map. }
  split_and!.
  - by rewrite Hmap.
  - rewrite Hpo, Hperm. done.
  - intros e He Hs Ht. rewrite Hpo. by apply Hord.
  - intros context s Hctx Hs Hsn.
    rewrite Hnodes in Hctx. apply list_elem_of_fmap in Hctx as (n & -> & Hn).
    simpl in Hs |- *. unfold buildDependencyMap in Hs.
    rewrite buildDependencyMap_lookup, lookup_empty in Hs.
    destruct (addOnce_spec (getNodeDependencies (n_id n) (edges workflow)) [])
      as [_ Hmem]; [constructor|].
    apply Hmem in Hs as [Hs|Hs]; [by apply elem_of_nil in Hs|].
    unfold getNodeDependencies in Hs.
    apply list_elem_of_fmap in Hs as (e & -> & [Ht He]%list_elem_of_filter).
    rewrite <- Ht, Hpo. apply Hord; [done | done |].
    rewrite Ht, <- Hperm. apply list_elem_of_fmap. eauto.
  - done.
Qed.

(* ===================================================================== *)
(** ** The runner, node by node *)
(* ===================================================================== *)

Lemma invocationArgs_app t1 t2 :
  invocationArgs (t1 ++ t2) = invocationArgs t1 ++ invocationArgs t2.
Proof. unfold invocationArgs. by rewrite omap_app. Qed.







Lemma mapSet_keys {V} k (v : V) m :
  map fst (mapSet k v m)
  = if bool_decide (k ∈ map fst m) then map fst m else map fst m ++ [k].
Proof.
  induction m as [|[k' v'] m IH]; simpl; [done|].
  destruct (decide (k' = k)) as [->|Hne].
  - rewrite (bool_decide_eq_true_2 (k = k)) by done. simpl.
    rewrite bool_decide_eq_true_2; [done | apply list_elem_of_here].
  - rewrite (bool_decide_eq_false_2 (k' = k)) by done. simpl. rewrite IH.
    destruct (decide (k ∈ map fst m)) as [Hin|Hin].
    + rewrite !bool_decide_eq_true_2; [done | by apply list_elem_of_further | done].
    + rewrite !bool_decide_eq_false_2; [done | | done].
      intros [?|?]%elem_of_cons; [by subst | done].
Qed.

Lemma mapSet_keys_again {V} k (v1 v2 : V) m :
  map fst (mapSet k v2 (mapSet k v1 m)) = map fst (mapSet k v1 m).
Proof.
  rewrite (mapSet_keys k v2). rewrite bool_decide_eq_true_2; [done|].
  rewrite mapSet_keys. destruct (decide (k ∈ map fst m)) as [Hin|Hin].
  - by rewrite bool_decide_eq_true_2.
  - rewrite bool_decide_eq_false_2 by done.
    apply elem_of_app. right. apply list_elem_of_here.
Qed.

Lemma mapSet_Forall {V} (P : string * V → Prop) k (v : V) m :
  P (k, v) → Forall P m → Forall P (mapSet k v m).
Proof.
  intros Hkv. induction 1 as [|[k' v'] m Hx Hm IH]; simpl; [by repeat constructor|].
  case_bool_decide; constructor; done.
Qed.

Section RunnerNodes.

Context {World : Type}.
Variable host : @Host World.
Variable runner : @WorkflowRunner World.

(** The world after the listener, if any, has handled an event. *)
Definition heard (event : ExecutionEvent) (w : World) : World :=
  match onEvent (config runner) with
  | Some listener => (listener event w).2
  | None => w
  end.

(** The world in which [executeNode] looks the executor up and starts it:
    the listener has handled [queued] and [running]. *)
Definition worldAtStart (nodeId : string) (w : World) : World :=
  let wQ := heard (mkEvent nodeId EvQueued (toISOString host (dateNow host w))) w in
  heard (mkEvent nodeId EvRunning (toISOString host (dateNow host wQ))) wQ.

(** Every result is filed under its own node id. *)
Definition keyed (m : list (string * RunResult)) : Prop :=
  Forall (λ kv, r_nodeId kv.2 = kv.1) m.

Lemma keyed_current m k :
  keyed m → r_nodeId (default (pendingResult k None) (mapGet k m)) = k.
Proof.
  intros Hk. destruct (mapGet k m) as [r|] eqn:Hr; [|done]. simpl.
  apply mapGet_pair in Hr. unfold keyed in Hk.
  rewrite Forall_forall in Hk. by apply (Hk (k, r)).
Qed.

Ltac run_node :=
  unfold executeNodeTry, executeNodeCatch, tryCatch, bind, nowISO, nowMs, gets,
    modify, emitEvent, executeWithTimeout, addLog, ret, throw, bind.

(** What one call of [executeNode] does whatever the listener does: the
    node keeps its place in the results, nothing else in the results
    changes, at most one output is recorded, and an executor, if one is
    started, gets the configuration of the node and the inputs resolved
    from the outputs recorded so far. *)
Lemma executeNode_frame nodeId context node s :
  List.find (λ n, bool_decide (n_id n = nodeId)) (nodes (workflow runner)) = Some node →
  ∃ c s' added,
    executeNode host runner nodeId context s = (c, s') ∧
    trace s' = trace s ++ added ∧
    map fst (resultsMap s')
    = (if bool_decide (nodeId ∈ map fst (resultsMap s)) then map fst (resultsMap s)
       else map fst (resultsMap s) ++ [nodeId]) ∧
    (keyed (resultsMap s) → keyed (resultsMap s')) ∧
    (completedNodes s' = completedNodes s ∨
     ∃ out, completedNodes s' = completedNodes s ++ [{| o_nodeId := nodeId; o_output := out |}]) ∧
    (invocationArgs added = [] ∨
     invocationArgs added
     = [({| c_nodeId := nodeId; nodeType := n_type node; nodeData := n_data node |},
         resolveNodeInputs context (completedNodes s)
           (edges (workflow runner)) (ports (workflow runner)))]).
Proof.
  intros Hfind. unfold executeNode. rewrite Hfind. run_node.
  destruct (onEvent (config runner)) as [listener|] eqn:Hl; simpl.
  - repeat match goal with
           | |- context [listener ?ev ?w] =>
               destruct (listener ev w) as [[?|] ?] eqn:?; simpl
           | |- context [getNodeExecutor host ?w ?t] =>
               destruct (getNodeExecutor host w t) as [?|] eqn:?; simpl
           | |- context [match ?executor ?cfg ?inp ?w with _ => _ end] =>
               destruct (executor cfg inp w) as [[?|?|] ?] eqn:?; simpl
           end.
    all: eexists _, _, _; (split; [reflexivity|]); simpl.
    all: rewrite <- ?app_assoc; simpl; (split; [reflexivity|]).
    all: split; [rewrite ?mapSet_keys_again; apply mapSet_keys|].
    all: split; [intros Hk;
                 repeat (apply mapSet_Forall; [first [done | by apply keyed_current]|]);
                 exact Hk|].
    all: split; [first [left; reflexivity | right; eexists; reflexivity]|].
    all: first [left; reflexivity | right; reflexivity].
  - destruct (getNodeExecutor host (world s) (n_type node)) as [executor|] eqn:Hex; simpl.
    1: destruct (executor _ _ _) as [[out|e|] w] eqn:Hrun; simpl.
    all: eexists _, _, _; (split; [reflexivity|]); simpl.
    all: rewrite <- ?app_assoc; simpl; (split; [reflexivity|]).
    all: split; [rewrite ?mapSet_keys_again; apply mapSet_keys|].
    all: split; [intros Hk;
                 repeat (apply mapSet_Forall; [first [done | by apply keyed_current]|]);
                 exact Hk|].
    all: split; [first [left; reflexivity | right; eexists; reflexivity]|].
    all: first [left; reflexivity | right; reflexivity].
Qed.

(** What one call of [executeNode] does when the listener returns
    normally: by the executor registered for the type of the node in the
    world [worldAtStart], and by how that executor settles. *)
Lemma executeNode_quiet nodeId context node s :
  List.find (λ n, bool_decide (n_id n = nodeId)) (nodes (workflow runner)) = Some node →
  quietListener (config runner) →
  ∃ s' added r,
    executeNode host runner nodeId context s = (Normal tt, s') ∧
    trace s' = trace s ++ added ∧
    mapGet nodeId (resultsMap s') = Some r ∧ r_nodeId r = nodeId ∧
    (∀ k, k ≠ nodeId → mapGet k (resultsMap s') = mapGet k (resultsMap s)) ∧
    let w := worldAtStart nodeId (world s) in
    let cfg := {| c_nodeId := nodeId; nodeType := n_type node; nodeData := n_data node |} in
    let inputs := resolveNodeInputs context (completedNodes s)
                    (edges (workflow runner)) (ports (workflow runner)) in
    match getNodeExecutor host w (n_type node) with
    | None =>
        invocationArgs added = [] ∧ completedNodes s' = completedNodes s ∧
        failedWith r
          (newError host ("No executor registered for node type: " +:+ n_type node))
    | Some executor =>
        invocationArgs added = [(cfg, inputs)] ∧
        match (executor cfg inputs w).1 with
        | Resolved out =>
            completedNodes s'
            = completedNodes s ++ [{| o_nodeId := nodeId; o_output := out |}] ∧
            succeededWith r out
        | Rejected e => completedNodes s' = completedNodes s ∧ failedWith r e
        | TimedOut =>
            completedNodes s' = completedNodes s ∧
            failedWith r
              (newError host (timeoutMessage (effectiveTimeout (config runner))))
        end
    end.
Proof.
  intros Hfind Hq. unfold executeNode. rewrite Hfind. run_node.
  unfold worldAtStart, heard, quietListener, failedWith, succeededWith,
    effectiveTimeout in *.
  destruct (onEvent (config runner)) as [listener|] eqn:Hl; simpl.
  - repeat match goal with
           | |- context [listener ?ev ?w] =>
               let H := fresh "Hlis" in
               pose proof (Hq listener eq_refl ev w) as H;
               destruct (listener ev w) as [[?|] ?] eqn:?; simpl in H;
               [discriminate H|clear H]; simpl
           | |- context [getNodeExecutor host ?w ?t] =>
               destruct (getNodeExecutor host w t) as [?|] eqn:?; simpl
           | |- context [match ?executor ?cfg ?inp ?w with _ => _ end] =>
               destruct (executor cfg inp w) as [[?|?|] ?] eqn:?; simpl
           end.
    all: eexists _, _, _; (split; [reflexivity|]); simpl.
    all: rewrite <- ?app_assoc; simpl; (split; [reflexivity|]).
    all: rewrite ?mapGet_mapSet_eq.
    all: split; [reflexivity|]; simpl; split; [reflexivity|].
    all: split; [intros k Hk; by rewrite ?mapGet_mapSet_ne by done|].
    all: split_and!; reflexivity.
  - destruct (getNodeExecutor host (world s) (n_type node)) as [executor|] eqn:Hex; simpl.
    1: destruct (executor _ _ _) as [[out|e|] w] eqn:Hrun; simpl.
    all: eexists _, _, _; (split; [reflexivity|]); simpl.
    all: rewrite <- ?app_assoc; simpl; (split; [reflexivity|]).
    all: rewrite ?mapGet_mapSet_eq.
    all: split; [reflexivity|]; simpl; split; [reflexivity|].
    all: split; [intros k Hk; by rewrite ?mapGet_mapSet_ne by done|].
    all: split_and!; reflexivity.
Qed.

(** The node that [executeNode] finds for a planned context. *)
Lemma find_planned_node (ns : list WorkflowNode) n :
  NoDup (map n_id ns) → n ∈ ns →
  List.find (λ m, bool_decide (n_id m = n_id n)) ns = Some n.
Proof.
  induction ns as [|m ns IH]; intros Hnd Hn; [by apply elem_of_nil in Hn|].
  simpl in *. apply NoDup_cons in Hnd as [Hm Hnd].
  apply elem_of_cons in Hn as [->|Hn].
  - by rewrite bool_decide_eq_true_2.
  - rewrite bool_decide_eq_false_2; [by apply IH|].
    intros Heq. apply Hm. rewrite Heq. apply list_elem_of_fmap. eauto.
Qed.

Lemma find_some_node (ns : list WorkflowNode) k :
  k ∈ map n_id ns →
  ∃ n, List.find (λ m, bool_decide (n_id m = k)) ns = Some n ∧ n_id n = k ∧ n ∈ ns.
Proof.
  induction ns as [|m ns IH]; intros Hk; [by apply elem_of_nil in Hk|].
  simpl in *. destruct (decide (n_id m = k)) as [Heq|Hne].
  - rewrite bool_decide_eq_true_2 by done. exists m.
    split_and!; [done | done | apply list_elem_of_here].
  - rewrite bool_decide_eq_false_2 by done.
    apply elem_of_cons in Hk as [?|Hk]; [done|].
    destruct (IH Hk) as (n & ? & ? & ?). exists n.
    split_and!; [done | done | by apply list_elem_of_further].
Qed.

(** The loop over the planned contexts, whatever the listener does:
    results stay in place, recorded outputs are only added, and the
    executors are started in plan order, at most once per context, each
    with the configuration of its node and the inputs resolved from the
    outputs recorded by then. *)
Lemma executeNodes_frame (contexts : list ExecutionContext) :
  (∀ context, context ∈ contexts →
              nodeId context ∈ map n_id (nodes (workflow runner))) →
  ∀ s c s',
    forEachM (λ context, executeNode host runner (nodeId context) context) contexts s
      = (c, s') →
    (∀ context, context ∈ contexts → nodeId context ∈ map fst (resultsMap s)) →
    ∃ added,
      trace s' = trace s ++ added ∧
      map fst (resultsMap s') = map fst (resultsMap s) ∧
      (keyed (resultsMap s) → keyed (resultsMap s')) ∧
      completedNodes s `prefix_of` completedNodes s' ∧
      map (λ o, o_nodeId o) (drop (length (completedNodes s)) (completedNodes s'))
        `sublist_of` map nodeId contexts ∧
      map (λ a, c_nodeId a.1) (invocationArgs added) `sublist_of` map nodeId contexts ∧
      Forall (λ a, ∃ context node done,
                context ∈ contexts ∧
                List.find (λ n, bool_decide (n_id n = nodeId context))
                          (nodes (workflow runner)) = Some node ∧
                completedNodes s `prefix_of` done ∧
                done `prefix_of` completedNodes s' ∧
                a.1 = {| c_nodeId := nodeId context; nodeType := n_type node;
                         nodeData := n_data node |} ∧
                a.2 = resolveNodeInputs context done
                        (edges (workflow runner)) (ports (workflow runner)))
             (invocationArgs added).
Proof.
  induction contexts as [|context contexts IH]; intros Hin s c s' Hrun Hkeys.
  - simpl in Hrun. injection Hrun as <- <-. exists []. rewrite app_nil_r.
    rewrite drop_all. split_and!; done.
  - simpl in Hrun. unfold bind at 1 in Hrun.
    destruct (find_some_node (nodes (workflow runner)) (nodeId context))
      as (node & Hfind & _); [apply Hin, list_elem_of_here|].
    destruct (executeNode_frame (nodeId context) context node s Hfind)
      as (c1 & s1 & added1 & Hrun1 & Htr1 & Hk1 & Hkeyed1 & Hdone1 & Hinv1).
    rewrite Hrun1 in Hrun.
    rewrite bool_decide_eq_true_2 in Hk1 by apply Hkeys, list_elem_of_here.
    assert (Hpre1 : completedNodes s `prefix_of` completedNodes s1).
    { destruct Hdone1 as [->|[out ->]]; [done | by apply prefix_app_r]. }
    assert (Hnew1 : map (λ o, o_nodeId o)
                      (drop (length (completedNodes s)) (completedNodes s1))
                    `sublist_of` [nodeId context]).
    { destruct Hdone1 as [->|[out ->]].
      - rewrite drop_all. apply sublist_nil_l.
      - rewrite drop_app_length. done. }
    assert (Hargs1 : Forall (λ a, ∃ context0 node done,
                context0 ∈ context :: contexts ∧
                List.find (λ n, bool_decide (n_id n = nodeId context0))
                          (nodes (workflow runner)) = Some node ∧
                completedNodes s `prefix_of` done ∧
                done `prefix_of` completedNodes s1 ∧
                a.1 = {| c_nodeId := nodeId context0; nodeType := n_type node;
                         nodeData := n_data node |} ∧
                a.2 = resolveNodeInputs context0 done
                        (edges (workflow runner)) (ports (workflow runner)))
             (invocationArgs added1)).
    { destruct Hinv1 as [->| ->]; [constructor|]. constructor; [|constructor].
      exists context, node, (completedNodes s). simpl.
      split_and!; [apply list_elem_of_here | done | done | done | done | done]. }
    assert (Hids1 : map (λ a, c_nodeId a.1) (invocationArgs added1)
                    `sublist_of` [nodeId context]).
    { destruct Hinv1 as [->| ->]; [apply sublist_nil_l | done]. }
    destruct c1 as [[]|err].
    + destruct (IH (λ c Hc, Hin c (list_elem_of_further _ _ _ Hc)) s1 c s' Hrun)
        as (added & Htr & Hk & Hkeyed & Hpre & Hnew & Hids & Hargs).
      { intros ctx Hctx. rewrite Hk1. apply Hkeys. by apply list_elem_of_further. }
      exists (added1 ++ added). split_and!.
      * by rewrite Htr, Htr1, <- app_assoc.
      * by rewrite Hk, Hk1.
      * auto.
      * by etrans.
      * destruct Hpre1 as [l1 Hl1]. destruct Hpre as [l2 Hl2].
        rewrite Hl2, Hl1, <- app_assoc, drop_app_length, map_app.
        rewrite Hl1, drop_app_length in Hnew1.
        rewrite Hl2, drop_app_length in Hnew.
        change (map nodeId (context :: contexts))
          with ([nodeId context] ++ map nodeId contexts).
        by apply sublist_app.
      * rewrite invocationArgs_app, map_app.
        change (map nodeId (context :: contexts))
          with ([nodeId context] ++ map nodeId contexts).
        by apply sublist_app.
      * rewrite invocationArgs_app. apply Forall_app. split.
        -- eapply Forall_impl; [exact Hargs1|]. simpl.
           intros a (c0 & n0 & done & ? & ? & ? & ? & ? & ?).
           exists c0, n0, done. split_and!; try done. by etrans.
        -- eapply Forall_impl; [exact Hargs|]. simpl.
           intros a (c0 & n0 & done & ? & ? & ? & ? & ? & ?).
           exists c0, n0, done. split_and!; try done.
           ++ by apply list_elem_of_further.
           ++ by etrans.
    + injection Hrun as <- <-. exists added1. split_and!; try done.
      * etrans; [exact Hnew1|]. apply sublist_cons_r. right.
        eexists. split; [done|]. apply sublist_nil_l.
      * etrans; [exact Hids1|]. apply sublist_cons_r. right.
        eexists. split; [done|]. apply sublist_nil_l.
Qed.



(** How the result [r] of a node follows from the executor registered
    for its type in the world [w] and from the way that executor settles
    on the inputs resolved from the outputs [done]. *)
Definition settled (context : ExecutionContext) (node : WorkflowNode) (r : RunResult)
    (w : World) (done : list NodeOutput) : Prop :=
  let cfg := {| c_nodeId := nodeId context; nodeType := n_type node;
                nodeData := n_data node |} in
  let inputs := resolveNodeInputs context done
                  (edges (workflow runner)) (ports (workflow runner)) in
  match getNodeExecutor host w (n_type node) with
  | None =>
      failedWith r
        (newError host ("No executor registered for node type: " +:+ n_type node))
  | Some executor =>
      match (executor cfg inputs w).1 with
      | Resolved out => succeededWith r out
      | Rejected e => failedWith r e
      | TimedOut =>
          failedWith r
            (newError host (timeoutMessage (effectiveTimeout (config runner))))
      end
  end.

(** The loop over the planned contexts when the listener returns
    normally: it runs to its end, every context gets the result its
    executor settles, and the outputs recorded are those of the results,
    in plan order. *)
Lemma executeNodes_quiet (contexts : list ExecutionContext) :
  NoDup (map nodeId contexts) →
  quietListener (config runner) →
  (∀ context, context ∈ contexts →
              nodeId context ∈ map n_id (nodes (workflow runner))) →
  ∀ s, ∃ s',
    forEachM (λ context, executeNode host runner (nodeId context) context) contexts s
      = (Normal tt, s') ∧
    (∀ k, k ∉ map nodeId contexts → mapGet k (resultsMap s') = mapGet k (resultsMap s)) ∧
    completedNodes s'
    = completedNodes s ++ omap (recordedBy (resultsMap s')) (map nodeId contexts) ∧
    ∀ context, context ∈ contexts →
      ∃ node r w done,
        List.find (λ n, bool_decide (n_id n = nodeId context))
                  (nodes (workflow runner)) = Some node ∧
        mapGet (nodeId context) (resultsMap s') = Some r ∧
        r_nodeId r = nodeId context ∧
        completedNodes s `prefix_of` done ∧ done `prefix_of` completedNodes s' ∧
        settled context node r w done.
Proof.
  intros Hnd Hq.
  induction contexts as [|context contexts IH]; intros Hin s.
  - exists s. simpl. rewrite app_nil_r. split_and!; try done.
    intros c Hc. by apply elem_of_nil in Hc.
  - simpl in Hnd. apply NoDup_cons in Hnd as [Hfresh Hnd].
    destruct (find_some_node (nodes (workflow runner)) (nodeId context))
      as (node & Hfind & _); [apply Hin, list_elem_of_here|].
    destruct (executeNode_quiet (nodeId context) context node s Hfind Hq)
      as (s1 & added1 & r & Hrun1 & _ & Hr & Hid & Hkeep1 & Hsettle).
    destruct (IH Hnd (λ c Hc, Hin c (list_elem_of_further _ _ _ Hc)) s1)
      as (s' & Hrun & Hkeep & Hdone & Hall).
    exists s'. simpl. unfold bind at 1. rewrite Hrun1, Hrun.
    assert (Hr' : mapGet (nodeId context) (resultsMap s') = Some r).
    { by rewrite Hkeep. }
    assert (Hstep : completedNodes s1
                    = completedNodes s
                      ++ from_option (λ o, [o]) [] (recordedBy (resultsMap s') (nodeId context)) ∧
                    settled context node r (worldAtStart (nodeId context) (world s))
                      (completedNodes s)).
    { unfold recordedBy, settled. rewrite Hr'. simpl. simpl in Hsettle.
      destruct (getNodeExecutor host _ _) as [executor|].
      - destruct Hsettle as [_ Hsettle].
        destruct (executor _ _ _).1 as [out|e|].
        all: destruct Hsettle as [-> Hs]; pose proof Hs as (? & Ho & ?).
        all: rewrite Ho; simpl; by rewrite ?app_nil_r.
      - destruct Hsettle as (_ & -> & Hs). pose proof Hs as (? & Ho & ?).
        rewrite Ho. simpl. by rewrite app_nil_r. }
    destruct Hstep as [Hstep Hset].
    split_and!.
    + done.
    + intros k Hk. apply not_elem_of_cons in Hk as [Hne Hk].
      rewrite Hkeep by done. by apply Hkeep1.
    + rewrite Hdone, Hstep, <- app_assoc. f_equal.
      destruct (recordedBy (resultsMap s') (nodeId context)); done.
    + intros c Hc. apply elem_of_cons in Hc as [->|Hc].
      * exists node, r, (worldAtStart (nodeId context) (world s)), (completedNodes s).
        split_and!; try done. rewrite Hdone, Hstep, <- app_assoc. by apply prefix_app_r.
      * destruct (Hall c Hc) as (n & r0 & w & done & ? & ? & ? & Hpre & ? & ?).
        exists n, r0, w, done. split_and!; try done.
        etrans; [|exact Hpre]. rewrite Hstep. by apply prefix_app_r.
Qed.

(** The loop that files a pending result per planned node. *)
Lemma initResults_effect startedAt (contexts : list ExecutionContext) :
  ∀ s : @RunnerState World, ∃ s0 : @RunnerState World,
    forEachM (λ context,
        modify (setResult (nodeId context)
                  (pendingResult (nodeId context) (Some startedAt)))) contexts s
      = (Normal tt, s0) ∧
    trace s0 = trace s ∧ world s0 = world s ∧
    completedNodes s0 = completedNodes s ∧
    (keyed (resultsMap s) → keyed (resultsMap s0)) ∧
    (∀ k, k ∈ map fst (resultsMap s) ∨ k ∈ map nodeId contexts →
          k ∈ map fst (resultsMap s0)) ∧
    (NoDup (map fst (resultsMap s) ++ map nodeId contexts) →
     map fst (resultsMap s0) = map fst (resultsMap s) ++ map nodeId contexts).
Proof.
  induction contexts as [|context contexts IH]; intros s; simpl.
  - exists s. rewrite app_nil_r. split_and!; try done.
    intros k [?|Hk]; [done | by apply elem_of_nil in Hk].
  - unfold bind at 1, modify at 1.
    set (s1 := setResult (nodeId context)
                 (pendingResult (nodeId context) (Some startedAt)) s).
    destruct (IH s1) as (s0 & -> & Htr & Hw & Hdone & Hkeyed & Hin & Hkeys).
    exists s0. split_and!; try done.
    + intros Hk. apply Hkeyed. by apply mapSet_Forall.
    + intros k Hk. apply Hin. simpl. rewrite mapSet_keys.
      destruct Hk as [Hk|[->|Hk]%elem_of_cons].
      * left. case_bool_decide; [done|]. apply elem_of_app. by left.
      * left. case_bool_decide; [done|]. apply elem_of_app. right.
        apply list_elem_of_here.
      * by right.
    + intros Hnd. rewrite Hkeys; simpl; rewrite mapSet_keys.
      * rewrite bool_decide_eq_false_2; [by rewrite <- app_assoc|].
        intros Hk. apply NoDup_app in Hnd as (_ & Hnd & _).
        apply (Hnd _ Hk), list_elem_of_here.
      * rewrite bool_decide_eq_false_2; [by rewrite <- app_assoc|].
        intros Hk. apply NoDup_app in Hnd as (_ & Hnd & _).
        apply (Hnd _ Hk), list_elem_of_here.
Qed.

(** [run] on a valid plan, in terms of its two loops. *)
Lemma run_valid plan s s0 c s1 :
  buildExecutionPlan (workflow runner) = Some plan →
  valid plan = true →
  forEachM (λ context,
      modify (setResult (nodeId context)
                (pendingResult (nodeId context)
                   (Some (toISOString host (dateNow host (world s)))))))
    (plan_nodes plan) s = (Normal tt, s0) →
  forEachM (λ context, executeNode host runner (nodeId context) context)
    (plan_nodes plan) s0 = (c, s1) →
  ∃ execution,
    run host runner s = Some (Normal execution, s1) ∧
    workflowId execution = m_id (metadata (workflow runner)) ∧
    executionId execution = getExecutionId runner ∧
    (c = Normal tt →
     results execution = map snd (resultsMap s1) ∧
     x_status execution = aggregateStatus (map snd (resultsMap s1))).
Proof.
  intros Hplan Hvalid Hinit Hloop.
  rewrite (run_orchestrate host runner plan s Hplan). simpl.
  unfold orchestrate. rewrite Hvalid.
  unfold bind at 1. rewrite Hinit. unfold bind at 1. rewrite Hloop.
  destruct c as [[]|err].
  - unfold bind, gets, nowISO, ret. simpl. eexists. split; [reflexivity|]. done.
  - eexists. split; [reflexivity|]. done.
Qed.

Lemma mapGet_NoDup {V} k (v : V) m :
  NoDup (map fst m) → (k, v) ∈ m → mapGet k m = Some v.
Proof.
  induction m as [|[k' v'] m IH]; intros Hnd Hin; [by apply elem_of_nil in Hin|].
  simpl in *. apply NoDup_cons in Hnd as [Hk' Hnd].
  apply elem_of_cons in Hin as [[= -> ->]|Hin].
  - by rewrite bool_decide_eq_true_2.
  - rewrite bool_decide_eq_false_2; [by apply IH|].
    intros ->. apply Hk'. apply list_elem_of_fmap. by exists (k, v).
Qed.

Lemma keyed_ids (m : list (string * RunResult)) :
  keyed m → map r_nodeId (map snd m) = map fst m.
Proof.
  induction 1 as [|[k r] m Hk _ IH]; simpl; [done|]. simpl in Hk. by rewrite Hk, IH.
Qed.

End RunnerNodes.

(* ===================================================================== *)
(** ** The runner, run by run *)
(* ===================================================================== *)

Lemma omap_keys_values {A} (f : string → option A) (g : RunResult → option A)
    (m : list (string * RunResult)) :
  (∀ k r, (k, r) ∈ m → f k = g r) →
  omap f (map fst m) = omap g (map snd m).
Proof.
  induction m as [|[k r] m IH]; intros Hfg; [done|].
  change (omap f (map fst ((k, r) :: m)))
    with (match f k with
          | Some y => y :: omap f (map fst m)
          | None => omap f (map fst m)
          end).
  change (omap g (map snd ((k, r) :: m)))
    with (match g r with
          | Some y => y :: omap g (map snd m)
          | None => omap g (map snd m)
          end).
  rewrite (Hfg k r) by apply list_elem_of_here.
  rewrite IH; [done|]. intros k' r' Hin. apply Hfg. by apply list_elem_of_further.
Qed.

Section RunnerRuns.

Context {World : Type}.
Variable host : @Host World.
Variable runner : @WorkflowRunner World.

(** A run over a valid plan of nodes with distinct ids, with a listener
    that returns normally. *)
Lemma run_quiet plan s :
  NoDup (map n_id (nodes (workflow runner))) →
  buildExecutionPlan (workflow runner) = Some plan →
  valid plan = true →
  quietListener (config runner) →
  ∃ execution s',
    run host runner s = Some (Normal execution, s') ∧
    results execution = map snd (resultsMap s') ∧
    x_status execution = aggregateStatus (results execution) ∧
    completedNodes s'
    = completedNodes s ++ omap (recordedBy (resultsMap s')) (planOrder plan) ∧
    (resultsMap s = [] →
     map fst (resultsMap s') = planOrder plan ∧ keyed (resultsMap s')) ∧
    ∀ context, context ∈ plan_nodes plan →
      ∃ r w done,
        mapGet (nodeId context) (resultsMap s') = Some r ∧
        r ∈ results execution ∧
        r_nodeId r = nodeId context ∧
        completedNodes s `prefix_of` done ∧ done `prefix_of` completedNodes s' ∧
        settled host runner context (node context) r w done.
Proof.
  intros Hnd Hplan Hvalid Hq.
  pose proof (planOrder_NoDup _ _ Hnd Hplan) as Hpnd.
  pose proof (planOrder_nodes _ _ Hplan) as Hnodes.
  destruct (initResults_effect (toISOString host (dateNow host (world s)))
              (plan_nodes plan) s)
    as (s0 & Hinit & _ & _ & Hdone0 & Hkeyed0 & Hin0 & Hkeys0).
  destruct (executeNodes_quiet host runner (plan_nodes plan) Hpnd Hq Hnodes s0)
    as (s1 & Hloop & _ & Hdone & Hall).
  destruct (run_valid host runner plan s s0 (Normal tt) s1 Hplan Hvalid Hinit Hloop)
    as (execution & Hrun & _ & _ & Hres).
  destruct (Hres eq_refl) as [Hr Hst].
  destruct (executeNodes_frame host runner (plan_nodes plan) Hnodes s0 _ s1 Hloop)
    as (added & _ & Hk & Hkd & _).
  { intros c Hc. apply Hin0. right. apply list_elem_of_fmap. eauto. }
  exists execution, s1. split_and!; try done.
  - by rewrite Hr.
  - by rewrite Hdone, Hdone0.
  - intros Hnil. rewrite Hnil in *. simpl in *. split.
    + rewrite Hk. by apply Hkeys0.
    + apply Hkd, Hkeyed0. constructor.
  - intros context Hctx.
    destruct (Hall context Hctx) as (n & r & w & done & Hfind & Hr' & Hid & Hp1 & Hp2 & Hs).
    destruct (buildExecutionPlan_contexts _ _ Hplan) as [_ Hc].
    destruct (Hc context Hctx) as [Hn Hid'].
    rewrite Hid', (find_planned_node _ _ Hnd Hn) in Hfind. injection Hfind as <-.
    exists r, w, done. split_and!; try done.
    + rewrite Hr. by eapply mapGet_elem.
    + by rewrite <- Hdone0.
Qed.

(** A run over a valid plan from a state without results. *)
Lemma run_results_in_plan_order plan s :
  NoDup (map n_id (nodes (workflow runner))) →
  buildExecutionPlan (workflow runner) = Some plan →
  valid plan = true →
  listenerAcceptsFailures (config runner) →
  resultsMap s = [] →
  ∃ execution s',
    run host runner s = Some (Normal execution, s') ∧
    workflowId execution = m_id (metadata (workflow runner)) ∧
    executionId execution = getExecutionId runner ∧
    x_status execution = aggregateStatus (results execution) ∧
    map r_nodeId (results execution) = planOrder plan ∧
    Forall (λ r, terminal (r_status r)) (results execution).
Proof.
  intros Hnd Hplan Hvalid Hacc Hnil.
  pose proof (planOrder_NoDup _ _ Hnd Hplan) as Hpnd.
  pose proof (planOrder_nodes _ _ Hplan) as Hnodes.
  destruct (initResults_effect (toISOString host (dateNow host (world s)))
              (plan_nodes plan) s)
    as (s0 & Hinit & _ & _ & _ & Hkeyed0 & Hin0 & Hkeys0).
  destruct (executeNodes_spec host runner (plan_nodes plan) Hnodes s0)
    as (c & s1 & added & Hloop & _ & _ & _ & Hsafe & _).
  destruct (Hsafe Hacc) as (-> & _ & Hterm).
  destruct (run_valid host runner plan s s0 (Normal tt) s1 Hplan Hvalid Hinit Hloop)
    as (execution & Hrun & Hwid & Hxid & Hres).
  destruct (Hres eq_refl) as [Hr Hst].
  destruct (executeNodes_frame host runner (plan_nodes plan) Hnodes s0 _ s1 Hloop)
    as (added' & _ & Hk & Hkd & _).
  { intros c Hc. apply Hin0. right. apply list_elem_of_fmap. eauto. }
  rewrite Hnil in *. simpl in *. specialize (Hkeys0 Hpnd).
  assert (Hkeys : map fst (resultsMap s1) = planOrder plan) by by rewrite Hk.
  exists execution, s1. split_and!; [done | done | done | by rewrite Hr | |].
  - rewrite Hr, keyed_ids; [done|]. apply Hkd, Hkeyed0. constructor.
  - rewrite Hr. apply Forall_forall. intros r Hin.
    apply list_elem_of_fmap in Hin as ([k r'] & -> & Hin). simpl.
    assert (Hkin : k ∈ map nodeId (plan_nodes plan)).
    { change (map nodeId (plan_nodes plan)) with (planOrder plan).
      rewrite <- Hkeys. apply list_elem_of_fmap. by exists (k, r'). }
    destruct (Hterm k Hkin) as (r0 & Hr0 & _ & Ht).
    rewrite (mapGet_NoDup k r' (resultsMap s1)) in Hr0; [|by rewrite Hkeys|done].
    by injection Hr0 as ->.
Qed.




(** A run from a state without results, over a valid plan of nodes with
    distinct ids, with a listener that returns normally: the outputs the
    run records for downstream nodes are exactly the outputs of its
    results, in plan order, and a result has status [success] and an
    output, or status [error] and an error, never both. *)
Theorem recorded_outputs_are_the_successes plan s :
  NoDup (map n_id (nodes (workflow runner))) →
  buildExecutionPlan (workflow runner) = Some plan →
  valid plan = true →
  quietListener (config runner) →
  resultsMap s = [] →
  ∃ execution s',
    run host runner s = Some (Normal execution, s') ∧
    completedNodes s'
    = completedNodes s
      ++ omap (λ r, out ← r_output r;
                    Some {| o_nodeId := r_nodeId r; o_output := out |})
              (results execution) ∧
    Forall (λ r, (r_status r = success ∧ is_Some (r_output r) ∧ r_error r = None) ∨
                 (r_status r = error ∧ r_output r = None ∧ is_Some (r_error r)))
           (results execution).
Proof.
  intros Hnd Hplan Hvalid Hq Hnil.
  destruct (run_quiet plan s Hnd Hplan Hvalid Hq)
    as (execution & s' & Hrun & Hr & _ & Hdone & Hfresh & Hall).
  destruct (Hfresh Hnil) as [Hkeys Hkeyed].
  pose proof (planOrder_NoDup _ _ Hnd Hplan) as Hpnd.
  exists execution, s'. split_and!; [done | |].
  - rewrite Hdone, Hr, <- Hkeys. f_equal. apply omap_keys_values.
    intros k r Hin. unfold recordedBy.
    rewrite (mapGet_NoDup k r) by (by rewrite ?Hkeys). simpl.
    unfold keyed in Hkeyed. rewrite Forall_forall in Hkeyed.
    pose proof (Hkeyed (k, r) Hin) as Hkr. simpl in Hkr. by rewrite Hkr.
  - rewrite Hr. apply Forall_forall. intros r Hin.
    apply list_elem_of_fmap in Hin as ([k r'] & -> & Hin). simpl.
    assert (Hkin : k ∈ planOrder plan).
    { rewrite <- Hkeys. apply list_elem_of_fmap. by exists (k, r'). }
    apply list_elem_of_fmap in Hkin as (context & -> & Hctx).
    destruct (Hall context Hctx) as (r & w & done & Hget & _ & _ & _ & _ & Hs).
    rewrite (mapGet_NoDup _ r' (resultsMap s')) in Hget; [|by rewrite Hkeys|done].
    injection Hget as <-. unfold settled in Hs.
    destruct (getNodeExecutor host w _) as [executor|].
    + destruct (executor _ _ _).1; destruct Hs as (? & ? & ?); eauto 10.
    + destruct Hs as (? & ? & ?); eauto 10.
Qed.


(** In a run over a valid plan of nodes with distinct ids, with a
    listener that returns normally, a planned node whose type has no
    registered executor gets a result with status [error], the message
    that names the type and the code EXECUTION_ERROR; no output is
    recorded for it, and the run as a whole reports [error]. *)
Theorem missing_executor_fails_the_node plan s context :
  NoDup (map n_id (nodes (workflow runner))) →
  buildExecutionPlan (workflow runner) = Some plan →
  valid plan = true →
  quietListener (config runner) →
  context ∈ plan_nodes plan →
  (∀ w, getNodeExecutor host w (n_type (node context)) = None) →
  ∃ execution s' r,
    run host runner s = Some (Normal execution, s') ∧
    r ∈ results execution ∧
    r_nodeId r = nodeId context ∧
    r_status r = error ∧
    r_output r = None ∧
    r_error r
    = Some {| message := "No executor registered for node type: "
                           +:+ n_type (node context);
              code := Some "EXECUTION_ERROR";
              details := errorStack host
                           ("No executor registered for node type: "
                              +:+ n_type (node context)) |} ∧
    (∀ o, o ∈ drop (length (completedNodes s)) (completedNodes s') →
          o_nodeId o ≠ nodeId context) ∧
    x_status execution = error.
Proof.
  intros Hnd Hplan Hvalid Hq Hctx Hmissing.
  destruct (run_quiet plan s Hnd Hplan Hvalid Hq)
    as (execution & s' & Hrun & Hr & Hst & Hdone & _ & Hall).
  destruct (Hall context Hctx) as (r & w & done & Hget & Hin & Hid & _ & _ & Hs).
  unfold settled in Hs. rewrite Hmissing in Hs. destruct Hs as (Herr & Hout & Hmsg).
  exists execution, s', r. split_and!; try done.
  - intros o Ho. rewrite Hdone, drop_app_length in Ho.
    apply list_elem_of_omap in Ho as (k & Hk & Hrec). unfold recordedBy in Hrec.
    intros Heq. destruct (mapGet k (resultsMap s')) as [r0|] eqn:Hr0; [|done].
    simpl in Hrec. destruct (r_output r0) as [out|] eqn:Hout0; [|done].
    simpl in Hrec. injection Hrec as <-. simpl in Heq. subst k.
    rewrite Hget in Hr0. injection Hr0 as <-. congruence.
  - rewrite Hst. apply aggregateStatus_error. eauto.
Qed.

(** In a run over a valid plan of nodes with distinct ids, with a
    listener that returns normally, a planned node whose executor rejects
    gets a result with status [error] that keeps the message of the
    exception, its [code] when that is a string (EXECUTION_ERROR
    otherwise) and its stack; a value that is no [Error] is reported as
    [Unknown error]; the run as a whole reports [error]. *)
Theorem rejection_is_reported_with_its_code plan s context executor e :
  NoDup (map n_id (nodes (workflow runner))) →
  buildExecutionPlan (workflow runner) = Some plan →
  valid plan = true →
  quietListener (config runner) →
  context ∈ plan_nodes plan →
  (∀ w, getNodeExecutor host w (n_type (node context)) = Some executor) →
  (∀ cfg inputs w, (executor cfg inputs w).1 = Rejected e) →
  ∃ execution s' r,
    run host runner s = Some (Normal execution, s') ∧
    r ∈ results execution ∧
    r_nodeId r = nodeId context ∧
    r_status r = error ∧
    r_error r
    = Some (match e with
            | ThrownError msg (Some (Some c)) stack =>
                {| message := msg; code := Some c; details := stack |}
            | ThrownError msg _ stack =>
                {| message := msg; code := Some "EXECUTION_ERROR"; details := stack |}
            | ThrownOther =>
                {| message := "Unknown error"; code := Some "EXECUTION_ERROR";
                   details := None |}
            end) ∧
    x_status execution = error.
Proof.
  intros Hnd Hplan Hvalid Hq Hctx Hexec Hreject.
  destruct (run_quiet plan s Hnd Hplan Hvalid Hq)
    as (execution & s' & Hrun & Hr & Hst & Hdone & _ & Hall).
  destruct (Hall context Hctx) as (r & w & done & Hget & Hin & Hid & _ & _ & Hs).
  unfold settled in Hs. rewrite Hexec, Hreject in Hs.
  destruct Hs as (Herr & Hout & Hmsg).
  exists execution, s', r. split_and!; try done.
  - rewrite Hmsg. by destruct e as [msg [[c|]|] stack|].
  - rewrite Hst. apply aggregateStatus_error. eauto.
Qed.


End RunnerRuns.


(** [runWorkflow] on a workflow with distinct node ids and a valid plan,
    with a listener that does not raise on a [failed] event: the record
    it returns is for that workflow and for the execution id generated at
    construction, and its results are one per planned node, in plan
    order, each with status [success] or [error]; the overall status is
    [error] exactly when one of them is. *)
Theorem runWorkflow_results_follow_plan_order {World} (host : @Host World)
    (workflow : Workflow) (config0 : option (@RunnerConfig World))
    (now : N) (random36 : string) (w : World) plan :
  NoDup (map n_id (nodes workflow)) →
  buildExecutionPlan workflow = Some plan →
  valid plan = true →
  (∀ given, config0 = Some given → listenerAcceptsFailures given) →
  ∃ execution s',
    runWorkflow host workflow config0 now random36 w = Some (Normal execution, s') ∧
    workflowId execution = m_id (metadata workflow) ∧
    executionId execution = generateExecutionId now random36 ∧
    map r_nodeId (results execution) = planOrder plan ∧
    Forall (λ r, terminal (r_status r)) (results execution) ∧
    (x_status execution = error ↔
     ∃ r, r ∈ results execution ∧ r_status r = error) ∧
    (x_status execution = success ↔
     ∀ r, r ∈ results execution → r_status r = success).
Proof.
  intros Hnd Hplan Hvalid Hacc. unfold runWorkflow.
  destruct (run_results_in_plan_order host (createRunner workflow config0 now random36)
              plan (freshState w) Hnd Hplan Hvalid)
    as (execution & s' & Hrun & Hwid & Hxid & Hst & Hids & Hterm).
  { unfold createRunner. intros listener Hl. simpl in Hl.
    destruct config0 as [given|]; simpl in Hl; [|done].
    by apply (Hacc given eq_refl). }
  { done. }
  exists execution, s'. split_and!; try done.
  - rewrite Hst. apply aggregateStatus_error.
  - rewrite Hst, aggregateStatus_success. rewrite Forall_forall in Hterm. split.
    + intros Hall r Hin. destruct (Hterm r Hin) as [?|?]; [done|]. by destruct (Hall r Hin).
    + intros Hall r Hin. by rewrite (Hall r Hin).
Qed.

(* ===================================================================== *)
(** ** The node registry and the built-in executors *)
(* ===================================================================== *)

Lemma mapGet_is_Some {V} k (m : list (string * V)) :
  is_Some (mapGet k m) ↔ k ∈ map fst m.
Proof.
  induction m as [|[k' v'] m IH]; simpl.
  - split; [by intros [? ?] | by intros ?%elem_of_nil].
  - destruct (decide (k' = k)) as [->|Hne].
    + rewrite bool_decide_eq_true_2 by done. split; [intros _|by eauto].
      apply list_elem_of_here.
    + rewrite bool_decide_eq_false_2 by done. rewrite IH, elem_of_cons.
      split; [by right|]. by intros [?|?].
Qed.

(** Registering and looking up: a registration is found again under its
    type, replaces an earlier registration of that type without moving
    it in the list of types, and leaves every other type alone; a type is
    registered exactly when it has an executor, and no type is listed
    twice. *)
Theorem registerNode_then_lookup {World} (nodeType : string)
    (executor : @NodeExecutor World) (description : option string)
    (nodeRegistry : @Registry.NodeRegistry World) (t : string) :
  let nodeRegistry' :=
    Registry.registerNode nodeType executor description nodeRegistry in
  Registry.getNodeExecutor t nodeRegistry'
  = (if decide (t = nodeType) then Some executor
     else Registry.getNodeExecutor t nodeRegistry) ∧
  (Registry.isNodeTypeRegistered t nodeRegistry = true ↔
   is_Some (Registry.getNodeExecutor t nodeRegistry)) ∧
  (Registry.isNodeTypeRegistered t nodeRegistry = true ↔
   t ∈ Registry.getRegisteredNodeTypes nodeRegistry) ∧
  Registry.getRegisteredNodeTypes nodeRegistry'
  = (if decide (nodeType ∈ Registry.getRegisteredNodeTypes nodeRegistry)
     then Registry.getRegisteredNodeTypes nodeRegistry
     else Registry.getRegisteredNodeTypes nodeRegistry ++ [nodeType]) ∧
  (NoDup (Registry.getRegisteredNodeTypes nodeRegistry) →
   NoDup (Registry.getRegisteredNodeTypes nodeRegistry')).
Proof.
  unfold Registry.getNodeExecutor, Registry.registerNode, Registry.isNodeTypeRegistered,
    Registry.getRegisteredNodeTypes. simpl.
  assert (Hkeys : map fst (mapSet nodeType
                    {| Registry.type := nodeType; Registry.executor := executor;
                       Registry.description := description |} nodeRegistry)
                  = if decide (nodeType ∈ map fst nodeRegistry) then map fst nodeRegistry
                    else map fst nodeRegistry ++ [nodeType]).
  { rewrite mapSet_keys. destruct (decide (nodeType ∈ map fst nodeRegistry)).
    - by rewrite bool_decide_eq_true_2.
    - by rewrite bool_decide_eq_false_2. }
  split_and!.
  - destruct (decide (t = nodeType)) as [->|Hne].
    + by rewrite mapGet_mapSet_eq.
    + by rewrite mapGet_mapSet_ne.
  - rewrite bool_decide_eq_true. by rewrite fmap_is_Some.
  - rewrite bool_decide_eq_true. apply mapGet_is_Some.
  - done.
  - intros Hnd. rewrite Hkeys. destruct (decide (nodeType ∈ map fst nodeRegistry)); [done|].
    apply NoDup_app. split_and!; [done | | apply NoDup_singleton].
    intros y Hy ->%list_elem_of_singleton. done.
Qed.

(** Each built-in executor returns the fields of its node with the
    inputs spread over them.  Every input reaches the output unchanged,
    also when the node has a field of the same name.  Under a key that
    no input has, the output holds the field of the node: [content],
    [url] and [alt] as they are stored, or the empty string when they are
    missing or falsy; [format] likewise with the default [mp4]; [width],
    [height] and [duration] as they are stored, [undefined] when they are
    missing; [label] as stored, or the name of the node kind when it is
    empty.  The output has no other keys. *)
Theorem builtin_outputs_pass_inputs_through
    (config : NodeExecutionConfig) (inputs : gmap string JsValue) :
  let field k := fields (nodeData config) !! k in
  let own (out : gmap string JsValue) k v := inputs !! k = None → out !! k = Some v in
  Forall (λ out : gmap string JsValue,
            inputs ⊆ out ∧
            (inputs !! "label" = None →
             ∃ text, out !! "label" = Some (JStr text) ∧ text ≠ ""))
         [textOutput config inputs; imageOutput config inputs;
          videoOutput config inputs] ∧
  dom (textOutput config inputs) = dom inputs ∪ {["content"; "label"]} ∧
  dom (imageOutput config inputs)
  = dom inputs ∪ {["url"; "alt"; "width"; "height"; "label"]} ∧
  dom (videoOutput config inputs)
  = dom inputs ∪ {["url"; "format"; "duration"; "label"]} ∧
  (own (textOutput config inputs) "content" (orElse (field "content") (JStr "")) ∧
   own (textOutput config inputs) "label" (labelOr (nodeData config) "Text Node")) ∧
  (own (imageOutput config inputs) "url" (orElse (field "url") (JStr "")) ∧
   own (imageOutput config inputs) "alt" (orElse (field "alt") (JStr "")) ∧
   own (imageOutput config inputs) "width" (orUndefined (field "width")) ∧
   own (imageOutput config inputs) "height" (orUndefined (field "height")) ∧
   own (imageOutput config inputs) "label" (labelOr (nodeData config) "Image Node")) ∧
  (own (videoOutput config inputs) "url" (orElse (field "url") (JStr "")) ∧
   own (videoOutput config inputs) "format" (orElse (field "format") (JStr "mp4")) ∧
   own (videoOutput config inputs) "duration" (orUndefined (field "duration")) ∧
   own (videoOutput config inputs) "label" (labelOr (nodeData config) "Video Node")) ∧
  (∀ fallback, labelOr (nodeData config) fallback
               = JStr (if decide (label (nodeData config) = "") then fallback
                       else label (nodeData config))) ∧
  (∀ v fallback, jsTruthy v = true → orElse (Some v) fallback = v) ∧
  (∀ v fallback, jsTruthy v = false → orElse (Some v) fallback = fallback) ∧
  (∀ fallback, orElse None fallback = fallback).
Proof.
  intros field own.
  assert (Hlabel : ∀ fallback, fallback ≠ "" →
            ∃ text, labelOr (nodeData config) fallback = JStr text ∧ text ≠ "").
  { intros fallback Hf. unfold labelOr.
    destruct (String.eqb_spec (label (nodeData config)) ""); eauto. }
  split_and!.
  - repeat constructor.
    + apply map_union_subseteq_l.
    + intros Hnone. unfold textOutput.
      destruct (Hlabel "Text Node") as (text & Heq & Hne); [done|].
      exists text. split; [|done].
      rewrite lookup_union_r by done. rewrite lookup_insert_ne by done.
      by rewrite lookup_insert_eq, Heq.
    + apply map_union_subseteq_l.
    + intros Hnone. unfold imageOutput.
      destruct (Hlabel "Image Node") as (text & Heq & Hne); [done|].
      exists text. split; [|done].
      rewrite lookup_union_r by done. rewrite !lookup_insert_ne by done.
      by rewrite lookup_insert_eq, Heq.
    + apply map_union_subseteq_l.
    + intros Hnone. unfold videoOutput.
      destruct (Hlabel "Video Node") as (text & Heq & Hne); [done|].
      exists text. split; [|done].
      rewrite lookup_union_r by done. rewrite !lookup_insert_ne by done.
      by rewrite lookup_insert_eq, Heq.
  - unfold textOutput. rewrite dom_union_L, !dom_insert_L, dom_empty_L. set_solver.
  - unfold imageOutput. rewrite dom_union_L, !dom_insert_L, dom_empty_L. set_solver.
  - unfold videoOutput. rewrite dom_union_L, !dom_insert_L, dom_empty_L. set_solver.
  - intros Hnone. unfold textOutput. rewrite lookup_union_r by done.
    by rewrite lookup_insert_eq.
  - intros Hnone. unfold textOutput. rewrite lookup_union_r by done.
    rewrite lookup_insert_ne by done. by rewrite lookup_insert_eq.
  - intros Hnone. unfold imageOutput. rewrite lookup_union_r by done.
    by rewrite lookup_insert_eq.
  - intros Hnone. unfold imageOutput. rewrite lookup_union_r by done.
    rewrite !lookup_insert_ne by done. by rewrite lookup_insert_eq.
  - intros Hnone. unfold imageOutput. rewrite lookup_union_r by done.
    rewrite !lookup_insert_ne by done. by rewrite lookup_insert_eq.
  - intros Hnone. unfold imageOutput. rewrite lookup_union_r by done.
    rewrite !lookup_insert_ne by done. by rewrite lookup_insert_eq.
  - intros Hnone. unfold imageOutput. rewrite lookup_union_r by done.
    rewrite !lookup_insert_ne by done. by rewrite lookup_insert_eq.
  - intros Hnone. unfold videoOutput. rewrite lookup_union_r by done.
    by rewrite lookup_insert_eq.
  - intros Hnone. unfold videoOutput. rewrite lookup_union_r by done.
    rewrite !lookup_insert_ne by done. by rewrite lookup_insert_eq.
  - intros Hnone. unfold videoOutput. rewrite lookup_union_r by done.
    rewrite !lookup_insert_ne by done. by rewrite lookup_insert_eq.
  - intros Hnone. unfold videoOutput. rewrite lookup_union_r by done.
    rewrite !lookup_insert_ne by done. by rewrite lookup_insert_eq.
  - intros fallback. unfold labelOr.
    destruct (String.eqb_spec (label (nodeData config)) "") as [Heq|Hne].
    + by rewrite decide_True.
    + by rewrite decide_False.
  - intros v fallback Hv. simpl. by rewrite Hv.
  - intros v fallback Hv. simpl. by rewrite Hv.
  - done.
Qed.



(* ===================================================================== *)
(** ** Rate limiting *)
(* ===================================================================== *)

(** Requests of a client whose window is open and holds [c] requests
    already: the request after [i] more is allowed while [c + i] stays
    below the limit. *)
Lemma checkAll_in_window identifier (times : list Z) :
  ∀ store c R,
    store !! identifier = Some {| RateLimit.count := c; RateLimit.resetTime := R |} →
    (1 ≤ c ≤ 100)%Z →
    Forall (λ t, (t ≤ R)%Z) times →
    ∀ i v, (RateLimit.checkAll times identifier store).1 !! i = Some v →
      RateLimit.allowed v = bool_decide (c + Z.of_nat i < 100)%Z ∧
      RateLimit.remaining v = Z.max 0 (99 - c - Z.of_nat i).
Proof.
  induction times as [|t times IH]; intros store c R Hentry Hc Hwin i v Hv; [done|].
  apply Forall_cons in Hwin as [Ht Hwin]. simpl in Hv.
  unfold RateLimit.checkRateLimit in Hv. rewrite Hentry in Hv. simpl in Hv.
  rewrite bool_decide_eq_false_2 in Hv by lia.
  unfold RateLimit.RATE_LIMIT_MAX_REQUESTS in Hv.
  case_bool_decide as Hfull.
  - destruct (RateLimit.checkAll times identifier store) as [verdicts store'] eqn:Hrest.
    destruct i as [|i]; simpl in Hv.
    + injection Hv as <-. simpl. split; [|lia].
      symmetry. apply bool_decide_eq_false. lia.
    + assert (c = 100%Z) as -> by lia.
      destruct (IH store 100%Z R Hentry ltac:(lia) Hwin i v) as [Ha Hr].
      { by rewrite Hrest. }
      rewrite Ha, Hr. split; [|lia].
      rewrite !bool_decide_eq_false_2; [done | lia | lia].
  - destruct (RateLimit.checkAll times identifier _) as [verdicts store'] eqn:Hrest.
    destruct i as [|i]; simpl in Hv.
    + injection Hv as <-. simpl. split; [|lia].
      symmetry. apply bool_decide_eq_true. lia.
    + destruct (IH (<[identifier := {| RateLimit.count := (c + 1)%Z;
                                       RateLimit.resetTime := R |}]> store)
                  (c + 1)%Z R) with (i := i) (v := v) as [Ha Hr];
        [apply lookup_insert_eq | lia | done | by rewrite Hrest |].
      rewrite Ha, Hr. split; [|lia].
      apply bool_decide_ext. lia.
Qed.

(** One request, for a client identifier that is no inherited property
    name: it is refused exactly when the client's window is still open and
    already holds the maximum of 100 requests, and then the store is left
    as it is; a client without a window or with an expired one starts a
    window of 60000 ms with 99 requests remaining; a request allowed
    within a window is counted and told how many remain; the entries of
    other clients are never touched and no count leaves the range
    1..100. *)
Theorem checkRateLimit_verdict (now : Z) (identifier : string)
    (store : gmap string RateLimit.Entry) :
  identifier ∉ RateLimit.inheritedKeys →
  let verdict := (RateLimit.checkRateLimit now identifier store).1 in
  let store' := (RateLimit.checkRateLimit now identifier store).2 in
  (RateLimit.allowed verdict = false ↔
   ∃ e, store !! identifier = Some e ∧ (now ≤ RateLimit.resetTime e)%Z ∧
        (100 ≤ RateLimit.count e)%Z) ∧
  (RateLimit.allowed verdict = false → store' = store ∧ RateLimit.remaining verdict = 0%Z) ∧
  ((∀ e, store !! identifier = Some e → (RateLimit.resetTime e < now)%Z) →
   verdict = {| RateLimit.allowed := true; RateLimit.remaining := 99 |} ∧
   store' !! identifier
   = Some {| RateLimit.count := 1; RateLimit.resetTime := (now + 60000)%Z |}) ∧
  (∀ e, store !! identifier = Some e → (now ≤ RateLimit.resetTime e)%Z →
        (RateLimit.count e < 100)%Z →
        verdict = {| RateLimit.allowed := true;
                     RateLimit.remaining := (99 - RateLimit.count e)%Z |} ∧
        store' !! identifier
        = Some {| RateLimit.count := (RateLimit.count e + 1)%Z;
                  RateLimit.resetTime := RateLimit.resetTime e |}) ∧
  (∀ other, other ≠ identifier → store' !! other = store !! other) ∧
  ((∀ k e, store !! k = Some e → (1 ≤ RateLimit.count e ≤ 100)%Z) →
   ∀ k e, store' !! k = Some e → (1 ≤ RateLimit.count e ≤ 100)%Z).
Proof.
  intros _. unfold RateLimit.checkRateLimit,
    RateLimit.RATE_LIMIT_MAX_REQUESTS, RateLimit.RATE_LIMIT_WINDOW.
  destruct (store !! identifier) as [[c R]|] eqn:Hentry; simpl.
  - destruct (decide (R < now)%Z) as [Hexp|Hopen].
    + rewrite bool_decide_eq_true_2 by done. simpl. split_and!.
      * split; [done|]. intros (e & [= <-] & ? & ?). simpl in *. lia.
      * done.
      * intros _. by rewrite lookup_insert_eq.
      * intros e [= <-] ? ?. simpl in *. lia.
      * intros other Hne. by rewrite lookup_insert_ne.
      * intros Hinv k e. destruct (decide (k = identifier)) as [->|Hne].
        -- rewrite lookup_insert_eq. intros [= <-]. simpl. lia.
        -- rewrite lookup_insert_ne by done. apply Hinv.
    + rewrite bool_decide_eq_false_2 by done.
      destruct (decide (100 ≤ c)%Z) as [Hfull|Hroom].
      * rewrite bool_decide_eq_true_2 by done. simpl. split_and!.
        -- split; [intros _|done]. eexists. split; [done|]. simpl. lia.
        -- done.
        -- intros Hall. specialize (Hall _ eq_refl). simpl in Hall. lia.
        -- intros e [= <-] ? ?. simpl in *. lia.
        -- done.
        -- done.
      * rewrite bool_decide_eq_false_2 by done. simpl. split_and!.
        -- split; [done|]. intros (e & [= <-] & ? & ?). simpl in *. lia.
        -- done.
        -- intros Hall. specialize (Hall _ eq_refl). simpl in Hall. lia.
        -- intros e [= <-] ? ?. simpl. split; [f_equal; lia|].
           by rewrite lookup_insert_eq.
        -- intros other Hne. by rewrite lookup_insert_ne.
        -- intros Hinv k e. destruct (decide (k = identifier)) as [->|Hne].
           ++ rewrite lookup_insert_eq. intros [= <-]. simpl.
              specialize (Hinv _ _ Hentry). simpl in Hinv. lia.
           ++ rewrite lookup_insert_ne by done. apply Hinv.
  - split_and!.
    + split; [done|]. by intros (e & ? & _).
    + done.
    + intros _. by rewrite lookup_insert_eq.
    + done.
    + intros other Hne. by rewrite lookup_insert_ne.
    + intros Hinv k e. destruct (decide (k = identifier)) as [->|Hne].
      * rewrite lookup_insert_eq. intros [= <-]. simpl. lia.
      * rewrite lookup_insert_ne by done. apply Hinv.
Qed.

(** A series of requests of one client that starts a window (the client
    has no window or an expired one when the first request arrives) and
    whose later requests all arrive before the window closes: exactly the
    first 100 are allowed, and the request at position [i] is told that
    [99 - i] remain. *)
Theorem rate_limit_allows_100_per_window (identifier : string)
    (store : gmap string RateLimit.Entry) (first : Z) (later : list Z) :
  identifier ∉ RateLimit.inheritedKeys →
  (∀ e, store !! identifier = Some e → (RateLimit.resetTime e < first)%Z) →
  Forall (λ t, (t ≤ first + 60000)%Z) later →
  ∀ i v, (RateLimit.checkAll (first :: later) identifier store).1 !! i = Some v →
    RateLimit.allowed v = bool_decide (i < 100) ∧
    RateLimit.remaining v = Z.max 0 (99 - Z.of_nat i).
Proof.
  intros _ Hstart Hwin i v Hv. simpl in Hv.
  assert (Hfirst : RateLimit.checkRateLimit first identifier store
                   = ({| RateLimit.allowed := true; RateLimit.remaining := 99 |},
                      <[identifier := {| RateLimit.count := 1;
                                         RateLimit.resetTime := (first + 60000)%Z |}]>
                        store)).
  { unfold RateLimit.checkRateLimit. destruct (store !! identifier) as [e|] eqn:He; [|done].
    by rewrite bool_decide_eq_true_2 by by apply Hstart. }
  rewrite Hfirst in Hv.
  destruct (RateLimit.checkAll later identifier _) as [verdicts store'] eqn:Hrest.
  destruct i as [|i]; simpl in Hv.
  - injection Hv as <-. done.
  - destruct (checkAll_in_window identifier later
                (<[identifier := {| RateLimit.count := 1;
                                    RateLimit.resetTime := (first + 60000)%Z |}]> store)
                1%Z (first + 60000)%Z) with (i := i) (v := v) as [Ha Hr];
      [apply lookup_insert_eq | lia | done | by rewrite Hrest |].
    rewrite Ha, Hr. split; [|lia]. apply bool_decide_ext. lia.
Qed.

(* ===================================================================== *)
(** ** The builder keeps its graph valid *)
(* ===================================================================== *)

Lemma acyclic_subgraph (edges edges' : list WorkflowEdge) :
  (∀ e, e ∈ edges' → e ∈ edges) → acyclic edges → acyclic edges'.
Proof.
  intros Hsub Hacyc x Hcyc. apply (Hacyc x). unfold onCycle in *.
  apply (tc_congruence (λ y : string, y) (edgeRel edges)) in Hcyc; [done|].
  intros u v (e & He & ? & ?). exists e. auto.
Qed.

(** A valid graph stays valid when edges are dropped and the remaining
    edges still join nodes that are kept. *)
Lemma valid_subgraph nodes edges nodes' edges' v :
  validateWorkflowDAG nodes edges = Some v → v_valid v = true →
  (∀ e, e ∈ edges' → e ∈ edges) →
  (∀ e, e ∈ edges' → source e ∈ map n_id nodes' ∧ target e ∈ map n_id nodes') →
  ∃ v', validateWorkflowDAG nodes' edges' = Some v' ∧ v_valid v' = true.
Proof.
  intros Hv Hvalid Hsub Hends.
  destruct (validateWorkflowDAG_valid_iff nodes edges) as (v0 & Hv0 & Hiff).
  rewrite Hv in Hv0. injection Hv0 as <-.
  apply Hiff in Hvalid as [Hdet Hall].
  destruct (validateWorkflowDAG_valid_iff nodes' edges') as (v' & Hv' & Hiff').
  exists v'. split; [done|]. apply Hiff'. split; [|done].
  apply detectCycle_acyclic. apply (acyclic_subgraph edges); [done|].
  eapply detectCycle_false_acyclic; [|done]. by intros e [? _]%Hall.
Qed.

(** The adjacency list, and with it the search for a cycle, reads only
    the endpoints of the edges. *)
Lemma buildAdjacencyList_endpoints nodes (edges1 edges2 : list WorkflowEdge) :
  map (λ e, (source e, target e)) edges1 = map (λ e, (source e, target e)) edges2 →
  buildAdjacencyList nodes edges1 = buildAdjacencyList nodes edges2.
Proof.
  unfold buildAdjacencyList. generalize (foldl (λ adj node, <[n_id node := []]> adj)
                                           (∅ : gmap string (list string)) nodes).
  revert edges2. induction edges1 as [|e1 edges1 IH]; intros [|e2 edges2] adj Heq;
    simpl in *; try done.
  injection Heq as Hs Ht Heq. rewrite Hs, Ht. by apply IH.
Qed.

Lemma detectCycle_endpoints nodes (edges1 edges2 : list WorkflowEdge) :
  map (λ e, (source e, target e)) edges1 = map (λ e, (source e, target e)) edges2 →
  detectCycle nodes edges1 = detectCycle nodes edges2.
Proof.
  intros Heq. unfold detectCycle, dfsFuel.
  rewrite (buildAdjacencyList_endpoints nodes edges1 edges2 Heq).
  apply (f_equal length) in Heq. rewrite !length_map in Heq. by rewrite Heq.
Qed.

(** [addEdge] only ever extends a graph to one that passes validation.
    It returns an edge exactly when no edge joins the two ids yet and the
    graph with the new edge is valid: both ids name nodes and no cycle is
    found.  The edge that is kept carries another id than the one that
    was tried; the graph with it is valid all the same.  A refusal leaves
    the state as it is. *)
Theorem addEdge_keeps_the_graph_valid (now1 : N) (random1 : string) (now2 : N)
    (random2 : string) (sourceId targetId : string) (sourcePort targetPort : option string)
    (state : WorkflowBuilderState) :
  ∃ result state',
    addEdge now1 random1 now2 random2 sourceId targetId sourcePort targetPort state
    = Some (result, state') ∧
    match result with
    | Some edge =>
        edge = createEdge now2 random2 sourceId targetId sourcePort targetPort None ∧
        b_edges state' = b_edges state ++ [edge] ∧
        b_nodes state' = b_nodes state ∧ b_ports state' = b_ports state ∧
        isDirty state' = true ∧
        (∀ e, e ∈ b_edges state → ¬ (source e = sourceId ∧ target e = targetId)) ∧
        sourceId ∈ map n_id (b_nodes state) ∧ targetId ∈ map n_id (b_nodes state) ∧
        sourceId ≠ targetId ∧
        ∃ v, validate state' = Some v ∧ v_valid v = true
    | None =>
        state' = state ∧
        ((∃ e, e ∈ b_edges state ∧ source e = sourceId ∧ target e = targetId) ∨
         ∃ v, validateWorkflowDAG (b_nodes state)
                (b_edges state
                 ++ [createEdge now1 random1 sourceId targetId sourcePort targetPort None])
              = Some v ∧ v_valid v = false)
    end.
Proof.
  unfold addEdge.
  destruct (existsb _ (b_edges state)) eqn:Hex.
  { eexists None, state. split; [done|]. split; [done|]. left.
    apply existsb_exists in Hex as (e & He & Hb).
    apply bool_decide_eq_true in Hb as [? ?]. exists e.
    split_and!; [by apply list_elem_of_In | done | done]. }
  set (trial := createEdge now1 random1 sourceId targetId sourcePort targetPort None).
  set (edge := createEdge now2 random2 sourceId targetId sourcePort targetPort None).
  destruct (validateWorkflowDAG_valid_iff (b_nodes state) (b_edges state ++ [trial]))
    as (v & Hv & Hiff).
  rewrite Hv. simpl. destruct (v_valid v) eqn:Hvalid.
  2:{ eexists None, state. split; [done|]. split; [done|]. right. by exists v. }
  eexists (Some edge), _. split; [reflexivity|]. simpl.
  destruct (proj1 Hiff eq_refl) as [Hdet Hends].
  assert (Hsame : map (λ e, (source e, target e)) (b_edges state ++ [trial])
                  = map (λ e, (source e, target e)) (b_edges state ++ [edge])).
  { by rewrite !map_app. }
  destruct (Hends trial) as [Hs Ht].
  { apply elem_of_app. right. apply list_elem_of_here. }
  split_and!; try done.
  - intros e He [? ?].
    assert (existsb (λ e, bool_decide (source e = sourceId ∧ target e = targetId))
              (b_edges state) = true); [|congruence].
    apply existsb_exists. exists e. split; [by apply list_elem_of_In|].
    by apply bool_decide_eq_true.
  - intros ->.
    destruct (detectCycle_spec (b_nodes state) (b_edges state ++ [trial]))
      as (b & Hb & Hpost).
    rewrite Hdet in Hb. injection Hb as <-.
    apply (Hpost targetId Ht). apply tc_once. exists trial.
    split; [|done]. apply elem_of_app. right. apply list_elem_of_here.
  - unfold validate. simpl.
    destruct (validateWorkflowDAG_valid_iff (b_nodes state) (b_edges state ++ [edge]))
      as (v' & Hv' & Hiff').
    exists v'. split; [done|]. apply Hiff'. split.
    + by rewrite <- (detectCycle_endpoints _ _ _ Hsame).
    + intros e [He|He%list_elem_of_singleton]%elem_of_app.
      * apply Hends. apply elem_of_app. by left.
      * subst e. done.
Qed.

(** Removing a node, an edge, a port or the selection never invalidates
    the graph: a state that passes validation still passes it afterwards,
    since a node is removed together with the edges that touch it. *)
Theorem removals_keep_the_graph_valid (state : WorkflowBuilderState) v
    (nodeId edgeId portId : string) :
  validate state = Some v → v_valid v = true →
  Forall (λ state', ∃ v', validate state' = Some v' ∧ v_valid v' = true)
         [removeNode nodeId state; removeEdge edgeId state;
          removePort portId state; deleteSelected state].
Proof.
  unfold validate. intros Hv Hvalid.
  destruct (validateWorkflowDAG_valid_iff (b_nodes state) (b_edges state))
    as (v0 & Hv0 & Hiff).
  rewrite Hv in Hv0. injection Hv0 as <-.
  destruct (proj1 Hiff Hvalid) as [_ Hends].
  repeat constructor; simpl.
  - eapply valid_subgraph; [done | done | |].
    + by intros e [_ ?]%list_elem_of_filter.
    + intros e [[Hs Ht] He]%list_elem_of_filter.
      destruct (Hends e He) as [Hsn Htn].
      split; apply list_elem_of_fmap.
      * apply list_elem_of_fmap in Hsn as (n & Hn & Hin). exists n.
        split; [done|]. apply list_elem_of_filter. split; [congruence|done].
      * apply list_elem_of_fmap in Htn as (n & Hn & Hin). exists n.
        split; [done|]. apply list_elem_of_filter. split; [congruence|done].
  - eapply valid_subgraph; [done | done | |].
    + by intros e [_ ?]%list_elem_of_filter.
    + intros e [_ He]%list_elem_of_filter. by apply Hends.
  - eapply valid_subgraph; [done | done | |].
    + by intros e [_ ?]%list_elem_of_filter.
    + intros e [_ He]%list_elem_of_filter. by apply Hends.
  - eapply valid_subgraph; [done | done | |].
    + by intros e [_ ?]%list_elem_of_filter.
    + intros e [(_ & Hs & Ht) He]%list_elem_of_filter.
      destruct (Hends e He) as [Hsn Htn].
      split; apply list_elem_of_fmap.
      * apply list_elem_of_fmap in Hsn as (n & Hn & Hin). exists n.
        split; [done|]. apply list_elem_of_filter. split; [congruence|done].
      * apply list_elem_of_fmap in Htn as (n & Hn & Hin). exists n.
        split; [done|]. apply list_elem_of_filter. split; [congruence|done].
Qed.

(** Removing a node leaves nothing behind that refers to it: no node
    carries the id, no edge starts or ends at it, no port belongs to it
    and it is not selected; nodes, edges and ports that do not refer to
    it are kept, in their order.  Removing it again changes nothing. *)
Theorem removeNode_leaves_no_reference (nodeId : string) (state : WorkflowBuilderState) :
  let state' := removeNode nodeId state in
  nodeId ∉ map n_id (b_nodes state') ∧
  (∀ e, e ∈ b_edges state' → source e ≠ nodeId ∧ target e ≠ nodeId) ∧
  (∀ p, p ∈ b_ports state' → p_nodeId p ≠ nodeId) ∧
  nodeId ∉ selectedNodeIds state' ∧
  (∀ n, n ∈ b_nodes state' ↔ n ∈ b_nodes state ∧ n_id n ≠ nodeId) ∧
  (∀ e, e ∈ b_edges state' ↔
        e ∈ b_edges state ∧ source e ≠ nodeId ∧ target e ≠ nodeId) ∧
  (∀ p, p ∈ b_ports state' ↔ p ∈ b_ports state ∧ p_nodeId p ≠ nodeId) ∧
  b_nodes state' `sublist_of` b_nodes state ∧
  b_edges state' `sublist_of` b_edges state ∧
  removeNode nodeId state' = state'.
Proof.
  simpl. split_and!.
  - intros (n & Hid & [Hne _]%list_elem_of_filter)%list_elem_of_fmap. congruence.
  - by intros e [? _]%list_elem_of_filter.
  - by intros p [? _]%list_elem_of_filter.
  - set_solver.
  - intros n. rewrite list_elem_of_filter. tauto.
  - intros e. rewrite list_elem_of_filter. tauto.
  - intros p. rewrite list_elem_of_filter. tauto.
  - apply sublist_filter.
  - apply sublist_filter.
  - unfold removeNode. simpl. f_equal.
    + rewrite list_filter_filter. apply list_filter_iff. tauto.
    + rewrite list_filter_filter. apply list_filter_iff. tauto.
    + rewrite list_filter_filter. apply list_filter_iff. tauto.
    + set_solver.
Qed.

(** Selecting: a plain click selects the one node and drops every other
    selection, also when the node was selected already; a click with
    [multi] toggles the node and leaves the rest of both selections
    alone, so two such clicks restore the state.  Neither touches the
    graph or the dirty flag. *)
Theorem selectNode_toggles (nodeId : string) (state : WorkflowBuilderState) :
  selectedNodeIds (selectNode nodeId false state) = {[nodeId]} ∧
  selectedEdgeIds (selectNode nodeId false state) = ∅ ∧
  (nodeId ∈ selectedNodeIds (selectNode nodeId true state) ↔
   nodeId ∉ selectedNodeIds state) ∧
  (∀ other, other ≠ nodeId →
     (other ∈ selectedNodeIds (selectNode nodeId true state) ↔
      other ∈ selectedNodeIds state)) ∧
  selectNode nodeId true (selectNode nodeId true state) = state ∧
  (∀ multi,
     b_nodes (selectNode nodeId multi state) = b_nodes state ∧
     b_edges (selectNode nodeId multi state) = b_edges state ∧
     b_ports (selectNode nodeId multi state) = b_ports state ∧
     isDirty (selectNode nodeId multi state) = isDirty state).
Proof.
  unfold selectNode, toggle. simpl. split_and!.
  - rewrite bool_decide_eq_false_2 by set_solver. set_solver.
  - done.
  - case_bool_decide; set_solver.
  - intros other Hne. case_bool_decide; set_solver.
  - destruct state as [wf ns es ps sn se d]. simpl. f_equal.
    destruct (decide (nodeId ∈ sn)) as [Hin|Hout].
    + rewrite (bool_decide_eq_true_2 (nodeId ∈ sn)) by done.
      rewrite bool_decide_eq_false_2 by set_solver.
      apply set_eq. intros x. destruct (decide (x = nodeId)); set_solver.
    + rewrite (bool_decide_eq_false_2 (nodeId ∈ sn)) by done.
      rewrite bool_decide_eq_true_2 by set_solver. set_solver.
  - done.
Qed.

(* ===================================================================== *)
(** ** Navigation helpers *)
(* ===================================================================== *)

Lemma adjacency_keys_nodes (nodes : list WorkflowNode) x :
  ∀ adj : gmap string (list string),
    is_Some (foldl (λ adj node, <[n_id node := []]> adj) adj nodes !! x) ↔
    is_Some (adj !! x) ∨ x ∈ map n_id nodes.
Proof.
  induction nodes as [|n nodes IH]; intros adj; simpl.
  - rewrite elem_of_nil. tauto.
  - rewrite IH, elem_of_cons. destruct (decide (n_id n = x)) as [->|Hne].
    + rewrite lookup_insert_eq. split; [auto|]. intros _. left. eauto.
    + rewrite lookup_insert_ne by done. split; [tauto|].
      intros [?|[?|?]]; auto. congruence.
Qed.

Lemma adjacency_keys_edges (edges : list WorkflowEdge) x :
  ∀ adj : gmap string (list string),
    is_Some (foldl (λ adj edge,
                      let neighbors := default [] (adj !! source edge) in
                      <[source edge := neighbors ++ [target edge]]> adj) adj edges !! x) ↔
    is_Some (adj !! x) ∨ x ∈ map source edges.
Proof.
  induction edges as [|e edges IH]; intros adj; simpl.
  - rewrite elem_of_nil. tauto.
  - rewrite IH, elem_of_cons. destruct (decide (source e = x)) as [->|Hne].
    + rewrite lookup_insert_eq. split; [auto|]. intros _. left. eauto.
    + rewrite lookup_insert_ne by done. split; [tauto|].
      intros [?|[?|?]]; auto. congruence.
Qed.

(** The ways of walking the graph agree.  The adjacency list maps an id
    to what [getNodeDependents] returns for it and has a key for every
    node and every edge source, nothing else; the in-degree that
    [topologicalSort] starts from is the number of entries
    [getNodeDependencies] returns; [getNodeEdges] returns the edges
    behind both lists; and [t] is a dependent of [s] exactly when [s] is
    a dependency of [t]. *)
Theorem graph_navigation_agrees (nodes : list WorkflowNode) (edges : list WorkflowEdge)
    (s t : string) :
  default [] (buildAdjacencyList nodes edges !! s) = getNodeDependents s edges ∧
  (is_Some (buildAdjacencyList nodes edges !! s) ↔
   s ∈ map n_id nodes ∨ s ∈ map source edges) ∧
  default 0%Z (initialInDegree nodes edges !! t)
  = Z.of_nat (length (getNodeDependencies t edges)) ∧
  map source (getNodeEdges t edges).1 = getNodeDependencies t edges ∧
  map target (getNodeEdges s edges).2 = getNodeDependents s edges ∧
  (t ∈ getNodeDependents s edges ↔ s ∈ getNodeDependencies t edges) ∧
  (t ∈ getNodeDependents s edges ↔ edgeRel edges s t).
Proof.
  split_and!.
  - apply buildAdjacencyList_lookup.
  - unfold buildAdjacencyList. rewrite adjacency_keys_edges, adjacency_keys_nodes.
    rewrite lookup_empty. split; [|tauto]. intros [[[? [=]]|?]|?]; auto.
  - pose proof (degree_initial nodes edges t) as Hdeg. unfold degree in Hdeg.
    rewrite Hdeg. unfold inDegreeOf, getNodeDependencies. by rewrite length_map.
  - done.
  - done.
  - unfold getNodeDependents, getNodeDependencies.
    rewrite !list_elem_of_fmap. split.
    + intros (e & -> & [<- He]%list_elem_of_filter). exists e.
      split; [done|]. by apply list_elem_of_filter.
    + intros (e & -> & [<- He]%list_elem_of_filter). exists e.
      split; [done|]. by apply list_elem_of_filter.
  - apply elem_of_successors.
Qed.

(** [getNodePorts] splits the ports of a node into the lists that
    [getInboundPorts] and [getOutboundPorts] return; every port of the
    node is in exactly one of the two, and ports of other nodes are in
    neither. *)
Theorem getNodePorts_partitions (nodeId : string) (ports : list PortDefinition) :
  getNodePorts nodeId ports
  = (getInboundPorts nodeId ports, getOutboundPorts nodeId ports) ∧
  getInboundPorts nodeId ports ++ getOutboundPorts nodeId ports
  ≡ₚ filter (λ port, p_nodeId port = nodeId) ports ∧
  (∀ port, port ∈ getInboundPorts nodeId ports →
           port ∉ getOutboundPorts nodeId ports) ∧
  getInboundPorts nodeId ports `sublist_of` ports ∧
  getOutboundPorts nodeId ports `sublist_of` ports.
Proof.
  unfold getNodePorts, getInboundPorts, getOutboundPorts.
  assert (Hin : filter (λ port, p_type port = input)
                  (filter (λ port, p_nodeId port = nodeId) ports)
                = filter (λ port, p_nodeId port = nodeId ∧ p_type port = input) ports).
  { rewrite list_filter_filter. apply list_filter_iff. tauto. }
  assert (Hout : filter (λ port, p_type port = output)
                   (filter (λ port, p_nodeId port = nodeId) ports)
                 = filter (λ port, p_nodeId port = nodeId ∧ p_type port = output) ports).
  { rewrite list_filter_filter. apply list_filter_iff. tauto. }
  split_and!.
  - by rewrite Hin, Hout.
  - rewrite <- Hin, <- Hout.
    rewrite <- (filter_app_complement (λ port, p_type port = input)
                  (filter (λ port, p_nodeId port = nodeId) ports)) at 3.
    f_equiv.
    rewrite (list_filter_iff (λ port, p_type port = output)
               (λ port, p_type port ≠ input)); [done|].
    intros port. destruct (p_type port); split; intros; congruence.
  - intros port [[_ Hi] _]%list_elem_of_filter [[_ Ho] _]%list_elem_of_filter.
    congruence.
  - apply sublist_filter.
  - apply sublist_filter.
Qed.

(* ===================================================================== *)
(** ** Where resolved inputs come from *)
(* ===================================================================== *)

Lemma truthy_string (s : string) :
  truthy (Some s) = if bool_decide (s = "") then None else Some s.
Proof. by destruct s. Qed.

(** For recorded outputs without an own property [__proto__] and port
    labels that are no inherited property names: every input that
    [resolveNodeInputs] hands to a node comes from an
    edge that enters the node and whose source has a recorded output:
    the key is a field of that output, or it is the label of the port the
    edge is scoped to.  A node that no such edge enters gets no inputs. *)
Theorem resolved_inputs_come_from_recorded_sources
    (context : ExecutionContext) (completedNodes : list NodeOutput)
    (edges : list WorkflowEdge) (ports : list PortDefinition) (key : string) :
  plainRecords completedNodes ports →
  is_Some (resolveNodeInputs context completedNodes edges ports !! key) →
  ∃ e sourceNode,
    e ∈ edges ∧ target e = nodeId context ∧
    recordedOutput completedNodes (source e) = Some sourceNode ∧
    (is_Some (o_output sourceNode !! key) ∨
     ∃ portId port, targetPort e = Some portId ∧ portOf ports portId = Some port ∧
                    p_label port = key).
Proof.
  intros _. induction edges as [|e edges IH] using rev_ind.
  - unfold resolveNodeInputs. simpl. rewrite lookup_empty. by intros [? ?].
  - rewrite resolveNodeInputs_snoc.
    assert (Hold : is_Some (resolveNodeInputs context completedNodes edges ports !! key) →
              ∃ e0 sourceNode,
                e0 ∈ edges ++ [e] ∧ target e0 = nodeId context ∧
                recordedOutput completedNodes (source e0) = Some sourceNode ∧
                (is_Some (o_output sourceNode !! key) ∨
                 ∃ portId port, targetPort e0 = Some portId ∧
                                portOf ports portId = Some port ∧ p_label port = key)).
    { intros (e0 & sn & He0 & ?)%IH. exists e0, sn. split; [|done].
      apply elem_of_app. by left. }
    destruct (decide (target e = nodeId context)) as [Ht|]; [|exact Hold].
    unfold resolveEdge. fold (recordedOutput completedNodes (source e)).
    destruct (recordedOutput completedNodes (source e)) as [sourceNode|] eqn:Hrec; [|exact Hold].
    assert (Hin : e ∈ edges ++ [e]) by (apply elem_of_app; right; apply list_elem_of_here).
    destruct (targetPort e) as [portId|] eqn:Hport.
    + rewrite truthy_string. case_bool_decide as Hempty.
      * intros Hk. apply lookup_union_is_Some in Hk as [Hk|Hk]; [|by apply Hold].
        exists e, sourceNode. split_and!; try done. by left.
      * fold (portOf ports portId).
        destruct (portOf ports portId) as [port|] eqn:Hp; [|exact Hold].
        rewrite truthy_string. case_bool_decide as Hlbl; [exact Hold|].
        destruct (decide (p_label port = key)) as [<-|Hne].
        -- intros _. exists e, sourceNode. split_and!; try done. right. eauto.
        -- rewrite lookup_insert_ne by done. exact Hold.
    + simpl. intros Hk. apply lookup_union_is_Some in Hk as [Hk|Hk]; [|by apply Hold].
      exists e, sourceNode. split_and!; try done. by left.
Qed.

(* ===================================================================== *)
(** ** Generated ids *)
(* ===================================================================== *)

(** The ids of the schema module are made like execution ids, from the
    clock reading and seven digits of the random draw: two generated ids,
    and with them the ids of two created edges or ports, coincide exactly
    when both readings and both digit runs do.  A created port is not
    required unless it is asked to be. *)
Theorem generated_ids_coincide_iff (now1 now2 : N) (random1 random2 : string) :
  (generateId now1 random1 = generateId now2 random2 ↔
   now1 = now2 ∧ String.substring 2 7 random1 = String.substring 2 7 random2) ∧
  generateExecutionId now1 random1 = "exec-" +:+ generateId now1 random1 ∧
  (∀ s1 t1 sp1 tp1 l1 s2 t2 sp2 tp2 l2,
     e_id (createEdge now1 random1 s1 t1 sp1 tp1 l1)
     = e_id (createEdge now2 random2 s2 t2 sp2 tp2 l2) ↔
     now1 = now2 ∧ String.substring 2 7 random1 = String.substring 2 7 random2) ∧
  (∀ n ty l d, required (createPort now1 random1 n ty l d None) = Some false).
Proof.
  assert (Hinj : generateId now1 random1 = generateId now2 random2 ↔
                 now1 = now2 ∧ String.substring 2 7 random1 = String.substring 2 7 random2).
  { unfold generateId. split.
    - intros Heq. apply split_at_dash in Heq as [Hnow Hrand]; [|apply pretty_N_dashFree..].
      by apply (inj pretty) in Hnow.
    - by intros [-> ->]. }
  split_and!; [done | | done | done].
  unfold generateExecutionId, generateId. by rewrite !append_cons, append_nil.
Qed.

(* ===================================================================== *)
(** ** Builder actions in sequence *)
(* ===================================================================== *)

Lemma filter_all {A} (P : A → Prop) `{!∀ x, Decision (P x)} (l : list A) :
  (∀ x, x ∈ l → P x) → filter P l = l.
Proof.
  induction l as [|x l IH]; intros Hall; [done|].
  rewrite filter_cons_True by (apply Hall; left).
  f_equal. apply IH. intros y Hy. apply Hall. by right.
Qed.

(** Deleting the selection right after a plain click is removing what was
    clicked: [deleteSelected] after [selectNode] gives the state of
    [removeNode] with nothing selected, after [selectEdge] the state of
    [removeEdge] with nothing selected.  With nothing selected it keeps
    nodes, edges and ports and still marks the state dirty. *)
Theorem deleteSelected_after_select (id : string) (state : WorkflowBuilderState) :
  deleteSelected (selectNode id false state) = clearSelection (removeNode id state) ∧
  deleteSelected (selectEdge id false state) = clearSelection (removeEdge id state) ∧
  b_nodes (deleteSelected (clearSelection state)) = b_nodes state ∧
  b_edges (deleteSelected (clearSelection state)) = b_edges state ∧
  b_ports (deleteSelected (clearSelection state)) = b_ports state ∧
  isDirty (deleteSelected (clearSelection state)) = true.
Proof.
  assert (Hone : toggle id ∅ = {[id]}).
  { unfold toggle. rewrite bool_decide_eq_false_2 by set_solver. set_solver. }
  split_and!.
  - unfold deleteSelected, selectNode, clearSelection, removeNode. simpl.
    rewrite Hone. f_equal.
    + apply list_filter_iff. intros n. set_solver.
    + apply list_filter_iff. intros e. set_solver.
    + apply list_filter_iff. intros p. set_solver.
  - unfold deleteSelected, selectEdge, clearSelection, removeEdge. simpl.
    rewrite Hone. f_equal.
    + apply filter_all. intros n _. set_solver.
    + apply list_filter_iff. intros e. set_solver.
    + apply filter_all. intros p _. set_solver.
  - simpl. apply filter_all. intros n _. set_solver.
  - simpl. apply filter_all. intros e _. set_solver.
  - simpl. apply filter_all. intros p _. set_solver.
  - reflexivity.
Qed.

(** [addPort] appends the port it returns, which then shows among the
    inputs or the outputs of its node according to its type; when the
    generated id is not in use, [removePort] with that id takes the port
    away again and gives back the list of ports, and it leaves the edges
    that do not name the id where they are. *)
Theorem addPort_then_removePort (now : N) (random36 : string) (nodeId : string)
    (type : PortType) (label dataType : string) (state : WorkflowBuilderState) :
  let port := (addPort now random36 nodeId type label dataType state).1 in
  let state' := (addPort now random36 nodeId type label dataType state).2 in
  (∀ p, p ∈ b_ports state → p_id p ≠ p_id port) →
  port = createPort now random36 nodeId type label dataType None ∧
  b_ports state' = b_ports state ++ [port] ∧
  port ∈ match type with
         | input => getInboundPorts nodeId (b_ports state')
         | output => getOutboundPorts nodeId (b_ports state')
         end ∧
  b_ports (removePort (p_id port) state') = b_ports state ∧
  b_nodes (removePort (p_id port) state') = b_nodes state ∧
  (∀ e, e ∈ b_edges (removePort (p_id port) state') ↔
        e ∈ b_edges state ∧
        sourcePort e ≠ Some (p_id port) ∧ targetPort e ≠ Some (p_id port)).
Proof.
  intros port state' Hfresh. subst port state'. simpl in *.
  split_and!; [done | done | | | done |].
  - destruct type; unfold getInboundPorts, getOutboundPorts;
      apply list_elem_of_filter; (split; [done|]);
      apply elem_of_app; right; apply list_elem_of_here.
  - rewrite filter_app, filter_cons_False, filter_nil, app_nil_r by (intros H; by apply H).
    by apply filter_all.
  - intros e. by rewrite list_elem_of_filter, (comm and).
Qed.

(** A port added to the empty builder. *)
Lemma addPort_then_removePort_witness :
  b_ports (removePort "1730000000000-k3j9x2m"
             (addPort 1730000000000%N "0.k3j9x2m1q" "A" input "in" "text" initialState).2)
  = [].
Proof.
  destruct (addPort_then_removePort 1730000000000%N "0.k3j9x2m1q" "A" input "in" "text"
              initialState) as (_ & _ & _ & Hports & _).
  - intros p Hp. by apply elem_of_nil in Hp.
  - exact Hports.
Defined.

(* ===================================================================== *)
(** ** The further properties on the examples *)
(* ===================================================================== *)

Lemma selfLoop_wellFormed : wellFormed selfLoopWorkflow.
Proof.
  split.
  - decide_by_computation.
  - apply edges_Forall. decide_by_computation.
Qed.

(** The self-loop workflow meets the data-model invariants; its plan is
    invalid and names the cycle A -> A. *)
Lemma wellFormed_plan_fails_only_on_cycles_witness :
  ∃ plan c,
    buildExecutionPlan selfLoopWorkflow = Some plan ∧
    valid plan = false ∧
    closedWalk (edges selfLoopWorkflow) c ∧
    errors plan = ["Workflow contains a cycle: A -> A"].
Proof.
  destruct (wellFormed_plan_fails_only_on_cycles selfLoopWorkflow selfLoop_wellFormed)
    as (plan & Hplan & _ & Hfail).
  assert (Hvalid : valid plan = false).
  { vm_compute in Hplan. by injection Hplan as <-. }
  destruct (Hfail Hvalid) as (_ & c & Hc & _).
  exists plan, c. split; [exact Hplan|]. split; [exact Hvalid|]. split; [exact Hc|].
  vm_compute in Hplan. by injection Hplan as <-.
Defined.

(** The diamond passes validation, and its plan is valid. *)
Lemma validation_iff_plan_and_endpoints_witness :
  ∃ v plan,
    validateWorkflowDAG (nodes diamondWorkflow) (edges diamondWorkflow) = Some v ∧
    buildExecutionPlan diamondWorkflow = Some plan ∧
    v_valid v = true ∧ valid plan = true ∧
    planOrder plan ≡ₚ ["A"; "B"; "C"; "D"].
Proof.
  destruct (validation_iff_plan_and_endpoints diamondWorkflow)
    as (v & plan & Hv & Hplan & Hiff & Hperm).
  { decide_by_computation. }
  assert (Hvalid : valid plan = true).
  { vm_compute in Hplan. by injection Hplan as <-. }
  assert (Hok : v_valid v = true).
  { apply Hiff. split; [exact Hvalid|]. apply edges_Forall. decide_by_computation. }
  exists v, plan. split; [exact Hv|]. split; [exact Hplan|]. split; [exact Hok|].
  split; [exact Hvalid|]. exact (Hperm Hok).
Defined.

(** In the plan of the diamond the context of D depends on B and C. *)
Lemma plan_context_dependencies_witness :
  ∃ plan context,
    buildExecutionPlan diamondWorkflow = Some plan ∧
    context ∈ plan_nodes plan ∧ nodeId context = "D" ∧
    inputs context = ∅ ∧
    NoDup (dependencies context) ∧
    (∀ s, s ∈ dependencies context ↔ s ∈ ["B"; "C"]).
Proof.
  destruct (buildExecutionPlan diamondWorkflow) as [plan|] eqn:Hplan; [|discriminate Hplan].
  assert (Hctx : ∃ context, context ∈ plan_nodes plan ∧ nodeId context = "D").
  { vm_compute in Hplan. injection Hplan as <-. eexists. split.
    - do 3 apply list_elem_of_further. apply list_elem_of_here.
    - reflexivity. }
  destruct Hctx as (context & Hctx & Hid).
  destruct (plan_context_dependencies diamondWorkflow plan context Hplan Hctx)
    as (_ & _ & Hinputs & Hnd & Hdeps).
  exists plan, context. split; [reflexivity|]. split; [exact Hctx|]. split; [exact Hid|].
  split; [exact Hinputs|]. split; [exact Hnd|].
  intros s. rewrite Hdeps, Hid. reflexivity.
Defined.

(** The chain A -> X -> B through an id that names no node has a valid
    plan, which is sound all the same. *)
Lemma valid_plan_is_sound_witness :
  ∃ plan,
    buildExecutionPlan danglingChainWorkflow = Some plan ∧
    valid plan = true ∧
    NoDup (planOrder plan) ∧
    map node (plan_nodes plan) ≡ₚ nodes danglingChainWorkflow ∧
    ¬ onCycle (edges danglingChainWorkflow) "A".
Proof.
  destruct (buildExecutionPlan danglingChainWorkflow) as [plan|] eqn:Hplan;
    [|discriminate Hplan].
  assert (Hvalid : valid plan = true).
  { vm_compute in Hplan. by injection Hplan as <-. }
  destruct (valid_plan_is_sound danglingChainWorkflow plan) as (Hperm & Hnd & _ & _ & Hcyc).
  - decide_by_computation.
  - exact Hplan.
  - exact Hvalid.
  - exists plan. split; [reflexivity|]. split; [exact Hvalid|]. split; [exact Hnd|].
    split; [exact Hperm|]. apply Hcyc. apply list_elem_of_here.
Defined.

(** The input [value1] of C comes from the edge A -> C. *)
Lemma resolved_inputs_come_from_recorded_sources_witness :
  ∃ e sourceNode,
    e ∈ [exampleEdge "A" "C"; exampleEdge "B" "C"] ∧
    recordedOutput [firstOutput; secondOutput] (source e) = Some sourceNode ∧
    is_Some (o_output sourceNode !! "value1").
Proof.
  destruct (resolved_inputs_come_from_recorded_sources
              (joinContext (exampleNode "C" "text")) [firstOutput; secondOutput]
              [exampleEdge "A" "C"; exampleEdge "B" "C"] [] "value1")
    as (e & sourceNode & He & _ & Hrec & [Hfield|(portId & port & _ & Hport & _)]).
  - split; [repeat constructor | constructor].
  - vm_compute. eauto.
  - by exists e, sourceNode.
  - discriminate Hport.
Defined.

(** [runWorkflow] on the workflow whose first node fails: two results, A
    with [error] and B with [success], and the overall status [error]. *)
Lemma runWorkflow_results_follow_plan_order_witness :
  ∃ execution s',
    runWorkflow exampleHost failingFirstWorkflow None 1730000000000%N "0.k3j9x2m1q" 0
    = Some (Normal execution, s') ∧
    map r_nodeId (results execution) = ["A"; "B"] ∧
    executionId execution = "exec-1730000000000-k3j9x2m" ∧
    x_status execution = error.
Proof.
  edestruct (runWorkflow_results_follow_plan_order exampleHost failingFirstWorkflow None
               1730000000000%N "0.k3j9x2m1q" 0)
    as (execution & s' & Hrun & _ & Hxid & Hids & _ & Hst & _).
  - decide_by_computation.
  - vm_compute. reflexivity.
  - reflexivity.
  - intros given Hgiven. discriminate Hgiven.
  - exists execution, s'. split; [exact Hrun|]. split; [exact Hids|].
    split; [exact Hxid|].
    vm_compute in Hrun. injection Hrun as <- _. reflexivity.
Defined.

(** After that run only the output of B is recorded. *)
Lemma recorded_outputs_are_the_successes_witness :
  ∃ execution s',
    run exampleHost (exampleRunner failingFirstWorkflow None) (freshState 0)
    = Some (Normal execution, s') ∧
    map (λ o, o_nodeId o) (completedNodes s') = ["B"] ∧
    map r_output (results execution)
    = [None; Some {["label" := JStr "Node B"]}].
Proof.
  edestruct (recorded_outputs_are_the_successes exampleHost
               (exampleRunner failingFirstWorkflow None))
    with (s := freshState 0)
    as (execution & s' & Hrun & Hdone & _).
  - decide_by_computation.
  - vm_compute. reflexivity.
  - reflexivity.
  - intros listener Hl. discriminate Hl.
  - reflexivity.
  - exists execution, s'. split; [exact Hrun|].
    vm_compute in Hrun. injection Hrun as <- <-. split; reflexivity.
Defined.


(** A node of the unregistered type [unknown]. *)
Lemma missing_executor_fails_the_node_witness :
  ∃ execution s' r,
    run exampleHost (exampleRunner unknownTypeWorkflow None) (freshState 0)
    = Some (Normal execution, s') ∧
    r ∈ results execution ∧ r_nodeId r = "A" ∧ r_status r = error ∧
    message <$> r_error r = Some "No executor registered for node type: unknown" ∧
    invocationsOf (trace s') = [] ∧
    x_status execution = error.
Proof.
  edestruct (missing_executor_fails_the_node exampleHost
               (exampleRunner unknownTypeWorkflow None))
    with (s := freshState 0)
    as (execution & s' & r & Hrun & Hin & Hid & Hst & _ & Herr & _ & Hx).
  - decide_by_computation.
  - vm_compute. reflexivity.
  - reflexivity.
  - intros listener Hl. discriminate Hl.
  - apply list_elem_of_here.
  - intros w. reflexivity.
  - exists execution, s', r. split; [exact Hrun|]. split; [exact Hin|].
    split; [exact Hid|]. split; [exact Hst|]. split; [by rewrite Herr|].
    split; [|exact Hx].
    vm_compute in Hrun. injection Hrun as _ <-. reflexivity.
Defined.

(** The executor of type [failing] rejects with an [Error] without code. *)
Lemma rejection_is_reported_with_its_code_witness :
  ∃ execution s' r,
    run exampleHost (exampleRunner failingFirstWorkflow None) (freshState 0)
    = Some (Normal execution, s') ∧
    r ∈ results execution ∧ r_nodeId r = "A" ∧
    r_error r = Some {| message := "Deliberate test error";
                        code := Some "EXECUTION_ERROR"; details := None |}.
Proof.
  edestruct (rejection_is_reported_with_its_code exampleHost
               (exampleRunner failingFirstWorkflow None))
    with (s := freshState 0)
    as (execution & s' & r & Hrun & Hin & Hid & _ & Herr & _).
  - decide_by_computation.
  - vm_compute. reflexivity.
  - reflexivity.
  - intros listener Hl. discriminate Hl.
  - apply list_elem_of_here.
  - intros w. reflexivity.
  - intros cfg inputs w. reflexivity.
  - exists execution, s', r. split; [exact Hrun|]. split; [exact Hin|].
    split; [exact Hid|]. exact Herr.
Defined.




(** The first request of a client starts a window. *)
Lemma checkRateLimit_verdict_witness :
  (RateLimit.checkRateLimit 1000 "203.0.113.7" ∅).1
  = {| RateLimit.allowed := true; RateLimit.remaining := 99 |} ∧
  (RateLimit.checkRateLimit 1000 "203.0.113.7" ∅).2 !! "203.0.113.7"
  = Some {| RateLimit.count := 1; RateLimit.resetTime := 61000 |}.
Proof.
  destruct (checkRateLimit_verdict 1000 "203.0.113.7" ∅)
    as (_ & _ & Hstart & _).
  - decide_by_computation.
  - apply Hstart. intros e He. rewrite lookup_empty in He. discriminate He.
Defined.

(** Of 101 requests within one window the last one is refused. *)
Lemma rate_limit_allows_100_per_window_witness :
  ∃ v, (RateLimit.checkAll (0%Z :: replicate 100 1%Z) "203.0.113.7" ∅).1 !! 100 = Some v ∧
       RateLimit.allowed v = false ∧ RateLimit.remaining v = 0%Z.
Proof.
  assert (Hv : ∃ v, (RateLimit.checkAll (0%Z :: replicate 100 1%Z) "203.0.113.7" ∅).1
                      !! 100 = Some v).
  { apply lookup_lt_is_Some_2. vm_compute. lia. }
  destruct Hv as [v Hv]. exists v. split; [exact Hv|].
  destruct (rate_limit_allows_100_per_window "203.0.113.7" ∅ 0 (replicate 100 1%Z))
    with (i := 100) (v := v) as [Ha Hr].
  - decide_by_computation.
  - intros e He. rewrite lookup_empty in He. discriminate He.
  - apply Forall_replicate. lia.
  - exact Hv.
  - split; [exact Ha | exact Hr].
Defined.

(** Removing the root of the diamond, or one of its edges, leaves a graph
    that passes validation. *)
Lemma removals_keep_the_graph_valid_witness :
  ∃ v1 v2,
    validate (removeNode "A" diamondBuilder) = Some v1 ∧ v_valid v1 = true ∧
    validate (deleteSelected diamondBuilder) = Some v2 ∧ v_valid v2 = true.
Proof.
  destruct (validate diamondBuilder) as [v|] eqn:Hv; [|discriminate Hv].
  assert (Hvalid : v_valid v = true).
  { vm_compute in Hv. by injection Hv as <-. }
  pose proof (removals_keep_the_graph_valid diamondBuilder v "A" "A->B" "p" Hv Hvalid)
    as Hall.
  apply Forall_cons in Hall as [(v1 & Hv1 & Hok1) Hall].
  apply Forall_cons in Hall as [_ Hall].
  apply Forall_cons in Hall as [_ Hall].
  apply Forall_cons in Hall as [(v2 & Hv2 & Hok2) _].
  exists v1, v2. split; [exact Hv1|]. split; [exact Hok1|]. split; [exact Hv2|exact Hok2].
Defined.
